(** * Receipt splitter: integrity validator, share-link codec, allocation engine

    A shallow embedding of the core of the receipt-splitting application
    (App.tsx, types.ts): [sanitizeString], [safeBtoa], [safeAtob],
    [validateReceiptIntegrity], [handleHashChange], [calculations] and
    [generateShareLink], together with the ECMAScript built-ins they call.

    Conventions.
    - A JavaScript string is the list of its UTF-16 code units ([Z], each in
      [0, 65535] for a string the engine can hold).
    - A JavaScript number is an IEEE-754 binary64 value: [spec_float] with
      [prec = 53] and [emax = 1024], with the Standard Library's operations.
    - A thrown exception is the [Throw] result of the [completion] monad.
    - React state is passed explicitly as a record. *)

From Stdlib Require Import String Ascii.
From Stdlib Require Import ZArith List Bool Lia SpecFloat Permutation.
Import ListNotations.
Set Warnings "-register-all".
Local Open Scope Z_scope.

(* ================================================================== *)
(** ** Strings: code units, white space, [trim], [substring], [replace] *)
(* ================================================================== *)

Module JSString.

(** Code units and strings are plain [Z] and [list Z]: the two names are
    notations, so that list lemmas apply as they are. *)
Abbreviation char16 := Z (only parsing).
Abbreviation jsstring := (list Z) (only parsing).

(** ASCII literals of the source, as code units. *)
Definition lit (s : string) : jsstring :=
  map (fun a => Z.of_N (N_of_ascii a)) (list_ascii_of_string s).

(** WhiteSpace and LineTerminator code points (ECMA-262 12.2 and 12.3):
    what [String.prototype.trim] removes. *)
Definition isWhiteSpace (c : char16) : bool :=
  (c =? 9) || (c =? 10) || (c =? 11) || (c =? 12) || (c =? 13) || (c =? 32)
  || (c =? 160) || (c =? 5760) || ((8192 <=? c) && (c <=? 8202))
  || (c =? 8232) || (c =? 8233) || (c =? 8239) || (c =? 8287)
  || (c =? 12288) || (c =? 65279).

Fixpoint trimStart (s : jsstring) : jsstring :=
  match s with
  | c :: s' => if isWhiteSpace c then trimStart s' else s
  | [] => []
  end.

Definition trimEnd (s : jsstring) : jsstring := rev (trimStart (rev s)).

(** [String.prototype.trim]. *)
Definition trim (s : jsstring) : jsstring := trimEnd (trimStart s).

(** [String.prototype.substring(start, end)]: both bounds are clamped to
    [0, length] and swapped when out of order. *)
Definition substring (s : jsstring) (start end_ : Z) : jsstring :=
  let len := Z.of_nat (length s) in
  let a := Z.min (Z.max start 0) len in
  let b := Z.min (Z.max end_ 0) len in
  let from := Z.min a b in
  let to := Z.max a b in
  firstn (Z.to_nat (to - from)) (skipn (Z.to_nat from) s).

(** The fragment of regular expressions the source uses: a sequence of
    single-character atoms, each taken once, greedily any number of times
    ([*]) or greedily at most once ([?]). *)
Inductive atom :=
| Lit (c : char16)      (* the character c *)
| NotLit (c : char16).  (* the class [^c] *)

Inductive item :=
| One (a : atom)
| Star (a : atom)
| Opt (a : atom).

Definition regex := list item.

Definition accepts (a : atom) (c : char16) : bool :=
  match a with
  | Lit d => c =? d
  | NotLit d => negb (c =? d)
  end.

(** Backtracking match of [r] at the start of [s]: the input left after the
    match the engine finds first (greedy alternatives tried first). *)
Fixpoint match_here (r : regex) (s : jsstring) {struct r} : option jsstring :=
  match r with
  | [] => Some s
  | One a :: r' =>
      match s with
      | c :: s' => if accepts a c then match_here r' s' else None
      | [] => None
      end
  | Opt a :: r' =>
      match s with
      | c :: s' =>
          if accepts a c
          then match match_here r' s' with
               | Some t => Some t
               | None => match_here r' s
               end
          else match_here r' s
      | [] => match_here r' s
      end
  | Star a :: r' =>
      (fix star (s : jsstring) : option jsstring :=
         match s with
         | c :: s' =>
             if accepts a c
             then match star s' with
                  | Some t => Some t
                  | None => match_here r' s
                  end
             else match_here r' s
         | [] => match_here r' []
         end) s
  end.

(** [String.prototype.replace] with a global regular expression and a
    constant replacement. [skip] counts the code units of the current match
    still to be dropped; an empty match inserts the replacement and keeps
    the code unit it stands before. *)
Fixpoint replace_from (r : regex) (repl : jsstring) (skip : nat) (s : jsstring)
  : jsstring :=
  match s with
  | [] =>
      match skip, match_here r [] with
      | O, Some _ => repl
      | _, _ => []
      end
  | c :: s' =>
      match skip with
      | S k => replace_from r repl k s'
      | O =>
          match match_here r s with
          | Some t =>
              match (length s - length t)%nat with
              | O => repl ++ c :: replace_from r repl 0 s'
              | S k => repl ++ replace_from r repl k s'
              end
          | None => c :: replace_from r repl 0 s'
          end
      end
  end.

Definition replace (r : regex) (repl : jsstring) (s : jsstring) : jsstring :=
  replace_from r repl 0 s.

(** Last code unit is white space. *)
Definition endsWithWhiteSpace (s : jsstring) : bool :=
  match rev s with
  | c :: _ => isWhiteSpace c
  | [] => false
  end.

Definition startsWithWhiteSpace (s : jsstring) : bool :=
  match s with
  | c :: _ => isWhiteSpace c
  | [] => false
  end.

End JSString.
Import JSString.

(* ================================================================== *)
(** ** The sanitizer (App.tsx, lines 14-20) *)
(* ================================================================== *)

(** The pattern [/<[^>]*>?/gm]: a [<], then greedily everything that is not
    a [>], then a [>] when there is one. The [m] flag changes [^] and [$]
    only, which the pattern does not use. *)
Definition tag_re : regex := [One (Lit 60); Star (NotLit 62); Opt (Lit 62)].

(** [str.replace(/<[^>]*>?/gm, '').trim().substring(0, 255)] *)
Definition sanitizeString (str : jsstring) : jsstring :=
  substring (trim (replace tag_re [] str)) 0 255.

(* ================================================================== *)
(** ** Numbers: IEEE-754 binary64 and the conversions to and from text *)
(* ================================================================== *)

Module JSNumber.

Abbreviation number := spec_float (only parsing).

Definition prec : Z := 53.
Definition emax : Z := 1024.

Definition NaN : number := S754_nan.
Definition zero : number := S754_zero false.
Definition infinity : number := S754_infinity false.

Definition add : number -> number -> number := SFadd prec emax.
Definition mul : number -> number -> number := SFmul prec emax.
Definition div : number -> number -> number := SFdiv prec emax.
(** [x < y] and [x > y] on numbers: false when either side is NaN. *)
Definition lt (x y : number) : bool := SFltb x y.
Definition gt (x y : number) : bool := SFltb y x.

(** The Number value of an integer (round to nearest, ties to even). *)
Definition of_Z (z : Z) : number := binary_normalize prec emax z 0 false.

Definition isNaN (x : number) : bool :=
  match x with S754_nan => true | _ => false end.

Definition isFinite (x : number) : bool :=
  match x with S754_nan | S754_infinity _ => false | _ => true end.

(** ToBoolean on a number: [+0], [-0] and NaN are falsy. *)
Definition truthy (x : number) : bool :=
  match x with S754_nan | S754_zero _ => false | _ => true end.

(** [+0], a positive finite number or [+Infinity]. *)
Definition nonneg (x : number) : bool :=
  match x with
  | S754_zero false | S754_infinity false | S754_finite false _ _ => true
  | _ => false
  end.

Definition negative (x : number) : bool :=
  match x with
  | S754_infinity true | S754_finite true _ _ => true
  | _ => false
  end.

(** A value the engine can hold: the mantissa and exponent are those of a
    binary64 number. *)
Definition wf (x : number) : bool := valid_binary prec emax x.

(** [Math.max] (ECMA-262 21.3.2.24): NaN if any argument is NaN; otherwise
    the running maximum from [-Infinity], with [+0] above [-0]. *)
Definition max_step (highest x : number) : number :=
  match x, highest with
  | S754_zero false, S754_zero true => x
  | _, _ => if gt x highest then x else highest
  end.

Definition Math_max (args : list number) : number :=
  if existsb isNaN args then NaN
  else fold_left max_step args (S754_infinity true).

(** *** Text to number *)

(** The Number value of the decimal [M * 10^E], with sign [neg]
    (RoundMVResult). A negative exponent is a correctly rounded division of
    two integers: [SFdiv]'s core works on integer mantissas of any size. *)
Definition round_decimal (neg : bool) (M E : Z) : number :=
  match M with
  | Zpos m =>
      if 0 <=? E
      then binary_normalize prec emax (cond_Zopp neg (M * 10 ^ E)) 0 false
      else SFdiv prec emax (S754_finite neg m 0)
                           (S754_finite false (Z.to_pos (10 ^ (- E))) 0)
  | _ => S754_zero neg
  end.

Definition isDigit (c : char16) : bool := (48 <=? c) && (c <=? 57).

(** Reads a run of decimal digits: the value accumulated onto [acc], the
    number of digits read added to [cnt], and the rest of the input. *)
Fixpoint take_digits (s : jsstring) (acc cnt : Z) : Z * Z * jsstring :=
  match s with
  | c :: s' =>
      if isDigit c then take_digits s' (acc * 10 + (c - 48)) (cnt + 1)
      else (acc, cnt, s)
  | [] => (acc, cnt, [])
  end.

Definition is_nil (s : jsstring) : bool :=
  match s with [] => true | _ => false end.

(** The input after the character [c], when it starts with it. *)
Definition eat (c : char16) (s : jsstring) : option jsstring :=
  match s with
  | d :: t => if d =? c then Some t else None
  | [] => None
  end.

(** ExponentPart: [e] or [E], an optional sign, at least one digit. *)
Definition take_exponent (s : jsstring) : option (Z * jsstring) :=
  match s with
  | c :: s1 =>
      if (c =? 101) || (c =? 69) then
        let '(neg, s2) :=
          match eat 43 s1, eat 45 s1 with
          | Some t, _ => (false, t)
          | None, Some t => (true, t)
          | None, None => (false, s1)
          end in
        let '(v, cnt, rest) := take_digits s2 0 0 in
        if 0 <? cnt then Some (if neg then - v else v, rest) else None
      else Some (0, s)
  | [] => Some (0, [])
  end.

(** StrUnsignedDecimalLiteral without [Infinity], up to the end of the
    string: the digits as an integer and the decimal exponent. *)
Definition parse_unsigned_decimal (s : jsstring) : option (Z * Z) :=
  let '(i, ci, s1) := take_digits s 0 0 in
  match eat 46 s1 with
  | Some s2 =>
      let '(f, cf, s3) := take_digits s2 i 0 in
      if (0 <? ci) || (0 <? cf) then
        match take_exponent s3 with
        | Some (e, []) => Some (f, e - cf)
        | _ => None
        end
      else None
  | None =>
      if 0 <? ci then
        match take_exponent s1 with
        | Some (e, []) => Some (i, e)
        | _ => None
        end
      else None
  end.

Definition digit_value (base : Z) (c : char16) : option Z :=
  let v :=
    if (48 <=? c) && (c <=? 57) then c - 48
    else if (97 <=? c) && (c <=? 102) then c - 87
    else if (65 <=? c) && (c <=? 70) then c - 55
    else base in
  if v <? base then Some v else None.

Fixpoint take_radix (base : Z) (s : jsstring) (acc : Z) : option Z :=
  match s with
  | c :: s' =>
      match digit_value base c with
      | Some v => take_radix base s' (acc * base + v)
      | None => None
      end
  | [] => Some acc
  end.

(** NonDecimalIntegerLiteral: [0x], [0o] or [0b] and at least one digit. *)
Definition parse_non_decimal (s : jsstring) : option Z :=
  match s with
  | 48 :: p :: (d :: _) as ds =>
      if (p =? 120) || (p =? 88) then take_radix 16 ds 0
      else if (p =? 111) || (p =? 79) then take_radix 8 ds 0
      else if (p =? 98) || (p =? 66) then take_radix 2 ds 0
      else None
  | _ => None
  end.

Fixpoint list_eqb (s t : jsstring) : bool :=
  match s, t with
  | [], [] => true
  | c :: s', d :: t' => (c =? d) && list_eqb s' t'
  | _, _ => false
  end.

Definition parse_signed_decimal (neg : bool) (s : jsstring) : number :=
  if list_eqb s (lit "Infinity") then S754_infinity neg
  else match parse_unsigned_decimal s with
       | Some (M, E) => round_decimal neg M E
       | None => NaN
       end.

(** StringToNumber (ECMA-262 7.1.4.1.1): white space is trimmed, the empty
    string is [+0], anything outside the grammar is NaN. *)
Definition StringToNumber (s : jsstring) : number :=
  let t := trim s in
  if is_nil t then zero
  else match eat 43 t, eat 45 t with
       | Some u, _ => parse_signed_decimal false u
       | None, Some u => parse_signed_decimal true u
       | None, None =>
           match parse_non_decimal t with
           | Some z => of_Z z
           | None => parse_signed_decimal false t
           end
       end.

(** *** Number to text *)

(** Decimal digits of a non-negative integer, most significant first. *)
Fixpoint decimal_fuel (fuel : nat) (z : Z) (acc : jsstring) : jsstring :=
  match fuel with
  | O => acc
  | S f =>
      if z <? 10 then (48 + z) :: acc
      else decimal_fuel f (z / 10) ((48 + z mod 10) :: acc)
  end.

Definition decimal (z : Z) : jsstring :=
  decimal_fuel (S (Z.to_nat (Z.log2 z))) z [].

(** The magnitude [num / den] of a finite non-zero number. *)
Definition ratio_of (m : positive) (e : Z) : Z * Z :=
  if 0 <=? e then (Zpos m * 2 ^ e, 1) else (Zpos m, 2 ^ (- e)).

(** The least [n] from [n0] on with [num / den < 10^n]. *)
Fixpoint magnitude_from (fuel : nat) (num den n : Z) : Z :=
  match fuel with
  | O => n
  | S f =>
      let below :=
        if 0 <=? n then num <? den * 10 ^ n else num * 10 ^ (- n) <? den in
      if below then n else magnitude_from f num den (n + 1)
  end.

(** The decimal exponent [n] with [10^(n-1) <= num / den < 10^n]. The binary
    logarithm puts it within one of [lg * log10 2]. *)
Definition magnitude (num den : Z) : Z :=
  let lg := Z.log2 num - Z.log2 den in
  magnitude_from 8 num den ((lg * 1233) / 4096 - 2).

(** [floor (num / den * 10^p)]. *)
Definition scaled_floor (num den p : Z) : Z :=
  if 0 <=? p then (num * 10 ^ p) / den else num / (den * 10 ^ (- p)).

(** Compares [|num/den * 10^p - lo|] with [|hi - num/den * 10^p|] for
    [hi = lo + 1]: which of the two integers is nearer. *)
Definition nearer_low (num den p lo : Z) : comparison :=
  let '(a, b) :=
    if 0 <=? p then (num * 10 ^ p, den) else (num, den * 10 ^ (- p)) in
  (* a/b - lo  versus  lo + 1 - a/b *)
  Z.compare (2 * a) ((2 * lo + 1) * b).

Definition digits_count (s : Z) : Z := Z.of_nat (length (decimal s)).

(** [(-1)^neg * s * 10^(n - k)], with [k] the number of digits of [s],
    is the number [(-1)^neg * m * 2^e] once rounded. *)
Definition reads_back (neg : bool) (m : positive) (e : Z) (s n : Z) : bool :=
  match round_decimal neg s (n - digits_count s) with
  | S754_finite sg m1 e1 => Bool.eqb sg neg && Pos.eqb m1 m && (e1 =? e)
  | _ => false
  end.

(** The candidates with [k] digits: the two integers around the scaled
    magnitude that read back as the number, the nearer one first (the even
    one on a tie). A candidate [10^k] is the [k]-digit [10^(k-1)], one
    decade up. *)
Definition candidates (neg : bool) (m : positive) (e : Z) (num den n k : Z)
  : list (Z * Z) :=
  let lo := scaled_floor num den (k - n) in
  let hi := lo + 1 in
  let norm s := if s =? 10 ^ k then (10 ^ (k - 1), n + 1) else (s, n) in
  let ordered :=
    match nearer_low num den (k - n) lo with
    | Lt => [lo; hi]
    | Gt => [hi; lo]
    | Eq => if Z.even lo then [lo; hi] else [hi; lo]
    end in
  filter (fun sn => (0 <? fst sn) && (10 ^ (k - 1) <=? fst sn)
                    && (fst sn <? 10 ^ k)
                    && reads_back neg m e (fst sn) (snd sn))
         (map norm ordered).

Fixpoint shortest_from (fuel : nat) (neg : bool) (m : positive) (e : Z)
  (num den n k : Z) : option (Z * Z) :=
  match fuel with
  | O => None
  | S f =>
      match candidates neg m e num den n k with
      | sn :: _ => Some sn
      | [] => shortest_from f neg m e num den n (k + 1)
      end
  end.

(** The exact decimal expansion of [m * 2^e]: its digits as an integer and,
    as for the candidates, the exponent [n] that places them. *)
Definition exact_digits (m : positive) (e : Z) : Z * Z :=
  let '(s, e10) :=
    if 0 <=? e then (Zpos m * 2 ^ e, 0) else (Zpos m * 5 ^ (- e), e) in
  (s, e10 + digits_count s).

(** The integers [s] and [n] of Number::toString (ECMA-262 6.1.6.1.20, with
    the recommended choice of [s]): as few digits as possible with
    [s * 10^(n-k)] reading back as the number. Seventeen digits always
    suffice for a binary64 value; the exact expansion, which always reads
    back, stands behind them. *)
Definition shortest_digits (neg : bool) (m : positive) (e : Z) : Z * Z :=
  let '(num, den) := ratio_of m e in
  match shortest_from 17 neg m e num den (magnitude num den) 1 with
  | Some sn => sn
  | None => exact_digits m e
  end.

Definition zeros (n : Z) : jsstring := repeat 48 (Z.to_nat n).

(** The layout of the digits (steps 6 to 10 of Number::toString), [k]
    being their number. *)
Definition layout (s n : Z) : jsstring :=
  let ds := decimal s in
  let k := digits_count s in
  if (k <=? n) && (n <=? 21) then ds ++ zeros (n - k)
  else if (0 <? n) && (n <=? 21) then
    firstn (Z.to_nat n) ds ++ 46 :: skipn (Z.to_nat n) ds
  else if (-6 <? n) && (n <=? 0) then
    48 :: 46 :: zeros (- n) ++ ds
  else
    let ex := (if 0 <=? n - 1 then 43 else 45) :: decimal (Z.abs (n - 1)) in
    match ds with
    | [d] => d :: 101 :: ex
    | d :: rest => d :: 46 :: rest ++ 101 :: ex
    | [] => []
    end.

(** Number::toString in radix 10. *)
Definition toString (x : number) : jsstring :=
  match x with
  | S754_nan => lit "NaN"
  | S754_zero _ => lit "0"
  | S754_infinity false => lit "Infinity"
  | S754_infinity true => lit "-Infinity"
  | S754_finite neg m e =>
      let '(s, n) := shortest_digits neg m e in
      (if neg then [45] else []) ++ layout s n
  end.

End JSNumber.

(* ================================================================== *)
(** ** Values, exceptions and the coercions of the language *)
(* ================================================================== *)

Module JSValue.
Import JSNumber.

(** The values that reach the program: what [JSON.parse] builds, and what
    the analysis service returns after spreading such a value. An object is
    the list of its own properties, each key once, in creation order. *)
Inductive value :=
| Undefined
| Null
| Bool (b : bool)
| Num (x : number)
| Str (s : jsstring)
| Arr (elems : list value)
| Obj (props : list (jsstring * value)).

Inductive exn :=
| TypeError
| SyntaxError
| URIError
| InvalidCharacterError
| Error (message : jsstring).

(** The result of evaluating an expression: a value or a thrown exception. *)
Inductive completion (A : Type) :=
| Normal (a : A)
| Throw (e : exn).
Arguments Normal {A} a.
Arguments Throw {A} e.

Definition bind {A B} (c : completion A) (k : A -> completion B)
  : completion B :=
  match c with
  | Normal a => k a
  | Throw e => Throw e
  end.

(** [try { body } catch (e) { handler }] *)
Definition try_catch {A} (body : completion A) (handler : exn -> A) : A :=
  match body with
  | Normal a => a
  | Throw e => handler e
  end.

Fixpoint lookup (key : jsstring) (props : list (jsstring * value))
  : option value :=
  match props with
  | (k, v) :: rest => if list_eqb k key then Some v else lookup key rest
  | [] => None
  end.

(** [v.key] for the property names the program reads (restaurantName, date,
    currency, subtotal, tax, tip, total, items, id, quantity, description,
    price, replace, toString): no prototype defines the first twelve, so
    only an object's own property can answer; reading a property of
    [undefined] or [null] throws. *)
Definition get (v : value) (key : jsstring) : completion value :=
  match v with
  | Undefined | Null => Throw TypeError
  | Obj props =>
      match lookup key props with
      | Some x => Normal x
      | None => Normal Undefined
      end
  | _ => Normal Undefined
  end.

(** ToBoolean. *)
Definition truthy (v : value) : bool :=
  match v with
  | Undefined | Null => false
  | Bool b => b
  | Num x => JSNumber.truthy x
  | Str s => negb (is_nil s)
  | Arr _ | Obj _ => true
  end.

(** [a || b] *)
Definition or (a b : value) : value := if truthy a then a else b.

(** [a || b] on numbers. *)
Definition or_num (a b : number) : number :=
  if JSNumber.truthy a then a else b.

Definition is_object (v : value) : bool :=   (* typeof v === 'object' *)
  match v with Null | Arr _ | Obj _ => true | _ => false end.

Definition is_string (v : value) : bool :=   (* typeof v === 'string' *)
  match v with Str _ => true | _ => false end.

Definition isArray (v : value) : bool :=     (* Array.isArray(v) *)
  match v with Arr _ => true | _ => false end.

(** ToString (ECMA-262 7.1.17). An array joins the strings of its elements
    with commas, [undefined] and [null] elements giving the empty string. A
    plain object answers [[object Object]] through [Object.prototype]; an own
    property named [toString] hides that method, and since a parsed value is
    never callable, ToPrimitive finds no method and throws. *)
Fixpoint ToString (v : value) : completion jsstring :=
  match v with
  | Undefined => Normal (lit "undefined")
  | Null => Normal (lit "null")
  | Bool true => Normal (lit "true")
  | Bool false => Normal (lit "false")
  | Num x => Normal (JSNumber.toString x)
  | Str s => Normal s
  | Arr elems =>
      (fix join (l : list value) (first : bool) : completion jsstring :=
         match l with
         | [] => Normal []
         | e :: l' =>
             bind (match e with
                   | Undefined | Null => Normal []
                   | _ => ToString e
                   end) (fun s =>
             bind (join l' false) (fun r =>
             Normal ((if first then [] else [44]) ++ s ++ r)))
         end) elems true
  | Obj props =>
      match lookup (lit "toString") props with
      | Some _ => Throw TypeError
      | None => Normal (lit "[object Object]")
      end
  end.

(** ToNumber (ECMA-262 7.1.4), which is what [Number(v)] computes. Arrays
    and objects go through ToPrimitive: [valueOf] returns the object itself
    (or is hidden by an uncallable own property), so the string form is
    what gets converted. *)
Definition ToNumber (v : value) : completion number :=
  match v with
  | Undefined => Normal NaN
  | Null => Normal zero
  | Bool true => Normal (of_Z 1)
  | Bool false => Normal zero
  | Num x => Normal x
  | Str s => Normal (StringToNumber s)
  | Arr _ | Obj _ => bind (ToString v) (fun s => Normal (StringToNumber s))
  end.

End JSValue.

Declare Scope js_scope.
Delimit Scope js_scope with js.
Notation "x <- c ;; k" := (JSValue.bind c (fun x => k))
  (at level 61, c at next level, right associativity) : js_scope.

(* ================================================================== *)
(** ** The platform's codecs: UTF-8, base64, percent-encoding *)
(* ================================================================== *)

Module Codec.
Import JSNumber JSValue.
Local Open Scope js_scope.

(** *** UTF-16 code units and code points *)

Definition isHigh (c : char16) : bool := (55296 <=? c) && (c <=? 56319).
Definition isLow (c : char16) : bool := (56320 <=? c) && (c <=? 57343).
Definition isSurrogate (c : char16) : bool := (55296 <=? c) && (c <=? 57343).

(** The code point of a surrogate pair. *)
Definition pair_code (hi lo : char16) : Z :=
  65536 + (hi - 55296) * 1024 + (lo - 56320).

(** The code units of a code point. *)
Definition units_of (cp : Z) : jsstring :=
  if cp <? 65536 then [cp]
  else [55296 + (cp - 65536) / 1024; 56320 + (cp - 65536) mod 1024].

(** The code points of a string, each lone surrogate handed to [lone]. *)
Fixpoint code_points (lone : char16 -> Z) (s : jsstring) : list Z :=
  match s with
  | [] => []
  | c :: s' =>
      if isHigh c then
        match s' with
        | d :: s'' =>
            if isLow d then pair_code c d :: code_points lone s''
            else lone c :: code_points lone s'
        | [] => [lone c]
        end
      else if isLow c then lone c :: code_points lone s'
      else c :: code_points lone s'
  end.

(** *** UTF-8 *)

Definition utf8_bytes (cp : Z) : list Z :=
  if cp <? 128 then [cp]
  else if cp <? 2048 then [192 + cp / 64; 128 + cp mod 64]
  else if cp <? 65536 then
    [224 + cp / 4096; 128 + (cp / 64) mod 64; 128 + cp mod 64]
  else
    [240 + cp / 262144; 128 + (cp / 4096) mod 64; 128 + (cp / 64) mod 64;
     128 + cp mod 64].

(** [new TextEncoder().encode(str)]: the string as scalar values, every
    lone surrogate replaced by U+FFFD, in UTF-8. *)
Definition TextEncoder_encode (str : jsstring) : list Z :=
  flat_map utf8_bytes (code_points (fun _ => 65533) str).

(** The state of the UTF-8 decoder of the Encoding standard: the code
    point under construction, the continuation bytes still needed, and the
    bounds the next byte must lie within. *)
Record utf8_state := {
  u_cp : Z;
  u_needed : Z;
  u_lower : Z;
  u_upper : Z
}.

Definition utf8_init : utf8_state :=
  {| u_cp := 0; u_needed := 0; u_lower := 128; u_upper := 191 |}.

(** A byte met with no sequence open: what it emits and the state after. *)
Definition utf8_lead (b : Z) : list Z * utf8_state :=
  if b <=? 127 then ([b], utf8_init)
  else if (194 <=? b) && (b <=? 223) then
    ([], {| u_cp := b - 192; u_needed := 1; u_lower := 128; u_upper := 191 |})
  else if (224 <=? b) && (b <=? 239) then
    ([], {| u_cp := b - 224; u_needed := 2;
            u_lower := if b =? 224 then 160 else 128;
            u_upper := if b =? 237 then 159 else 191 |})
  else if (240 <=? b) && (b <=? 244) then
    ([], {| u_cp := b - 240; u_needed := 3;
            u_lower := if b =? 240 then 144 else 128;
            u_upper := if b =? 244 then 143 else 191 |})
  else ([65533], utf8_init).

(** The decoder in replacement mode: a byte out of bounds ends the open
    sequence with U+FFFD and is read again as a first byte; so does the
    end of the input. *)
Fixpoint utf8_decode_from (st : utf8_state) (bytes : list Z) : list Z :=
  match bytes with
  | [] => if st.(u_needed) =? 0 then [] else [65533]
  | b :: rest =>
      if st.(u_needed) =? 0 then
        let '(out, st') := utf8_lead b in out ++ utf8_decode_from st' rest
      else if (st.(u_lower) <=? b) && (b <=? st.(u_upper)) then
        let cp := st.(u_cp) * 64 + (b - 128) in
        if st.(u_needed) =? 1 then cp :: utf8_decode_from utf8_init rest
        else utf8_decode_from {| u_cp := cp; u_needed := st.(u_needed) - 1;
                                 u_lower := 128; u_upper := 191 |} rest
      else
        let '(out, st') := utf8_lead b in
        65533 :: out ++ utf8_decode_from st' rest
  end.

(** [new TextDecoder().decode(bytes)]: UTF-8, errors replaced, a leading
    byte order mark dropped. *)
Definition TextDecoder_decode (bytes : list Z) : jsstring :=
  let cps := utf8_decode_from utf8_init bytes in
  flat_map units_of
    (match cps with
     | c :: rest => if c =? 65279 then rest else cps
     | [] => []
     end).

(** *** base64 *)

Definition b64_char (v : Z) : char16 :=
  if v <? 26 then 65 + v
  else if v <? 52 then 97 + (v - 26)
  else if v <? 62 then 48 + (v - 52)
  else if v =? 62 then 43
  else 47.

Definition b64_value (c : char16) : option Z :=
  if (65 <=? c) && (c <=? 90) then Some (c - 65)
  else if (97 <=? c) && (c <=? 122) then Some (c - 97 + 26)
  else if (48 <=? c) && (c <=? 57) then Some (c - 48 + 52)
  else if c =? 43 then Some 62
  else if c =? 47 then Some 63
  else None.

Fixpoint b64_encode (bytes : list Z) : jsstring :=
  match bytes with
  | [] => []
  | [a] =>
      [b64_char (a / 4); b64_char ((a mod 4) * 16); 61; 61]
  | [a; b] =>
      [b64_char (a / 4); b64_char ((a mod 4) * 16 + b / 16);
       b64_char ((b mod 16) * 4); 61]
  | a :: b :: c :: rest =>
      b64_char (a / 4) :: b64_char ((a mod 4) * 16 + b / 16)
      :: b64_char ((b mod 16) * 4 + c / 64) :: b64_char (c mod 64)
      :: b64_encode rest
  end.

(** [btoa(binary)]: a code unit above 255 is an InvalidCharacterError. *)
Definition btoa (binary : jsstring) : completion jsstring :=
  if forallb (fun c => c <=? 255) binary then Normal (b64_encode binary)
  else Throw InvalidCharacterError.

Definition isAsciiWhitespace (c : char16) : bool :=
  (c =? 9) || (c =? 10) || (c =? 12) || (c =? 13) || (c =? 32).

(** One or two [=] at the very end, removed. *)
Fixpoint strip_padding (s : jsstring) : jsstring :=
  match s with
  | [] => []
  | c :: s' =>
      if (c =? 61) && (is_nil s' || list_eqb s' [61]) then []
      else c :: strip_padding s'
  end.

Fixpoint b64_values (s : jsstring) : option (list Z) :=
  match s with
  | [] => Some []
  | c :: s' =>
      match b64_value c, b64_values s' with
      | Some v, Some vs => Some (v :: vs)
      | _, _ => None
      end
  end.

(** Six bits a character into bytes; twelve left-over bits give one byte,
    eighteen give two, the spare bits dropped. *)
Fixpoint b64_decode (vs : list Z) : list Z :=
  match vs with
  | v1 :: v2 :: v3 :: v4 :: rest =>
      (v1 * 4 + v2 / 16) :: ((v2 mod 16) * 16 + v3 / 4)
      :: ((v3 mod 4) * 64 + v4) :: b64_decode rest
  | [v1; v2; v3] => [v1 * 4 + v2 / 16; (v2 mod 16) * 16 + v3 / 4]
  | [v1; v2] => [v1 * 4 + v2 / 16]
  | _ => []
  end.

(** [atob(base64)], the forgiving-base64 decode of the Infra standard. *)
Definition atob (base64 : jsstring) : completion jsstring :=
  let s1 := filter (fun c => negb (isAsciiWhitespace c)) base64 in
  let s2 :=
    if Z.of_nat (length s1) mod 4 =? 0 then strip_padding s1 else s1 in
  if Z.of_nat (length s2) mod 4 =? 1 then Throw InvalidCharacterError
  else match b64_values s2 with
       | Some vs => Normal (b64_decode vs)
       | None => Throw InvalidCharacterError
       end.

(** *** Percent-encoding *)

Definition isAlnum (c : char16) : bool :=
  ((65 <=? c) && (c <=? 90)) || ((97 <=? c) && (c <=? 122))
  || ((48 <=? c) && (c <=? 57)).

(** uriUnreserved: letters, digits and [- _ . ! ~ * ' ( )]. *)
Definition isUnreserved (c : char16) : bool :=
  isAlnum c || (c =? 45) || (c =? 95) || (c =? 46) || (c =? 33)
  || (c =? 126) || (c =? 42) || (c =? 39) || (c =? 40) || (c =? 41).

Definition hex_upper (v : Z) : char16 := if v <? 10 then 48 + v else 55 + v.
Definition hex_lower (v : Z) : char16 := if v <? 10 then 48 + v else 87 + v.

Definition hex_value (c : char16) : option Z := digit_value 16 c.

Definition percent (b : Z) : jsstring :=
  [37; hex_upper (b / 16); hex_upper (b mod 16)].

(** [encodeURIComponent(str)]: a lone surrogate is a URIError. *)
Definition encodeURIComponent (str : jsstring) : completion jsstring :=
  let cps := code_points (fun _ => -1) str in
  if existsb (fun cp => cp <? 0) cps then Throw URIError
  else Normal (flat_map (fun cp => if isUnreserved cp then [cp]
                                   else flat_map percent (utf8_bytes cp)) cps).

(** The string as plain code units and escaped bytes: every [%] must be
    followed by two hexadecimal digits. *)
Inductive uri_token :=
| Plain (c : char16)
| Escaped (b : Z).

Fixpoint uri_tokens (s : jsstring) : completion (list uri_token) :=
  match s with
  | [] => Normal []
  | c :: s' =>
      if c =? 37 then
        match s' with
        | h :: l :: s'' =>
            match hex_value h, hex_value l with
            | Some a, Some b =>
                ts <- uri_tokens s'' ;; Normal (Escaped (a * 16 + b) :: ts)
            | _, _ => Throw URIError
            end
        | _ => Throw URIError
        end
      else ts <- uri_tokens s' ;; Normal (Plain c :: ts)
  end.

(** Strict UTF-8 over the escaped bytes: an escaped sequence is complete,
    well-formed and uninterrupted, or the whole decoding is a URIError. *)
Fixpoint uri_decode_from (st : utf8_state) (ts : list uri_token)
  : completion jsstring :=
  match ts with
  | [] => if st.(u_needed) =? 0 then Normal [] else Throw URIError
  | Plain c :: rest =>
      if st.(u_needed) =? 0 then
        r <- uri_decode_from utf8_init rest ;; Normal (c :: r)
      else Throw URIError
  | Escaped b :: rest =>
      if st.(u_needed) =? 0 then
        match utf8_lead b with
        | ([c], _) =>
            if c =? b then r <- uri_decode_from utf8_init rest ;; Normal (c :: r)
            else Throw URIError
        | (_, st') => uri_decode_from st' rest
        end
      else if (st.(u_lower) <=? b) && (b <=? st.(u_upper)) then
        let cp := st.(u_cp) * 64 + (b - 128) in
        if st.(u_needed) =? 1 then
          r <- uri_decode_from utf8_init rest ;; Normal (units_of cp ++ r)
        else uri_decode_from {| u_cp := cp; u_needed := st.(u_needed) - 1;
                                u_lower := 128; u_upper := 191 |} rest
      else Throw URIError
  end.

(** [decodeURIComponent(str)] *)
Definition decodeURIComponent (str : jsstring) : completion jsstring :=
  ts <- uri_tokens str ;; uri_decode_from utf8_init ts.

End Codec.

(* ================================================================== *)
(** ** JSON text *)
(* ================================================================== *)

Module JSON.
Import JSNumber JSValue Codec.

(** *** JSON.stringify *)

Definition unicode_escape (c : char16) : jsstring :=
  [92; 117; hex_lower (c / 4096); hex_lower ((c / 256) mod 16);
   hex_lower ((c / 16) mod 16); hex_lower (c mod 16)].

(** The characters between the quotes of QuoteJSONString (ECMA-262
    25.5.2.3): short escapes, [\uXXXX] for the other controls and for lone
    surrogates, everything else as it is. *)
Fixpoint quote_body (s : jsstring) : jsstring :=
  match s with
  | [] => []
  | c :: s' =>
      if c =? 8 then 92 :: 98 :: quote_body s'
      else if c =? 9 then 92 :: 116 :: quote_body s'
      else if c =? 10 then 92 :: 110 :: quote_body s'
      else if c =? 12 then 92 :: 102 :: quote_body s'
      else if c =? 13 then 92 :: 114 :: quote_body s'
      else if c =? 34 then 92 :: 34 :: quote_body s'
      else if c =? 92 then 92 :: 92 :: quote_body s'
      else if c <? 32 then unicode_escape c ++ quote_body s'
      else if isHigh c then
        match s' with
        | d :: s'' =>
            if isLow d then c :: d :: quote_body s''
            else unicode_escape c ++ quote_body s'
        | [] => unicode_escape c
        end
      else if isLow c then unicode_escape c ++ quote_body s'
      else c :: quote_body s'
  end.

Definition quote (s : jsstring) : jsstring := 34 :: quote_body s ++ [34].

Fixpoint commas (parts : list jsstring) : jsstring :=
  match parts with
  | [] => []
  | [p] => p
  | p :: rest => p ++ 44 :: commas rest
  end.

(** SerializeJSONProperty, without indentation: [None] is the [undefined]
    result. A number that is not finite is written [null]; so is an
    [undefined] array element; an [undefined] property is left out. *)
Fixpoint stringify (v : value) : option jsstring :=
  match v with
  | Undefined => None
  | Null => Some (lit "null")
  | Bool true => Some (lit "true")
  | Bool false => Some (lit "false")
  | Num x => Some (if isFinite x then JSNumber.toString x else lit "null")
  | Str s => Some (quote s)
  | Arr elems =>
      Some (91 :: commas (map (fun e => match stringify e with
                                        | Some t => t
                                        | None => lit "null"
                                        end) elems) ++ [93])
  | Obj props =>
      Some (123 :: commas (flat_map (fun kv => match stringify (snd kv) with
                                               | Some t => [quote (fst kv) ++ 58 :: t]
                                               | None => []
                                               end) props) ++ [125])
  end.

(** *** JSON.parse *)

Definition isJsonWs (c : char16) : bool :=
  (c =? 32) || (c =? 9) || (c =? 10) || (c =? 13).

Fixpoint skip_ws (s : jsstring) : jsstring :=
  match s with
  | c :: s' => if isJsonWs c then skip_ws s' else s
  | [] => []
  end.

Definition hex4 (h1 h2 h3 h4 : char16) : option char16 :=
  match hex_value h1, hex_value h2, hex_value h3, hex_value h4 with
  | Some a, Some b, Some c, Some d => Some (((a * 16 + b) * 16 + c) * 16 + d)
  | _, _, _, _ => None
  end.

Definition simple_escape (e : char16) : option char16 :=
  if e =? 34 then Some 34
  else if e =? 92 then Some 92
  else if e =? 47 then Some 47
  else if e =? 98 then Some 8
  else if e =? 102 then Some 12
  else if e =? 110 then Some 10
  else if e =? 114 then Some 13
  else if e =? 116 then Some 9
  else None.

(** After the opening quote: the string and what follows its closing
    quote. A raw control character is not allowed. *)
Fixpoint parse_string_body (s : jsstring) : option (jsstring * jsstring) :=
  match s with
  | [] => None
  | c :: s' =>
      if c =? 34 then Some ([], s')
      else if c =? 92 then
        match s' with
        | e :: s'' =>
            if e =? 117 then
              match s'' with
              | h1 :: h2 :: h3 :: h4 :: s3 =>
                  match hex4 h1 h2 h3 h4, parse_string_body s3 with
                  | Some u, Some (str, rest) => Some (u :: str, rest)
                  | _, _ => None
                  end
              | _ => None
              end
            else
              match simple_escape e, parse_string_body s'' with
              | Some u, Some (str, rest) => Some (u :: str, rest)
              | _, _ => None
              end
        | [] => None
        end
      else if c <? 32 then None
      else
        match parse_string_body s' with
        | Some (str, rest) => Some (c :: str, rest)
        | None => None
        end
  end.

(** A JSON number: [-]? then [0] or a digit run without leading zero, then
    an optional fraction and an optional exponent. *)
Definition parse_number (s : jsstring) : option (number * jsstring) :=
  let '(neg, s1) :=
    match eat 45 s with Some t => (true, t) | None => (false, s) end in
  let int_part :=
    match s1 with
    | d :: s2 =>
        if d =? 48 then Some (0, s2)
        else if isDigit d then
          let '(i, _, rest) := take_digits s1 0 0 in Some (i, rest)
        else None
    | [] => None
    end in
  match int_part with
  | None => None
  | Some (i, s3) =>
      let frac_part :=
        match eat 46 s3 with
        | Some s4 =>
            let '(f, cf, s5) := take_digits s4 i 0 in
            if 0 <? cf then Some (f, cf, s5) else None
        | None => Some (i, 0, s3)
        end in
      match frac_part with
      | None => None
      | Some (f, cf, s5) =>
          match take_exponent s5 with
          | Some (e, rest) => Some (round_decimal neg f (e - cf), rest)
          | None => None
          end
      end
  end.

Fixpoint drop_prefix (p s : jsstring) : option jsstring :=
  match p, s with
  | [], _ => Some s
  | a :: p', b :: s' => if a =? b then drop_prefix p' s' else None
  | _ :: _, [] => None
  end.

(** CreateDataProperty on the object being built: a repeated key keeps its
    place and takes the later value. *)
Fixpoint set_prop (props : list (jsstring * value)) (key : jsstring) (v : value)
  : list (jsstring * value) :=
  match props with
  | [] => [(key, v)]
  | (k, old) :: rest =>
      if list_eqb k key then (k, v) :: rest
      else (k, old) :: set_prop rest key v
  end.

(** Recursive descent; every call spends one unit of [fuel]. The keys are
    kept in the order written: the program never enumerates the properties
    of a parsed object. *)
Fixpoint parse_value (fuel : nat) (s : jsstring) : option (value * jsstring) :=
  match fuel with
  | O => None
  | S f =>
      match skip_ws s with
      | [] => None
      | c :: s1 =>
          if c =? 123 then
            match eat 125 (skip_ws s1) with
            | Some s2 => Some (Obj [], s2)
            | None => parse_members f s1 []
            end
          else if c =? 91 then
            match eat 93 (skip_ws s1) with
            | Some s2 => Some (Arr [], s2)
            | None => parse_elements f s1 []
            end
          else if c =? 34 then
            match parse_string_body s1 with
            | Some (str, rest) => Some (Str str, rest)
            | None => None
            end
          else if c =? 116 then
            match drop_prefix (lit "rue") s1 with
            | Some rest => Some (Bool true, rest)
            | None => None
            end
          else if c =? 102 then
            match drop_prefix (lit "alse") s1 with
            | Some rest => Some (Bool false, rest)
            | None => None
            end
          else if c =? 110 then
            match drop_prefix (lit "ull") s1 with
            | Some rest => Some (Null, rest)
            | None => None
            end
          else
            match parse_number (c :: s1) with
            | Some (x, rest) => Some (Num x, rest)
            | None => None
            end
      end
  end
with parse_elements (fuel : nat) (s : jsstring) (acc : list value)
  : option (value * jsstring) :=
  match fuel with
  | O => None
  | S f =>
      match parse_value f s with
      | Some (v, s1) =>
          match skip_ws s1 with
          | c :: s2 =>
              if c =? 44 then parse_elements f s2 (acc ++ [v])
              else if c =? 93 then Some (Arr (acc ++ [v]), s2)
              else None
          | [] => None
          end
      | None => None
      end
  end
with parse_members (fuel : nat) (s : jsstring) (acc : list (jsstring * value))
  : option (value * jsstring) :=
  match fuel with
  | O => None
  | S f =>
      match eat 34 (skip_ws s) with
      | Some s1 =>
          match parse_string_body s1 with
          | Some (key, s2) =>
              match eat 58 (skip_ws s2) with
              | Some s3 =>
                  match parse_value f s3 with
                  | Some (v, s4) =>
                      match skip_ws s4 with
                      | c :: s5 =>
                          if c =? 44 then parse_members f s5 (set_prop acc key v)
                          else if c =? 125 then Some (Obj (set_prop acc key v), s5)
                          else None
                      | [] => None
                      end
                  | None => None
                  end
              | None => None
              end
          | None => None
          end
      | None => None
      end
  end.

(** [JSON.parse(text)]: one value, white space around it, nothing else. The
    fuel covers two calls for each character. *)
Definition parse (text : jsstring) : completion value :=
  match parse_value (2 * length text + 2) text with
  | Some (v, rest) =>
      if is_nil (skip_ws rest) then Normal v else Throw SyntaxError
  | None => Throw SyntaxError
  end.

End JSON.

(* ================================================================== *)
(** ** Data model (types.ts) *)
(* ================================================================== *)

Import JSNumber JSValue.
Local Open Scope js_scope.

Record ReceiptItem := {
  id : jsstring;
  quantity : number;
  description : jsstring;
  price : number
}.

Record ReceiptData := {
  restaurantName : jsstring;
  date : jsstring;
  items : list ReceiptItem;
  subtotal : number;
  tax : number;
  tip : number;
  total : number;
  currency : jsstring
}.

Record UserSelection := {
  itemId : jsstring;
  splitCount : number;
  isSelected : bool
}.

Inductive AppState :=
| HOME | CAMERA | PROCESSING | CONFIRM_INFO | SELECT_ITEMS | SUMMARY.

(* ================================================================== *)
(** ** The integrity validator (App.tsx, lines 50-88) *)
(* ================================================================== *)

(** [sanitizeString] as the validator calls it, on a value of any type:
    only a string has a [replace] method; calling the missing method of any
    other value is a TypeError. *)
Definition sanitizeString_call (v : value) : completion jsstring :=
  match v with
  | Str s => Normal (sanitizeString s)
  | _ => Throw TypeError
  end.

(** [`shared-${idx}`]: [idx] is the array index handed to the [map]
    callback, a non-negative integer whose string form is its decimal
    digits. *)
Definition shared_id (idx : nat) : jsstring :=
  lit "shared-" ++ decimal (Z.of_nat idx).

(** The body of the [map] callback (lines 71-76). *)
Definition sanitize_item (item : value) (idx : nat) : completion ReceiptItem :=
  item_id <- get item (lit "id") ;;
  id' <- sanitizeString_call (or item_id (Str (shared_id idx))) ;;
  item_quantity <- get item (lit "quantity") ;;
  q <- ToNumber item_quantity ;;
  item_description <- get item (lit "description") ;;
  description' <- sanitizeString_call
                    (or item_description (Str (lit "Unknown Item"))) ;;
  item_price <- get item (lit "price") ;;
  p <- ToNumber item_price ;;
  Normal {| id := id';
            quantity := Math_max [zero; or_num q (of_Z 1)];
            description := description';
            price := Math_max [zero; or_num p zero] |}.

(** [Array.prototype.map] with the index, left to right. *)
Fixpoint map_items (elems : list value) (idx : nat)
  : completion (list ReceiptItem) :=
  match elems with
  | [] => Normal []
  | item :: rest =>
      i <- sanitize_item item idx ;;
      r <- map_items rest (S idx) ;;
      Normal (i :: r)
  end.

(** [sanitized.items.reduce((acc, item) => acc + item.price, 0)] *)
Definition itemsSum (its : list ReceiptItem) : number :=
  fold_left (fun acc item => add acc item.(price)) its zero.

(** The statements inside [try] (lines 56-84). [Normal None] is
    [return null]. *)
Definition validate_body (data : value) : completion (option ReceiptData) :=
  if negb (truthy data) || negb (is_object data) then Normal None else
  data_restaurantName <- get data (lit "restaurantName") ;;
  if negb (is_string data_restaurantName) then Normal None else
  data_items <- get data (lit "items") ;;
  if negb (isArray data_items) then Normal None else
  restaurantName' <- sanitizeString_call data_restaurantName ;;
  data_date <- get data (lit "date") ;;
  date' <- sanitizeString_call (or data_date (Str [])) ;;
  data_currency <- get data (lit "currency") ;;
  currency' <- sanitizeString_call (or data_currency (Str (lit "$"))) ;;
  data_subtotal <- get data (lit "subtotal") ;;
  subtotal' <- ToNumber data_subtotal ;;
  data_tax <- get data (lit "tax") ;;
  tax' <- ToNumber data_tax ;;
  data_tip <- get data (lit "tip") ;;
  tip' <- ToNumber data_tip ;;
  data_total <- get data (lit "total") ;;
  total' <- ToNumber data_total ;;
  items' <- match data_items with
            | Arr elems => map_items elems 0
            | _ => Throw TypeError
            end ;;
  let sanitized :=
    {| restaurantName := restaurantName';
       date := date';
       currency := currency';
       subtotal := or_num subtotal' zero;
       tax := or_num tax' zero;
       tip := or_num tip' zero;
       total := or_num total' zero;
       items := items' |} in
  (* 3. Mathematical Integrity Check: computed, never compared *)
  let itemsSum := itemsSum sanitized.(items) in
  Normal (Some sanitized).

(** [validateReceiptIntegrity]: [None] is the [null] result. *)
Definition validateReceiptIntegrity (data : value) : option ReceiptData :=
  try_catch (validate_body data) (fun e => None).

(* ================================================================== *)
(** ** The allocation engine (App.tsx, lines 181-202) *)
(* ================================================================== *)

Module Share.
Record t := {
  subtotal : number;
  tax : number;
  tip : number;
  total : number;
  ratio : number
}.
End Share.

(** [userSelections : Record<string, UserSelection>]: the own properties in
    enumeration order, each key once. *)
Definition Selections := list (jsstring * UserSelection).

Definition Object_values (o : Selections) : list UserSelection := map snd o.

(** [receipt.items.find(i => i.id === sel.itemId)] *)
Definition find_item (its : list ReceiptItem) (key : jsstring)
  : option ReceiptItem :=
  find (fun i => list_eqb i.(id) key) its.

Definition calculations (receipt : option ReceiptData)
  (userSelections : Selections) : Share.t :=
  match receipt with
  | None =>
      {| Share.subtotal := zero; Share.tax := zero; Share.tip := zero;
         Share.total := zero; Share.ratio := zero |}
  | Some receipt =>
      let selections := Object_values userSelections in
      let userSubtotal :=
        fold_left
          (fun acc sel =>
             match find_item receipt.(items) sel.(itemId) with
             | Some item => add acc (div item.(price) sel.(splitCount))
             | None => acc
             end)
          (filter (fun s => s.(isSelected)) selections) zero in
      let receiptSubtotal :=
        or_num receipt.(subtotal)
          (fold_left (fun acc item => add acc item.(price))
                     receipt.(items) zero) in
      let userRatio :=
        if gt receiptSubtotal zero then div userSubtotal receiptSubtotal
        else zero in
      {| Share.subtotal := userSubtotal;
         Share.tax := mul (or_num receipt.(tax) zero) userRatio;
         Share.tip := mul (or_num receipt.(tip) zero) userRatio;
         Share.total :=
           add (add userSubtotal (mul (or_num receipt.(tax) zero) userRatio))
               (mul (or_num receipt.(tip) zero) userRatio);
         Share.ratio := userRatio |}
  end.

(* ================================================================== *)
(** ** The share link (App.tsx, lines 22-48, 99-128, 204-234) *)
(* ================================================================== *)

Import Codec.

(** [safeBtoa]: the UTF-8 bytes of the string, each as one code unit, in
    base64; the empty string when anything throws. *)
Definition safeBtoa (str : jsstring) : jsstring :=
  try_catch
    (let bytes := TextEncoder_encode str in
     let binary := bytes in         (* String.fromCharCode(bytes[i]) *)
     btoa binary)
    (fun e => []).

(** [safeAtob]: the inverse; the empty string when [atob] throws. *)
Definition safeAtob (base64 : jsstring) : jsstring :=
  try_catch
    (binary <- atob base64 ;;
     let bytes := binary in         (* bytes[i] = binary.charCodeAt(i) *)
     Normal (TextDecoder_decode bytes))
    (fun e => []).

(** The object literal of lines 207-221. *)
Definition minifiedReceipt (receipt : ReceiptData) : value :=
  Obj [ (lit "restaurantName", Str receipt.(restaurantName));
        (lit "date", Str receipt.(date));
        (lit "currency", Str receipt.(currency));
        (lit "subtotal", Num receipt.(subtotal));
        (lit "tax", Num receipt.(tax));
        (lit "tip", Num receipt.(tip));
        (lit "total", Num receipt.(total));
        (lit "items",
         Arr (map (fun i => Obj [ (lit "id", Str i.(id));
                                  (lit "quantity", Num i.(quantity));
                                  (lit "description", Str i.(description));
                                  (lit "price", Num i.(price)) ])
                  receipt.(items))) ].

(** [JSON.stringify] of a value that is not [undefined]. *)
Definition JSON_stringify (v : value) : jsstring :=
  match JSON.stringify v with
  | Some t => t
  | None => lit "undefined"
  end.

(** [encodeURIComponent(safeBtoa(JSON.stringify(minifiedReceipt)))] *)
Definition share_token (receipt : ReceiptData) : completion jsstring :=
  encodeURIComponent (safeBtoa (JSON_stringify (minifiedReceipt receipt))).

(** [generateShareLink]: the URL handed to the clipboard (or the prompt),
    [base] being [window.location.href.split('#')[0]]; [None] when there is
    no receipt or when the [catch] branch alerts. *)
Definition generateShareLink (receipt : option ReceiptData) (base : jsstring)
  : option jsstring :=
  match receipt with
  | None => None
  | Some receipt =>
      try_catch
        (encoded <- share_token receipt ;;
         Normal (Some (base ++ 35 :: encoded)))
        (fun e => None)
  end.

(** The React state of [App]. *)
Record AppModel := {
  appState : AppState;
  receipt : option ReceiptData;
  userSelections : Selections;
  error : option jsstring
}.

Definition initial : AppModel :=
  {| appState := HOME; receipt := None; userSelections := []; error := None |}.

Definition link_error : jsstring :=
  lit "The shared link is invalid or has been tampered with.".

(** The state after a link was decoded and validated (lines 110-112). *)
Definition link_loaded (st : AppModel) (validated : ReceiptData) : AppModel :=
  {| appState := CONFIRM_INFO; receipt := Some validated;
     userSelections := st.(userSelections); error := None |}.

(** The state after the [catch] branch (lines 118-120). *)
Definition link_invalid (st : AppModel) : AppModel :=
  {| appState := HOME; receipt := st.(receipt);
     userSelections := st.(userSelections); error := Some link_error |}.

(** [handleHashChange], with [location_hash] the value of
    [window.location.hash]: empty, or [#] and the fragment. *)
Definition handleHashChange (st : AppModel) (location_hash : jsstring)
  : AppModel :=
  let hash := skipn 1 location_hash in
  if negb (is_nil hash) && (10 <? Z.of_nat (length hash)) then
    try_catch
      (decoded <- decodeURIComponent hash ;;
       let jsonStr := safeAtob decoded in
       if negb (is_nil jsonStr) then
         rawData <- JSON.parse jsonStr ;;
         match validateReceiptIntegrity rawData with
         | Some validated => Normal (link_loaded st validated)
         | None => Throw (Error (lit "Invalid receipt data"))
         end
       else Normal st)
      (fun e => link_invalid st)
  else st.

(** Decoding a token: what the recipient's application holds after opening
    the link in a fresh page. *)
Definition decode (token : jsstring) : AppModel :=
  handleHashChange initial (35 :: token).

(** The text the decoder reads out of a fragment, when it gets that far. *)
Definition link_text (hash : jsstring) : completion jsstring :=
  decoded <- decodeURIComponent hash ;; Normal (safeAtob decoded).

(* ================================================================== *)
(** ** What the validator accepts, and what it returns then *)
(* ================================================================== *)

(** [v.key], [undefined] included; only used where the read cannot throw. *)
Definition field (v : value) (key : jsstring) : value :=
  match get v key with
  | Normal x => x
  | Throw _ => Undefined
  end.

Definition nullish (v : value) : bool :=
  match v with Undefined | Null => true | _ => false end.

(** A string, or a falsy value that [||] replaces by the default. *)
Definition string_or_falsy (v : value) : bool :=
  match v with
  | Str _ => true
  | _ => negb (truthy v)
  end.

(** [Number(v)] returns (it throws only on an object that hides
    [toString], alone or inside arrays). *)
Definition coercible (v : value) : bool :=
  match ToNumber v with
  | Normal _ => true
  | Throw _ => false
  end.

Definition number_of (v : value) : number :=
  match ToNumber v with
  | Normal x => x
  | Throw _ => NaN
  end.

(** The string [v || default] when it is one. *)
Definition string_or (v : value) (default : jsstring) : jsstring :=
  match or v (Str default) with
  | Str s => s
  | _ => default
  end.

Definition elements (v : value) : list value :=
  match v with Arr l => l | _ => [] end.

(** The three structural checks of lines 56-60. *)
Definition top_level_ok (data : value) : bool :=
  truthy data && is_object data
  && is_string (field data (lit "restaurantName"))
  && isArray (field data (lit "items")).

(** An item the [map] callback can repair without throwing. *)
Definition repairable_item (item : value) : bool :=
  negb (nullish item)
  && string_or_falsy (field item (lit "id"))
  && coercible (field item (lit "quantity"))
  && string_or_falsy (field item (lit "description"))
  && coercible (field item (lit "price")).

Definition acceptable (data : value) : bool :=
  top_level_ok data
  && string_or_falsy (field data (lit "date"))
  && string_or_falsy (field data (lit "currency"))
  && coercible (field data (lit "subtotal"))
  && coercible (field data (lit "tax"))
  && coercible (field data (lit "tip"))
  && coercible (field data (lit "total"))
  && forallb repairable_item (elements (field data (lit "items"))).

(** The repaired item: the id or ["shared-<index>"], the description or
    ["Unknown Item"], both sanitized; the quantity, or 1 when it is NaN or
    zero, and the price, or 0 when it is NaN, both raised to at least 0. *)
Definition repaired_item (item : value) (idx : nat) : ReceiptItem :=
  {| id := sanitizeString (string_or (field item (lit "id")) (shared_id idx));
     quantity :=
       Math_max [zero; or_num (number_of (field item (lit "quantity"))) (of_Z 1)];
     description :=
       sanitizeString
         (string_or (field item (lit "description")) (lit "Unknown Item"));
     price :=
       Math_max [zero; or_num (number_of (field item (lit "price"))) zero] |}.

Fixpoint repaired_items (elems : list value) (idx : nat) : list ReceiptItem :=
  match elems with
  | [] => []
  | item :: rest => repaired_item item idx :: repaired_items rest (S idx)
  end.

Definition repaired (data : value) : ReceiptData :=
  {| restaurantName :=
       sanitizeString (string_or (field data (lit "restaurantName")) []);
     date := sanitizeString (string_or (field data (lit "date")) []);
     currency := sanitizeString (string_or (field data (lit "currency")) (lit "$"));
     subtotal := or_num (number_of (field data (lit "subtotal"))) zero;
     tax := or_num (number_of (field data (lit "tax"))) zero;
     tip := or_num (number_of (field data (lit "tip"))) zero;
     total := or_num (number_of (field data (lit "total"))) zero;
     items := repaired_items (elements (field data (lit "items"))) 0 |}.

(** A number that [||] keeps: neither NaN nor a zero other than the [+0]
    default. *)
Definition settled (x : number) : bool :=
  match x with
  | S754_nan | S754_zero true => false
  | _ => true
  end.



(* ================================================================== *)
(** ** The allocation, as the specification words it *)
(* ================================================================== *)

(** A sum of numbers, added left to right from 0. *)
Definition sum (l : list number) : number := fold_left add l zero.

(** The terms of [claimedSubtotal]: for each selection with
    [isSelected = true], in order, [item.price / selection.splitCount] for
    the item found under [selection.itemId]; a selection whose item is
    missing has no term. *)
Definition claimed_terms (r : ReceiptData) (sels : Selections) : list number :=
  flat_map
    (fun sel =>
       if sel.(isSelected) then
         match find_item r.(items) sel.(itemId) with
         | Some item => [div item.(price) sel.(splitCount)]
         | None => []
         end
       else [])
    (Object_values sels).

Definition spec_claimedSubtotal (r : ReceiptData) (sels : Selections) : number :=
  sum (claimed_terms r sels).

(** [Receipt.subtotal] if it is a positive number, otherwise the sum of all
    item prices. *)
Definition spec_receiptSubtotal (r : ReceiptData) : number :=
  if gt r.(subtotal) zero then r.(subtotal) else sum (map price r.(items)).

Definition spec_ratio (r : ReceiptData) (sels : Selections) : number :=
  if gt (spec_receiptSubtotal r) zero
  then div (spec_claimedSubtotal r sels) (spec_receiptSubtotal r)
  else zero.

Definition spec_allocate (r : ReceiptData) (sels : Selections) : Share.t :=
  let claimed := spec_claimedSubtotal r sels in
  let ratio := spec_ratio r sels in
  let tax' := mul r.(tax) ratio in
  let tip' := mul r.(tip) ratio in
  {| Share.subtotal := claimed;
     Share.tax := tax';
     Share.tip := tip';
     Share.total := add (add claimed tax') tip';
     Share.ratio := ratio |}.

(** A receipt the validator has returned. *)
Definition validated (r : ReceiptData) : Prop :=
  exists data, validateReceiptIntegrity data = Some r.

(** No item of the receipt has this id. *)
Definition stale (r : ReceiptData) (sel : UserSelection) : Prop :=
  forall item, In item r.(items) -> list_eqb item.(id) sel.(itemId) = false.

(* ================================================================== *)
(** ** Receipts that survive the link *)
(* ================================================================== *)

Definition is_unit (c : char16) : bool := (0 <=? c) && (c <? 65536).

(** A string the engine can hold: UTF-16 code units. *)
Definition wf_string (s : jsstring) : bool := forallb is_unit s.

Definition wf_item (i : ReceiptItem) : bool :=
  wf_string i.(id) && JSNumber.wf i.(quantity)
  && wf_string i.(description) && JSNumber.wf i.(price).

(** A receipt the engine can hold: strings of code units, binary64
    numbers. *)
Definition wf_receipt (r : ReceiptData) : bool :=
  wf_string r.(restaurantName) && wf_string r.(date) && wf_string r.(currency)
  && JSNumber.wf r.(subtotal) && JSNumber.wf r.(tax) && JSNumber.wf r.(tip)
  && JSNumber.wf r.(total) && forallb wf_item r.(items).

(** The string does not end in white space. *)
Definition plain (s : jsstring) : bool := negb (endsWithWhiteSpace s).

Definition link_safe_item (i : ReceiptItem) : bool :=
  plain i.(id) && negb (is_nil i.(id))
  && plain i.(description) && negb (is_nil i.(description))
  && isFinite i.(quantity) && JSNumber.truthy i.(quantity)
  && isFinite i.(price).

(** What the link preserves: finite numbers, no zero quantity, strings that
    do not end in white space, and a currency, ids and descriptions that
    are not empty. *)
Definition link_safe (r : ReceiptData) : bool :=
  plain r.(restaurantName) && plain r.(date)
  && plain r.(currency) && negb (is_nil r.(currency))
  && isFinite r.(subtotal) && isFinite r.(tax) && isFinite r.(tip)
  && isFinite r.(total)
  && forallb link_safe_item r.(items).
(* ================================================================== *)
(** ** Properties of the sanitizer *)
(* ================================================================== *)

Section SanitizerFacts.

(** The tag pattern matches at every [<], consuming at least the [<]: the
    star and the option after it never fail. *)
Lemma tag_re_matches_lt (s : jsstring) :
  exists t, match_here tag_re (60 :: s) = Some t /\ (length t <= length s)%nat.
Proof.
  unfold tag_re. cbn [match_here accepts]. rewrite Z.eqb_refl.
  induction s as [|c s IH].
  - eexists; split; [reflexivity | cbn; lia].
  - destruct IH as [t [IH Hlen]].
    destruct (negb (c =? 62)) eqn:Hc.
    + rewrite IH. eexists; split; [reflexivity | cbn; lia].
    + destruct (c =? 62); eexists; (split; [reflexivity | cbn; lia]).
Qed.

(** ... and nowhere else. *)
Lemma tag_re_fails_other (c : char16) (s : jsstring) :
  c <> 60 -> match_here tag_re (c :: s) = None.
Proof.
  intros Hc. unfold tag_re. cbn [match_here accepts].
  apply Z.eqb_neq in Hc. now rewrite Hc.
Qed.

Lemma replace_from_tag_no_lt (s : jsstring) :
  forall skip, ~ In 60 (replace_from tag_re [] skip s).
Proof.
  induction s as [|c s IH]; intros skip.
  - cbn. destruct skip; auto.
  - cbn [replace_from]. destruct skip as [|k]; [|apply IH].
    destruct (Z.eq_dec c 60) as [->|Hc].
    + destruct (tag_re_matches_lt s) as [t [-> Hlen]].
      destruct (length _ - length t)%nat eqn:Hd.
      * cbn [length] in Hd. lia.
      * cbn [app]. apply IH.
    + rewrite (tag_re_fails_other c s Hc).
      intros [H|H]; [congruence | now apply (IH 0%nat)].
Qed.

Lemma replace_tag_no_lt (s : jsstring) : ~ In 60 (replace tag_re [] s).
Proof. apply replace_from_tag_no_lt. Qed.

(** A string without [<] has no tag to strip. *)
Lemma replace_tag_id (s : jsstring) :
  ~ In 60 s -> replace tag_re [] s = s.
Proof.
  unfold replace. induction s as [|c s IH]; intros Hs.
  - reflexivity.
  - cbn [replace_from]. rewrite tag_re_fails_other.
    + f_equal. apply IH. intros H. apply Hs. now right.
    + intros ->. apply Hs. now left.
Qed.

Lemma trimStart_incl (s : jsstring) (c : char16) :
  In c (trimStart s) -> In c s.
Proof.
  induction s as [|d s IH]; cbn; auto.
  destruct (isWhiteSpace d); cbn; auto.
Qed.

Lemma trim_incl (s : jsstring) (c : char16) : In c (trim s) -> In c s.
Proof.
  unfold trim, trimEnd. intros H.
  apply in_rev in H. apply trimStart_incl in H. apply in_rev in H.
  now apply trimStart_incl.
Qed.

Lemma trimStart_starts (s : jsstring) :
  startsWithWhiteSpace (trimStart s) = false.
Proof.
  induction s as [|c s IH]; cbn [trimStart]; [reflexivity|].
  destruct (isWhiteSpace c) eqn:Hc; [exact IH | exact Hc].
Qed.

Lemma trimStart_id (s : jsstring) :
  startsWithWhiteSpace s = false -> trimStart s = s.
Proof.
  destruct s as [|c s]; cbn; [reflexivity|]. intros H. now rewrite H.
Qed.

Lemma trimEnd_id (s : jsstring) :
  endsWithWhiteSpace s = false -> trimEnd s = s.
Proof.
  unfold endsWithWhiteSpace, trimEnd. intros H.
  rewrite trimStart_id; [apply rev_involutive|].
  destruct (rev s); auto.
Qed.

(** Dropping trailing white space leaves the first code unit in place
    unless everything is dropped. *)
Lemma trimEnd_starts (s : jsstring) :
  startsWithWhiteSpace s = false -> startsWithWhiteSpace (trimEnd s) = false.
Proof.
  unfold trimEnd. destruct s as [|c s]; [reflexivity|].
  cbn [startsWithWhiteSpace]. intros Hc.
  cbn [rev]. generalize (rev s) as u. intros u.
  induction u as [|d u IH].
  - cbn. rewrite Hc. cbn. exact Hc.
  - cbn [app trimStart]. destruct (isWhiteSpace d) eqn:Hd; [exact IH|].
    cbn [rev]. rewrite rev_app_distr. cbn. exact Hc.
Qed.

Lemma trim_starts (s : jsstring) : startsWithWhiteSpace (trim s) = false.
Proof. apply trimEnd_starts, trimStart_starts. Qed.

Lemma trimEnd_ends (s : jsstring) : endsWithWhiteSpace (trimEnd s) = false.
Proof.
  unfold endsWithWhiteSpace, trimEnd. rewrite rev_involutive.
  pose proof (trimStart_starts (rev s)) as H.
  destruct (trimStart (rev s)); auto.
Qed.

Lemma trim_ends (s : jsstring) : endsWithWhiteSpace (trim s) = false.
Proof. apply trimEnd_ends. Qed.

Lemma substring_0 (s : jsstring) (n : Z) :
  0 <= n -> substring s 0 n = firstn (Z.to_nat n) s.
Proof.
  intros Hn. unfold substring. cbn zeta.
  rewrite (Z.max_l 0 0) by lia. rewrite (Z.max_l n 0) by lia.
  rewrite (Z.min_l 0 (Z.of_nat (length s))) by lia.
  rewrite (Z.min_l 0) by lia. rewrite (Z.max_r 0) by lia.
  rewrite Z.sub_0_r. cbn [Z.to_nat skipn].
  destruct (Z.le_ge_cases n (Z.of_nat (length s))) as [H|H].
  - now rewrite Z.min_l.
  - rewrite Z.min_r by lia. rewrite Nat2Z.id.
    rewrite firstn_all. symmetry. apply firstn_all2. lia.
Qed.

Lemma sanitizeString_eq (s : jsstring) :
  sanitizeString s = firstn 255 (trim (replace tag_re [] s)).
Proof. unfold sanitizeString. now rewrite substring_0. Qed.

Lemma firstn_starts (n : nat) (s : jsstring) :
  startsWithWhiteSpace s = false -> startsWithWhiteSpace (firstn n s) = false.
Proof. destruct n, s; cbn; auto. Qed.

Lemma sanitizeString_length (s : jsstring) :
  (length (sanitizeString s) <= 255)%nat.
Proof. rewrite sanitizeString_eq. apply firstn_le_length. Qed.

Lemma sanitizeString_no_lt (s : jsstring) : ~ In 60 (sanitizeString s).
Proof.
  rewrite sanitizeString_eq. intros H.
  apply (In_nth _ _ 0) in H. destruct H as [n [Hn H]].
  apply (replace_tag_no_lt s). apply trim_incl.
  rewrite <- H. 
  assert (Hin : In (nth n (firstn 255 (trim (replace tag_re [] s))) 0)
                   (firstn 255 (trim (replace tag_re [] s)))) by (apply nth_In; exact Hn).
  revert Hin. generalize (nth n (firstn 255 (trim (replace tag_re [] s))) 0).
  intros c Hc. rewrite <- (firstn_skipn 255). apply in_or_app. now left.
Qed.

Lemma sanitizeString_starts (s : jsstring) :
  startsWithWhiteSpace (sanitizeString s) = false.
Proof. rewrite sanitizeString_eq. apply firstn_starts, trim_starts. Qed.

(** A string that the three steps leave alone. *)
Definition sanitized (s : jsstring) : Prop :=
  ~ In 60 s /\ startsWithWhiteSpace s = false /\ endsWithWhiteSpace s = false
  /\ (length s <= 255)%nat.

Lemma sanitizeString_fixed (s : jsstring) :
  sanitized s -> sanitizeString s = s.
Proof.
  intros (Hlt & Hs & He & Hlen). rewrite sanitizeString_eq.
  rewrite replace_tag_id by exact Hlt. unfold trim.
  rewrite (trimStart_id s Hs), (trimEnd_id s He).
  apply firstn_all2. exact Hlen.
Qed.

(** Sanitizing twice only trims the first result once more. *)
Lemma sanitizeString_twice (s : jsstring) :
  sanitizeString (sanitizeString s) = trimEnd (sanitizeString s).
Proof.
  rewrite (sanitizeString_eq (sanitizeString s)).
  rewrite replace_tag_id by apply sanitizeString_no_lt.
  unfold trim. rewrite (trimStart_id _ (sanitizeString_starts s)).
  apply firstn_all2.
  transitivity (length (sanitizeString s)); [|apply sanitizeString_length].
  unfold trimEnd. rewrite length_rev.
  rewrite <- (length_rev (sanitizeString s)).
  generalize (rev (sanitizeString s)) as u. intros u.
  induction u as [|c u IH]; cbn; auto.
  destruct (isWhiteSpace c); cbn; lia.
Qed.

Lemma sanitizeString_stable (s : jsstring) :
  endsWithWhiteSpace (sanitizeString s) = false ->
  sanitizeString (sanitizeString s) = sanitizeString s.
Proof. intros H. rewrite sanitizeString_twice. now apply trimEnd_id. Qed.

End SanitizerFacts.

(** C9. The sanitized string has at most 255 UTF-16 code units
    ([sanitizeString(s).length <= 255]). *)
Theorem sanitizeString_length_bound (s : jsstring) :
  Z.of_nat (length (sanitizeString s)) <= 255.
Proof. pose proof (sanitizeString_length s). lia. Qed.

(** C4 (as amended). Whenever the sanitized string does not end in white
    space, sanitizing it again changes nothing. Truncation to 255 code units
    happens after trimming, so it can leave trailing white space behind. *)
Theorem sanitizeString_idempotent_unless_cut_at_space (s : jsstring) :
  endsWithWhiteSpace (sanitizeString s) = false ->
  sanitizeString (sanitizeString s) = sanitizeString s.
Proof. apply sanitizeString_stable. Qed.

Lemma sanitizeString_idempotent_witness :
  endsWithWhiteSpace (sanitizeString (lit "  <b>Cafe</b> Rocq ")) = false /\
  sanitizeString (sanitizeString (lit "  <b>Cafe</b> Rocq "))
  = sanitizeString (lit "  <b>Cafe</b> Rocq ").
Proof.
  split; [reflexivity|].
  apply (sanitizeString_idempotent_unless_cut_at_space
           (lit "  <b>Cafe</b> Rocq ")).
  reflexivity.
Defined.

(** Idempotence needs exactly that. *)
Lemma sanitizeString_idempotent_iff (s : jsstring) :
  sanitizeString (sanitizeString s) = sanitizeString s
  <-> endsWithWhiteSpace (sanitizeString s) = false.
Proof.
  split; [|apply sanitizeString_stable].
  intros H. rewrite <- H, sanitizeString_twice. apply trimEnd_ends.
Qed.

(** The tag-stripped, trimmed text is short enough: no truncation, so the
    result is a fixed point. *)
Lemma sanitizeString_idempotent_short (s : jsstring) :
  (length (trim (replace tag_re [] s)) <= 255)%nat ->
  sanitizeString (sanitizeString s) = sanitizeString s.
Proof.
  intros H. apply sanitizeString_stable.
  rewrite sanitizeString_eq, firstn_all2 by exact H. apply trim_ends.
Qed.

(** 254 letters [a], a space and a letter [b]. *)
Definition cut_at_space : jsstring := repeat 97 254 ++ [32; 98].

(** C4, counterexample: 254 letters, a space and one more letter. The first
    pass cuts after the space; the second pass trims it. *)
Lemma sanitizeString_not_idempotent :
  sanitizeString cut_at_space = repeat 97 254 ++ [32] /\
  sanitizeString (sanitizeString cut_at_space) = repeat 97 254 /\
  Z.of_nat (length (sanitizeString cut_at_space)) = 255 /\
  Z.of_nat (length (sanitizeString (sanitizeString cut_at_space))) = 254 /\
  sanitizeString (sanitizeString cut_at_space) <> sanitizeString cut_at_space.
Proof.
  repeat split; try (vm_compute; reflexivity).
  intros H. apply (f_equal (@length Z)) in H. vm_compute in H. discriminate.
Qed.

(* ================================================================== *)
(** ** The validator, characterised *)
(* ================================================================== *)

Section ValidatorFacts.

Lemma get_field (v : value) (key : jsstring) :
  nullish v = false -> get v key = Normal (field v key).
Proof.
  unfold field. destruct v; cbn; try discriminate; intros _; try reflexivity.
  destruct (lookup key props); reflexivity.
Qed.

Lemma get_nullish (v : value) (key : jsstring) :
  nullish v = true -> get v key = Throw TypeError.
Proof. destruct v; cbn; try discriminate; reflexivity. Qed.

Lemma sanitize_or_ok (v : value) (d : jsstring) :
  string_or_falsy v = true ->
  sanitizeString_call (or v (Str d)) = Normal (sanitizeString (string_or v d)).
Proof.
  unfold string_or, or. destruct v; cbn; intros H; try reflexivity;
    try discriminate.
  - destruct b; [discriminate | reflexivity].
  - destruct (JSNumber.truthy x); [discriminate | reflexivity].
  - destruct (is_nil s); reflexivity.
Qed.

Lemma sanitize_or_throw (v : value) (d : jsstring) :
  string_or_falsy v = false ->
  sanitizeString_call (or v (Str d)) = Throw TypeError.
Proof.
  unfold or. destruct v; cbn; intros H; try reflexivity; try discriminate.
  - destruct b; [reflexivity | discriminate].
  - destruct (JSNumber.truthy x); [reflexivity | discriminate].
Qed.

Lemma ToNumber_ok (v : value) :
  coercible v = true -> ToNumber v = Normal (number_of v).
Proof.
  unfold coercible, number_of. destruct (ToNumber v); [reflexivity | discriminate].
Qed.

Lemma ToNumber_throw (v : value) :
  coercible v = false -> exists e, ToNumber v = Throw e.
Proof.
  unfold coercible. destruct (ToNumber v); [discriminate | eauto].
Qed.

Lemma sanitize_item_ok (item : value) (idx : nat) :
  repairable_item item = true ->
  sanitize_item item idx = Normal (repaired_item item idx).
Proof.
  unfold repairable_item. intros H.
  repeat (apply andb_prop in H; destruct H as [H ?]).
  apply negb_true_iff in H.
  unfold sanitize_item, repaired_item.
  rewrite !(get_field item _ H). cbn [bind].
  rewrite sanitize_or_ok by assumption. cbn [bind].
  rewrite (ToNumber_ok (field item (lit "quantity"))) by assumption. cbn [bind].
  rewrite sanitize_or_ok by assumption. cbn [bind].
  rewrite (ToNumber_ok (field item (lit "price"))) by assumption. cbn [bind].
  reflexivity.
Qed.

Lemma sanitize_item_throw (item : value) (idx : nat) :
  repairable_item item = false ->
  exists e, sanitize_item item idx = Throw e.
Proof.
  unfold repairable_item, sanitize_item. intros H.
  destruct (nullish item) eqn:Hn.
  { rewrite (get_nullish item _ Hn). cbn. eauto. }
  rewrite !(get_field item _ Hn). cbn [bind negb andb] in *.
  destruct (string_or_falsy (field item (lit "id"))) eqn:H1.
  2:{ rewrite sanitize_or_throw by assumption. cbn. eauto. }
  rewrite sanitize_or_ok by assumption. cbn [bind andb] in *.
  destruct (coercible (field item (lit "quantity"))) eqn:H2.
  2:{ destruct (ToNumber_throw _ H2) as [e ->]. cbn. eauto. }
  rewrite (ToNumber_ok _ H2). cbn [bind andb] in *.
  destruct (string_or_falsy (field item (lit "description"))) eqn:H3.
  2:{ rewrite sanitize_or_throw by assumption. cbn. eauto. }
  rewrite sanitize_or_ok by assumption. cbn [bind andb] in *.
  destruct (ToNumber_throw _ H) as [e ->]. cbn. eauto.
Qed.

Lemma map_items_ok (elems : list value) :
  forall idx, forallb repairable_item elems = true ->
  map_items elems idx = Normal (repaired_items elems idx).
Proof.
  induction elems as [|item rest IH]; intros idx H; [reflexivity|].
  cbn [forallb] in H. apply andb_prop in H. destruct H as [H1 H2].
  cbn [map_items repaired_items].
  rewrite (sanitize_item_ok _ _ H1). cbn [bind].
  rewrite (IH _ H2). reflexivity.
Qed.

Lemma map_items_throw (elems : list value) :
  forall idx, forallb repairable_item elems = false ->
  exists e, map_items elems idx = Throw e.
Proof.
  induction elems as [|item rest IH]; intros idx H; [discriminate|].
  cbn [forallb map_items] in *.
  destruct (repairable_item item) eqn:H1.
  - rewrite (sanitize_item_ok _ _ H1). cbn [bind andb] in *.
    destruct (IH (S idx) H) as [e ->]. cbn. eauto.
  - destruct (sanitize_item_throw _ idx H1) as [e ->]. cbn. eauto.
Qed.

(** The validator returns the repaired receipt on the acceptable inputs
    and [null] on all others. *)
Lemma validate_char (data : value) :
  validateReceiptIntegrity data
  = if acceptable data then Some (repaired data) else None.
Proof.
  unfold validateReceiptIntegrity, acceptable, top_level_ok.
  destruct data as [| |b|x|s|l|props];
    try reflexivity;
    try (destruct b; reflexivity);
    try (destruct x; reflexivity);
    try (destruct s; reflexivity).
  set (data := Obj props).
  assert (Hn : nullish data = false) by reflexivity.
  unfold validate_body. rewrite !(get_field data _ Hn).
  change (truthy data) with true. change (is_object data) with true.
  cbn [negb orb andb bind].
  destruct (field data (lit "restaurantName")) eqn:Hname;
    try reflexivity.
  cbn [is_string negb andb].
  destruct (field data (lit "items")) eqn:Hitems; try reflexivity.
  cbn [isArray negb andb sanitizeString_call bind elements].
  destruct (string_or_falsy (field data (lit "date"))) eqn:H1.
  2:{ rewrite sanitize_or_throw by assumption. reflexivity. }
  rewrite sanitize_or_ok by assumption. cbn [bind andb].
  destruct (string_or_falsy (field data (lit "currency"))) eqn:H2.
  2:{ rewrite sanitize_or_throw by assumption. reflexivity. }
  rewrite sanitize_or_ok by assumption. cbn [bind andb].
  destruct (coercible (field data (lit "subtotal"))) eqn:H3.
  2:{ destruct (ToNumber_throw _ H3) as [e ->]. reflexivity. }
  rewrite (ToNumber_ok _ H3). cbn [bind andb].
  destruct (coercible (field data (lit "tax"))) eqn:H4.
  2:{ destruct (ToNumber_throw _ H4) as [e ->]. reflexivity. }
  rewrite (ToNumber_ok _ H4). cbn [bind andb].
  destruct (coercible (field data (lit "tip"))) eqn:H5.
  2:{ destruct (ToNumber_throw _ H5) as [e ->]. reflexivity. }
  rewrite (ToNumber_ok _ H5). cbn [bind andb].
  destruct (coercible (field data (lit "total"))) eqn:H6.
  2:{ destruct (ToNumber_throw _ H6) as [e ->]. reflexivity. }
  rewrite (ToNumber_ok _ H6). cbn [bind andb].
  destruct (forallb repairable_item elems) eqn:H7.
  2:{ destruct (map_items_throw _ 0%nat H7) as [e ->]. reflexivity. }
  rewrite (map_items_ok _ 0%nat H7). cbn [bind try_catch].
  unfold repaired. rewrite Hname, Hitems. cbn [elements string_or or truthy].
  do 2 f_equal.
  destruct s; reflexivity.
Qed.

Lemma validate_accepts (data : value) :
  acceptable data = true -> validateReceiptIntegrity data = Some (repaired data).
Proof. intros H. now rewrite validate_char, H. Qed.

Lemma validate_rejects (data : value) :
  acceptable data = false -> validateReceiptIntegrity data = None.
Proof. intros H. now rewrite validate_char, H. Qed.

Lemma validate_some (data : value) (r : ReceiptData) :
  validateReceiptIntegrity data = Some r ->
  acceptable data = true /\ r = repaired data.
Proof.
  rewrite validate_char. destruct (acceptable data); [|discriminate].
  intros H. injection H as <-. auto.
Qed.

(** *** Numbers after [||] and [Math.max] *)

Lemma or_num_settled (x d : number) :
  settled d = true -> settled (or_num x d) = true.
Proof. unfold or_num. destruct x; cbn; auto. Qed.

Lemma or_num_not_nan (x d : number) :
  isNaN d = false -> isNaN (or_num x d) = false.
Proof. unfold or_num. destruct x; cbn; auto. Qed.

Lemma Math_max_zero (y : number) :
  isNaN y = false ->
  Math_max [zero; y] = if gt y zero then y else zero.
Proof.
  intros H. unfold Math_max. cbn [existsb isNaN zero orb]. rewrite H.
  cbn [fold_left]. destruct y as [[|]|[|]| |[|] m e]; reflexivity.
Qed.

Lemma Math_max_zero_nonneg (y : number) :
  isNaN y = false -> nonneg (Math_max [zero; y]) = true.
Proof.
  intros H. rewrite Math_max_zero by exact H.
  destruct y as [[|]|[|]| |[|] m e]; try reflexivity; discriminate.
Qed.

Lemma nonneg_settled (x : number) : nonneg x = true -> settled x = true.
Proof. destruct x as [[|]|[|]| |[|] m e]; cbn; auto. Qed.

Lemma settled_not_nan (x : number) : settled x = true -> isNaN x = false.
Proof. destruct x as [[|]|[|]| |[|] m e]; cbn; auto. Qed.

Lemma settled_or_num (x : number) : settled x = true -> or_num x zero = x.
Proof. destruct x as [[|]|[|]| |[|] m e]; cbn; auto; try discriminate. Qed.

End ValidatorFacts.

(* ================================================================== *)
(** ** Claims about the validator *)
(* ================================================================== *)

Section ValidatorInvariants.

Lemma repaired_items_nonneg (elems : list value) :
  forall idx,
  Forall (fun i => nonneg i.(quantity) = true /\ nonneg i.(price) = true)
         (repaired_items elems idx).
Proof.
  induction elems as [|item rest IH]; intros idx; cbn [repaired_items];
    constructor; [|apply IH].
  cbn [quantity price repaired_item]. split.
  - apply Math_max_zero_nonneg, or_num_not_nan. reflexivity.
  - apply Math_max_zero_nonneg, or_num_not_nan. reflexivity.
Qed.

(** Every string of a validated receipt is an output of [sanitizeString]. *)
Definition sanitizer_output (s : jsstring) : Prop :=
  exists raw, s = sanitizeString raw.

Lemma repaired_items_strings (elems : list value) :
  forall idx,
  Forall (fun i => sanitizer_output i.(id) /\ sanitizer_output i.(description))
         (repaired_items elems idx).
Proof.
  induction elems as [|item rest IH]; intros idx; cbn [repaired_items];
    constructor; [|apply IH].
  split; eexists; reflexivity.
Qed.

Lemma validated_numbers (r : ReceiptData) :
  validated r ->
  settled r.(subtotal) = true /\ settled r.(tax) = true /\
  settled r.(tip) = true /\ settled r.(total) = true /\
  Forall (fun i => nonneg i.(quantity) = true /\ nonneg i.(price) = true)
         r.(items).
Proof.
  intros [data H]. apply validate_some in H. destruct H as [_ ->].
  cbn [subtotal tax tip total items repaired].
  repeat split; try (apply or_num_settled; reflexivity).
  apply repaired_items_nonneg.
Qed.

Lemma validated_strings (r : ReceiptData) :
  validated r ->
  sanitizer_output r.(restaurantName) /\ sanitizer_output r.(date) /\
  sanitizer_output r.(currency) /\
  Forall (fun i => sanitizer_output i.(id) /\ sanitizer_output i.(description))
         r.(items).
Proof.
  intros [data H]. apply validate_some in H. destruct H as [_ ->].
  cbn [restaurantName date currency items repaired].
  repeat split; try (eexists; reflexivity).
  apply repaired_items_strings.
Qed.

End ValidatorInvariants.

(** C2 (as amended). In every receipt the validator returns, no numeric
    field is NaN (and none is missing: each is a number), and each item's
    quantity and price is [+0], positive or [+Infinity]. *)
Theorem validated_numbers_not_nan_items_nonneg (data : value) (r : ReceiptData) :
  validateReceiptIntegrity data = Some r ->
  isNaN r.(subtotal) = false /\ isNaN r.(tax) = false /\
  isNaN r.(tip) = false /\ isNaN r.(total) = false /\
  Forall (fun i => nonneg i.(quantity) = true /\ nonneg i.(price) = true)
         r.(items).
Proof.
  intros H.
  destruct (validated_numbers r (ex_intro _ data H)) as (H1 & H2 & H3 & H4 & H5).
  repeat split; try (now apply settled_not_nan). exact H5.
Qed.

(** A link payload with a negative subtotal, a negative tax and an item
    priced [1e999], which [JSON.parse] reads as [Infinity]. *)
Definition tampered : value :=
  Obj [ (lit "restaurantName", Str (lit "Cafe"));
        (lit "items",
         Arr [Obj [ (lit "id", Str (lit "a"));
                    (lit "quantity", Num (of_Z 1));
                    (lit "description", Str (lit "Soup"));
                    (lit "price", Num infinity) ]]);
        (lit "subtotal", Num (of_Z (-5)));
        (lit "tax", Num (of_Z (-1)));
        (lit "tip", Num zero);
        (lit "total", Num (of_Z 10)) ].

Definition tampered_receipt : ReceiptData :=
  {| restaurantName := lit "Cafe";
     date := [];
     currency := lit "$";
     subtotal := of_Z (-5);
     tax := of_Z (-1);
     tip := zero;
     total := of_Z 10;
     items := [ {| id := lit "a"; quantity := of_Z 1;
                   description := lit "Soup"; price := infinity |} ] |}.

Lemma validated_numbers_witness :
  isNaN tampered_receipt.(subtotal) = false /\
  isNaN tampered_receipt.(tax) = false /\
  isNaN tampered_receipt.(tip) = false /\
  isNaN tampered_receipt.(total) = false /\
  Forall (fun i => nonneg i.(quantity) = true /\ nonneg i.(price) = true)
         tampered_receipt.(items).
Proof.
  apply (validated_numbers_not_nan_items_nonneg tampered tampered_receipt).
  vm_compute. reflexivity.
Defined.

(** C2, counterexample: the validator accepts the payload and returns a
    negative subtotal, a negative tax and an infinite price. *)
Lemma validated_numbers_negative_and_infinite :
  validateReceiptIntegrity tampered = Some tampered_receipt /\
  negative tampered_receipt.(subtotal) = true /\
  negative tampered_receipt.(tax) = true /\
  map (fun i => isFinite i.(price)) tampered_receipt.(items) = [false].
Proof. vm_compute. repeat split. Qed.


(** Items with nothing right but their shape: an empty object, a string, a
    number, and an object whose fields all have the wrong type. *)
Definition garbled : value :=
  Obj [ (lit "restaurantName", Str (lit " <b>Cafe</b> "));
        (lit "items",
         Arr [ Obj [];
               Str (lit "soup");
               Num (of_Z 7);
               Obj [ (lit "id", Bool false);
                     (lit "quantity", Str (lit "two"));
                     (lit "description", Null);
                     (lit "price", Arr [Num (of_Z (-4))]) ] ]) ].


(** Every other input is rejected as a whole. *)
Lemma validator_rejects_the_rest (data : value) :
  acceptable data = false -> validateReceiptIntegrity data = None.
Proof. apply validate_rejects. Qed.








(** C10. No [<] survives sanitization: every [<] of the input starts a
    match of the tag pattern or lies inside one, and matches are removed.
    So no string field of a validated receipt holds a [<]. *)
Theorem sanitizeString_strips_every_lt (s : jsstring) (data : value)
  (r : ReceiptData) :
  ~ In 60 (sanitizeString s) /\
  (validateReceiptIntegrity data = Some r ->
   ~ In 60 r.(restaurantName) /\ ~ In 60 r.(date) /\ ~ In 60 r.(currency) /\
   Forall (fun i => ~ In 60 i.(id) /\ ~ In 60 i.(description)) r.(items)).
Proof.
  split; [apply sanitizeString_no_lt|]. intros H.
  destruct (validated_strings r (ex_intro _ data H))
    as ([s1 ->] & [s2 ->] & [s3 ->] & Hitems).
  repeat split; try apply sanitizeString_no_lt.
  eapply Forall_impl; [|exact Hitems].
  intros i [[a ->] [b ->]]. split; apply sanitizeString_no_lt.
Qed.

(* ================================================================== *)
(** ** Claims about the allocation engine *)
(* ================================================================== *)

Section AllocationFacts.

Variable r : ReceiptData.

(** One step of the [reduce] callback of lines 187-190. *)
Definition claim_step (acc : number) (sel : UserSelection) : number :=
  match find_item r.(items) sel.(itemId) with
  | Some item => add acc (div item.(price) sel.(splitCount))
  | None => acc
  end.

Definition claim_terms_of (sel : UserSelection) : list number :=
  if sel.(isSelected) then
    match find_item r.(items) sel.(itemId) with
    | Some item => [div item.(price) sel.(splitCount)]
    | None => []
    end
  else [].

Lemma claimed_fold (l : list UserSelection) :
  forall acc,
  fold_left claim_step (filter (fun s => s.(isSelected)) l) acc
  = fold_left add (flat_map claim_terms_of l) acc.
Proof.
  induction l as [|sel l IH]; intros acc; [reflexivity|].
  cbn [filter flat_map]. unfold claim_terms_of at 1.
  destruct (isSelected sel); [|apply IH].
  cbn [fold_left]. unfold claim_step at 2.
  destruct (find_item (items r) (itemId sel)); cbn [app fold_left]; apply IH.
Qed.

Lemma prices_fold (its : list ReceiptItem) :
  forall acc,
  fold_left (fun a item => add a item.(price)) its acc
  = fold_left add (map price its) acc.
Proof. induction its as [|i its IH]; intros acc; [reflexivity | apply IH]. Qed.

Lemma find_item_stale (sel : UserSelection) :
  stale r sel -> find_item r.(items) sel.(itemId) = None.
Proof.
  unfold stale, find_item. induction (items r) as [|i its IH]; intros H;
    [reflexivity|].
  cbn [find]. rewrite (H i (or_introl eq_refl)).
  apply IH. intros item Hin. apply H. now right.
Qed.

(** The claimed subtotal of the code is the sum the specification words. *)
Lemma userSubtotal_spec (sels : Selections) :
  (calculations (Some r) sels).(Share.subtotal) = spec_claimedSubtotal r sels.
Proof.
  cbn [calculations Share.subtotal].
  exact (claimed_fold (Object_values sels) zero).
Qed.

(** With a subtotal that is not negative, [subtotal || sum] takes the
    subtotal exactly when it is positive. *)
Lemma receiptSubtotal_spec :
  settled r.(subtotal) = true -> negative r.(subtotal) = false ->
  or_num r.(subtotal) (fold_left (fun a item => add a item.(price)) r.(items) zero)
  = spec_receiptSubtotal r.
Proof.
  unfold spec_receiptSubtotal, sum. rewrite prices_fold.
  destruct (subtotal r) as [[|]|[|]| |[|] m e]; cbn; intros; try discriminate;
    reflexivity.
Qed.

End AllocationFacts.

(** C1, on the receipts of the specification's data model. For every
    receipt the validator returns whose subtotal is not negative, and every
    selection map, the engine computes the claimed subtotal, the receipt
    subtotal, the ratio and the allocated tax, tip and total exactly as the
    specification words them. *)
Theorem calculations_meets_spec (data : value) (r : ReceiptData)
  (sels : Selections) :
  validateReceiptIntegrity data = Some r ->
  negative r.(subtotal) = false ->
  calculations (Some r) sels = spec_allocate r sels.
Proof.
  intros Hv Hneg.
  destruct (validated_numbers r (ex_intro _ data Hv)) as (H1 & H2 & H3 & _).
  unfold spec_allocate, spec_ratio.
  rewrite <- (userSubtotal_spec r sels).
  rewrite <- (receiptSubtotal_spec r H1 Hneg).
  unfold calculations. cbn [Share.subtotal].
  rewrite (settled_or_num _ H2), (settled_or_num _ H3).
  reflexivity.
Qed.

(** The example of the specification: items a (20) and b (10), subtotal 30,
    tax 3, tip 6; a is claimed and split in two. *)
Definition example_payload : value :=
  Obj [ (lit "restaurantName", Str (lit "Cafe"));
        (lit "items",
         Arr [ Obj [ (lit "id", Str (lit "a")); (lit "price", Num (of_Z 20)) ];
               Obj [ (lit "id", Str (lit "b")); (lit "price", Num (of_Z 10)) ] ]);
        (lit "subtotal", Num (of_Z 30));
        (lit "tax", Num (of_Z 3));
        (lit "tip", Num (of_Z 6));
        (lit "total", Num (of_Z 39)) ].

Definition example_selections : Selections :=
  [ (lit "a", {| itemId := lit "a"; splitCount := of_Z 2; isSelected := true |});
    (lit "b", {| itemId := lit "b"; splitCount := of_Z 1; isSelected := false |}) ].

Lemma calculations_meets_spec_witness :
  calculations (Some (repaired example_payload)) example_selections
  = spec_allocate (repaired example_payload) example_selections /\
  (calculations (Some (repaired example_payload)) example_selections).(Share.subtotal)
  = of_Z 10.
Proof.
  split.
  - apply (calculations_meets_spec example_payload); reflexivity.
  - reflexivity.
Defined.

(** A payload whose subtotal is negative, and the receipt the validator
    makes of it. *)
Definition negative_subtotal_payload : value :=
  Obj [ (lit "restaurantName", Str (lit "Cafe"));
        (lit "items",
         Arr [ Obj [ (lit "id", Str (lit "a")); (lit "price", Num (of_Z 10)) ] ]);
        (lit "subtotal", Num (of_Z (-5)));
        (lit "tax", Num (of_Z 1)) ].

Definition negative_subtotal_receipt : ReceiptData :=
  {| restaurantName := lit "Cafe"; date := []; currency := lit "$";
     subtotal := of_Z (-5); tax := of_Z 1; tip := zero; total := zero;
     items := [ {| id := lit "a"; quantity := of_Z 1;
                   description := lit "Unknown Item"; price := of_Z 10 |} ] |}.

Definition claims_a : Selections :=
  [ (lit "a", {| itemId := lit "a"; splitCount := of_Z 1; isSelected := true |}) ].

(** C1, the failing input. The validator raises the quantity and the
    price of every item to at least 0 ([Math.max(0, ...)], lines 73 and
    75) but not the four amounts of the receipt (lines 67-70): it returns
    a receipt with the subtotal -5. The engine then keeps -5 as the receipt
    subtotal ([receipt.subtotal || sum], line 192) and allocates no tax,
    where the specification falls back to the sum of the prices, 10, and
    allocates the whole tax. *)
Lemma calculations_keeps_negative_subtotal :
  validateReceiptIntegrity negative_subtotal_payload
  = Some negative_subtotal_receipt /\
  calculations (Some negative_subtotal_receipt) claims_a
  = {| Share.subtotal := of_Z 10; Share.tax := zero; Share.tip := zero;
       Share.total := of_Z 10; Share.ratio := zero |} /\
  spec_allocate negative_subtotal_receipt claims_a
  = {| Share.subtotal := of_Z 10; Share.tax := of_Z 1; Share.tip := zero;
       Share.total := of_Z 11; Share.ratio := of_Z 1 |}.
Proof. vm_compute. repeat split. Qed.

(** C8. A selection whose [itemId] matches no item of the receipt adds
    nothing: the engine's whole result is the one computed without it. *)
Theorem stale_selection_contributes_nothing (r : ReceiptData)
  (before after : Selections) (key : jsstring) (sel : UserSelection) :
  stale r sel ->
  calculations (Some r) (before ++ (key, sel) :: after)
  = calculations (Some r) (before ++ after).
Proof.
  intros Hstale.
  assert (Hsub :
    fold_left (claim_step r)
      (filter (fun s => s.(isSelected))
              (Object_values (before ++ (key, sel) :: after))) zero
    = fold_left (claim_step r)
      (filter (fun s => s.(isSelected)) (Object_values (before ++ after))) zero).
  { unfold Object_values. rewrite !map_app, !filter_app, !fold_left_app.
    cbn [map filter snd]. destruct (isSelected sel); [|reflexivity].
    cbn [fold_left]. unfold claim_step at 2.
    now rewrite (find_item_stale r sel Hstale). }
  unfold calculations. fold (claim_step r). rewrite Hsub. reflexivity.
Qed.

Definition stale_selection : UserSelection :=
  {| itemId := lit "gone"; splitCount := of_Z 1; isSelected := true |}.

Lemma stale_selection_witness :
  calculations (Some (repaired example_payload))
               ((lit "gone", stale_selection) :: example_selections)
  = calculations (Some (repaired example_payload)) example_selections.
Proof.
  apply (stale_selection_contributes_nothing
           (repaired example_payload) [] example_selections).
  intros item [<-|[<-|[]]]; reflexivity.
Defined.

(** Nothing selected: every output is 0, whatever the receipt holds. *)
Lemma calculations_nothing_selected (r : ReceiptData) (sels : Selections) :
  forallb (fun s => negb s.(isSelected)) (Object_values sels) = true ->
  (calculations (Some r) sels).(Share.subtotal) = zero.
Proof.
  intros H. cbn [calculations Share.subtotal].
  induction (Object_values sels) as [|s l IH]; [reflexivity|].
  cbn [forallb] in H. apply andb_prop in H. destruct H as [Hs Hl].
  cbn [filter]. apply negb_true_iff in Hs. rewrite Hs. now apply IH.
Qed.

(* ================================================================== *)
(** ** Claims about the share link: failures *)
(* ================================================================== *)

Section LinkFailures.

Variable st : AppModel.
Variable hash : jsstring.
Hypothesis long : (10 <? Z.of_nat (length hash)) = true.

Lemma long_not_nil : is_nil hash = false.
Proof using long. destruct hash; [discriminate long | reflexivity]. Qed.

Lemma handleHashChange_long :
  handleHashChange st (35 :: hash)
  = try_catch
      (decoded <- decodeURIComponent hash ;;
       let jsonStr := safeAtob decoded in
       if negb (is_nil jsonStr) then
         rawData <- JSON.parse jsonStr ;;
         match validateReceiptIntegrity rawData with
         | Some validated => Normal (link_loaded st validated)
         | None => Throw (Error (lit "Invalid receipt data"))
         end
       else Normal st)
      (fun e => link_invalid st).
Proof using long.
  unfold handleHashChange. cbn [skipn]. rewrite long_not_nil, long. reflexivity.
Qed.

(** Percent-decoding fails: the invalid-link outcome. *)
Lemma malformed_percent_encoding_is_invalid (e : exn) :
  decodeURIComponent hash = Throw e ->
  handleHashChange st (35 :: hash) = link_invalid st.
Proof using long. intros H. rewrite handleHashChange_long, H. reflexivity. Qed.

(** The text is not JSON: the invalid-link outcome. *)
Lemma malformed_json_is_invalid (text : jsstring) (e : exn) :
  link_text hash = Normal text -> is_nil text = false ->
  JSON.parse text = Throw e ->
  handleHashChange st (35 :: hash) = link_invalid st.
Proof using long.
  unfold link_text. intros H Hne Hp. rewrite handleHashChange_long.
  destruct (decodeURIComponent hash) as [d|]; [|discriminate].
  cbn [bind] in *. injection H as H. rewrite H, Hne, Hp. reflexivity.
Qed.

(** The validator rejects the parsed value: the invalid-link outcome. *)
Lemma rejected_payload_is_invalid (text : jsstring) (rawData : value) :
  link_text hash = Normal text -> is_nil text = false ->
  JSON.parse text = Normal rawData ->
  validateReceiptIntegrity rawData = None ->
  handleHashChange st (35 :: hash) = link_invalid st.
Proof using long.
  unfold link_text. intros H Hne Hp Hv. rewrite handleHashChange_long.
  destruct (decodeURIComponent hash) as [d|]; [|discriminate].
  cbn [bind] in *. injection H as H. rewrite H, Hne, Hp. cbn [bind].
  rewrite Hv. reflexivity.
Qed.

(** [atob] throws: [safeAtob] swallows the exception and answers the empty
    string, the [if (jsonStr)] test fails and has no [else]: nothing is
    reported and the state stays as it was. *)
Lemma malformed_base64_is_ignored (decoded : jsstring) (e : exn) :
  decodeURIComponent hash = Normal decoded ->
  atob decoded = Throw e ->
  handleHashChange st (35 :: hash) = st.
Proof using long.
  intros H Ha. rewrite handleHashChange_long, H. cbn [bind].
  unfold safeAtob. rewrite Ha. reflexivity.
Qed.

(** A valid payload: the receipt is loaded. *)
Lemma valid_payload_is_loaded (text : jsstring) (rawData : value)
  (validated : ReceiptData) :
  link_text hash = Normal text -> is_nil text = false ->
  JSON.parse text = Normal rawData ->
  validateReceiptIntegrity rawData = Some validated ->
  handleHashChange st (35 :: hash) = link_loaded st validated.
Proof using long.
  unfold link_text. intros H Hne Hp Hv. rewrite handleHashChange_long.
  destruct (decodeURIComponent hash) as [d|]; [|discriminate].
  cbn [bind] in *. injection H as H. rewrite H, Hne, Hp. cbn [bind].
  rewrite Hv. reflexivity.
Qed.

End LinkFailures.

(** A session in the middle of a split. *)
Definition splitting : AppModel :=
  {| appState := SELECT_ITEMS;
     receipt := Some (repaired example_payload);
     userSelections := example_selections;
     error := None |}.

(** C6, evaluated. A fragment that is not base64 ([#] and twelve [!]) is
    neither reported nor acted upon: from a fresh page and from a running
    session alike the state is left as it was, without the error message.
    A fragment whose percent-encoding is broken, one that decodes to text
    that is not JSON and one whose JSON the validator rejects all end in the
    invalid-link state. *)
Theorem malformed_base64_link_is_not_reported :
  handleHashChange initial (lit "#!!!!!!!!!!!!") = initial /\
  handleHashChange splitting (lit "#!!!!!!!!!!!!") = splitting /\
  splitting.(error) = None /\ splitting.(appState) = SELECT_ITEMS /\
  handleHashChange splitting (lit "#%zz!!!!!!!!!") = link_invalid splitting /\
  handleHashChange splitting (lit "#bm90IGpzb24gYXQgYWxs") = link_invalid splitting /\
  handleHashChange splitting (lit "#eyJpdGVtcyI6W119") = link_invalid splitting /\
  (link_invalid splitting).(error) = Some link_error /\
  (link_invalid splitting).(appState) = HOME.
Proof. vm_compute. repeat split. Qed.

(* ================================================================== *)
(** ** Validating a receipt again *)
(* ================================================================== *)

Section Revalidation.

Definition item_object (i : ReceiptItem) : value :=
  Obj [ (lit "id", Str i.(id));
        (lit "quantity", Num i.(quantity));
        (lit "description", Str i.(description));
        (lit "price", Num i.(price)) ].

Lemma string_or_nonempty (s d : jsstring) :
  is_nil s = false -> string_or (Str s) d = s.
Proof. unfold string_or, or. cbn. now intros ->. Qed.

Lemma string_or_empty_default (s : jsstring) : string_or (Str s) [] = s.
Proof. destruct s; reflexivity. Qed.

Lemma stable_output (s : jsstring) :
  sanitizer_output s -> plain s = true -> sanitizeString s = s.
Proof.
  intros [raw ->] H. apply sanitizeString_stable.
  unfold plain in H. now apply negb_true_iff in H.
Qed.

Lemma Math_max_keeps_quantity (q : number) :
  nonneg q = true -> JSNumber.truthy q = true ->
  Math_max [zero; or_num q (of_Z 1)] = q.
Proof.
  destruct q as [[|]|[|]| |[|] m e]; cbn; try discriminate; reflexivity.
Qed.

Lemma Math_max_keeps_price (p : number) :
  nonneg p = true -> Math_max [zero; or_num p zero] = p.
Proof.
  destruct p as [[|]|[|]| |[|] m e]; cbn; try discriminate; reflexivity.
Qed.

Lemma repaired_item_object (i : ReceiptItem) (idx : nat) :
  sanitizer_output i.(id) -> sanitizer_output i.(description) ->
  nonneg i.(quantity) = true -> nonneg i.(price) = true ->
  link_safe_item i = true ->
  repaired_item (item_object i) idx = i.
Proof.
  intros Hid Hd Hq Hp Hs. unfold link_safe_item in Hs.
  repeat (apply andb_prop in Hs; destruct Hs as [Hs ?]).
  destruct i as [i_id i_q i_d i_p]. cbn [id quantity description price] in *.
  unfold repaired_item, item_object.
  change (field (Obj _) (lit "id")) with (Str i_id).
  change (field (Obj _) (lit "quantity")) with (Num i_q).
  change (field (Obj _) (lit "description")) with (Str i_d).
  change (field (Obj _) (lit "price")) with (Num i_p).
  change (number_of (Num i_q)) with i_q. change (number_of (Num i_p)) with i_p.
  rewrite !string_or_nonempty by (now apply negb_true_iff).
  rewrite (stable_output i_id), (stable_output i_d) by assumption.
  rewrite Math_max_keeps_quantity, Math_max_keeps_price by assumption.
  reflexivity.
Qed.

Lemma repaired_item_objects (its : list ReceiptItem) :
  forall idx,
  Forall (fun i => sanitizer_output i.(id) /\ sanitizer_output i.(description)) its ->
  Forall (fun i => nonneg i.(quantity) = true /\ nonneg i.(price) = true) its ->
  forallb link_safe_item its = true ->
  repaired_items (map item_object its) idx = its.
Proof.
  induction its as [|i its IH]; intros idx Hs Hn Hl; [reflexivity|].
  inversion Hs as [|? ? [Hid Hd] Hs']; subst.
  inversion Hn as [|? ? [Hq Hp] Hn']; subst.
  cbn [forallb] in Hl. apply andb_prop in Hl. destruct Hl as [Hi Hl].
  cbn [map repaired_items].
  rewrite repaired_item_object by assumption.
  now rewrite IH.
Qed.

Lemma item_objects_repairable (its : list ReceiptItem) :
  forallb repairable_item (map item_object its) = true.
Proof. induction its as [|i its IH]; [reflexivity | exact IH]. Qed.

Lemma minifiedReceipt_acceptable (r : ReceiptData) :
  acceptable (minifiedReceipt r) = true.
Proof.
  unfold acceptable, top_level_ok, minifiedReceipt.
  change (field (Obj _) (lit "items"))
    with (Arr (map item_object r.(items))).
  cbn [elements]. rewrite item_objects_repairable. reflexivity.
Qed.

(** The validator gives a receipt back unchanged when the link keeps it. *)
Lemma revalidate (r : ReceiptData) :
  validated r -> link_safe r = true ->
  validateReceiptIntegrity (minifiedReceipt r) = Some r.
Proof.
  intros Hv Hl.
  destruct (validated_numbers r Hv) as (N1 & N2 & N3 & N4 & N5).
  destruct (validated_strings r Hv) as (S1 & S2 & S3 & S4).
  rewrite validate_accepts by apply minifiedReceipt_acceptable.
  unfold link_safe in Hl.
  repeat (apply andb_prop in Hl; destruct Hl as [Hl ?]).
  f_equal. unfold repaired, minifiedReceipt.
  change (field (Obj _) (lit "restaurantName")) with (Str r.(restaurantName)).
  change (field (Obj _) (lit "date")) with (Str r.(date)).
  change (field (Obj _) (lit "currency")) with (Str r.(currency)).
  change (field (Obj _) (lit "subtotal")) with (Num r.(subtotal)).
  change (field (Obj _) (lit "tax")) with (Num r.(tax)).
  change (field (Obj _) (lit "tip")) with (Num r.(tip)).
  change (field (Obj _) (lit "total")) with (Num r.(total)).
  change (field (Obj _) (lit "items")) with (Arr (map item_object r.(items))).
  cbn [elements number_of ToNumber].
  rewrite !string_or_empty_default.
  rewrite string_or_nonempty by (now apply negb_true_iff).
  rewrite !stable_output by assumption.
  rewrite !settled_or_num by assumption.
  rewrite repaired_item_objects by assumption.
  destruct r; reflexivity.
Qed.

End Revalidation.

(* ================================================================== *)
(** ** Round trips of the codecs *)
(* ================================================================== *)

(** Linear facts about quotients and remainders by constants. *)
Ltac by_division := Z.div_mod_to_equations; lia.

Section BoundedCases.

(** A boolean property checked on every integer below [n] holds below [n]. *)
Lemma forall_below (P : Z -> bool) (n : nat) :
  forallb P (map Z.of_nat (seq 0 n)) = true ->
  forall v, 0 <= v < Z.of_nat n -> P v = true.
Proof.
  intros H v Hv. rewrite forallb_forall in H. apply H.
  rewrite <- (Z2Nat.id v) by lia. apply in_map. apply in_seq. lia.
Qed.

End BoundedCases.

Section PercentEncoding.

Definition is_ascii (c : char16) : bool := (0 <=? c) && (c <? 128).

Lemma hex_upper_value (v : Z) :
  0 <= v < 16 -> hex_value (hex_upper v) = Some v.
Proof.
  intros Hv.
  assert (H : (match hex_value (hex_upper v) with
               | Some w => w =? v
               | None => false
               end) = true).
  { revert v Hv. apply (forall_below _ 16). vm_compute. reflexivity. }
  destruct (hex_value (hex_upper v)); [|discriminate].
  apply Z.eqb_eq in H. now subst.
Qed.

Lemma ascii_not_surrogate (c : char16) :
  is_ascii c = true -> isHigh c = false /\ isLow c = false.
Proof. unfold is_ascii, isHigh, isLow. lia. Qed.

Lemma code_points_ascii (lone : char16 -> Z) (s : jsstring) :
  forallb is_ascii s = true -> code_points lone s = s.
Proof.
  induction s as [|c s IH]; intros H; [reflexivity|].
  cbn [forallb] in H. apply andb_prop in H. destruct H as [Hc Hs].
  cbn [code_points]. destruct (ascii_not_surrogate c Hc) as [-> ->].
  now rewrite IH.
Qed.

(** How one ASCII character is written. *)
Definition escape_ascii (c : char16) : jsstring :=
  if isUnreserved c then [c] else percent c.

Lemma encodeURIComponent_ascii (s : jsstring) :
  forallb is_ascii s = true ->
  encodeURIComponent s = Normal (flat_map escape_ascii s).
Proof.
  intros H. unfold encodeURIComponent. rewrite code_points_ascii by exact H.
  assert (Hneg : existsb (fun cp => cp <? 0) s = false).
  { clear -H. induction s as [|c s IH]; [reflexivity|].
    cbn [forallb existsb] in *. apply andb_prop in H. destruct H as [Hc Hs].
    rewrite (IH Hs). unfold is_ascii in Hc. lia. }
  rewrite Hneg. f_equal.
  clear Hneg. induction s as [|c s IH]; [reflexivity|].
  cbn [forallb flat_map] in *. apply andb_prop in H. destruct H as [Hc Hs].
  rewrite (IH Hs). f_equal. unfold escape_ascii, utf8_bytes.
  unfold is_ascii in Hc. replace (c <? 128) with true by lia.
  cbn [flat_map]. now rewrite app_nil_r.
Qed.

Lemma unreserved_not_percent (c : char16) :
  isUnreserved c = true -> (c =? 37) = false.
Proof. unfold isUnreserved, isAlnum. lia. Qed.

Lemma uri_tokens_escape (c : char16) (rest : jsstring) :
  is_ascii c = true ->
  uri_tokens (escape_ascii c ++ rest)
  = bind (uri_tokens rest)
         (fun ts => Normal ((if isUnreserved c then Plain c else Escaped c) :: ts)).
Proof.
  intros Hc. unfold escape_ascii. destruct (isUnreserved c) eqn:Hu.
  - cbn [app uri_tokens]. now rewrite (unreserved_not_percent c Hu).
  - unfold percent. cbn [app uri_tokens]. rewrite Z.eqb_refl.
    unfold is_ascii in Hc.
    rewrite !hex_upper_value by (Z.div_mod_to_equations; lia).
    replace (c / 16 * 16 + c mod 16) with c by (Z.div_mod_to_equations; lia).
    reflexivity.
Qed.

Lemma uri_tokens_ascii (s : jsstring) :
  forallb is_ascii s = true ->
  uri_tokens (flat_map escape_ascii s)
  = Normal (map (fun c => if isUnreserved c then Plain c else Escaped c) s).
Proof.
  induction s as [|c s IH]; intros H; [reflexivity|].
  cbn [forallb flat_map map] in *. apply andb_prop in H. destruct H as [Hc Hs].
  rewrite uri_tokens_escape by exact Hc. now rewrite (IH Hs).
Qed.

Lemma uri_decode_ascii (s : jsstring) :
  forallb is_ascii s = true ->
  uri_decode_from utf8_init
    (map (fun c => if isUnreserved c then Plain c else Escaped c) s)
  = Normal s.
Proof.
  induction s as [|c s IH]; intros H; [reflexivity|].
  cbn [forallb map] in *. apply andb_prop in H. destruct H as [Hc Hs].
  destruct (isUnreserved c).
  - cbn [uri_decode_from utf8_init u_needed]. cbn [Z.eqb].
    now rewrite (IH Hs).
  - cbn [uri_decode_from utf8_init u_needed]. cbn [Z.eqb].
    unfold utf8_lead. unfold is_ascii in Hc.
    replace (c <=? 127) with true by lia. rewrite Z.eqb_refl.
    now rewrite (IH Hs).
Qed.

(** An ASCII string comes back from [decodeURIComponent] as it went into
    [encodeURIComponent], and the encoded form is no shorter. *)
Lemma uri_roundtrip (s : jsstring) :
  forallb is_ascii s = true ->
  exists t, encodeURIComponent s = Normal t /\
            decodeURIComponent t = Normal s /\
            (length s <= length t)%nat.
Proof.
  intros H. exists (flat_map escape_ascii s). split; [|split].
  - now apply encodeURIComponent_ascii.
  - unfold decodeURIComponent. rewrite uri_tokens_ascii by exact H.
    cbn [bind]. now apply uri_decode_ascii.
  - clear H. induction s as [|c s IH]; [reflexivity|].
    cbn [flat_map]. rewrite length_app. cbn [length].
    assert (1 <= length (escape_ascii c))%nat
      by (unfold escape_ascii, percent; destruct (isUnreserved c); cbn; lia).
    lia.
Qed.

End PercentEncoding.

Section Base64.

Definition is_byte (b : Z) : bool := (0 <=? b) && (b <? 256).

Lemma list_ind3 {A} (P : list A -> Prop) :
  P [] -> (forall a, P [a]) -> (forall a b, P [a; b]) ->
  (forall a b c l, P l -> P (a :: b :: c :: l)) ->
  forall l, P l.
Proof.
  intros H0 H1 H2 H3 l.
  assert (H : P l /\ (forall a, P (a :: l)) /\ (forall a b, P (a :: b :: l))).
  { induction l as [|x l (IH0 & IH1 & IH2)]; auto. }
  apply H.
Qed.

Lemma b64_char_facts (v : Z) :
  0 <= v < 64 ->
  b64_value (b64_char v) = Some v /\ (b64_char v =? 61) = false /\
  isAsciiWhitespace (b64_char v) = false /\ is_ascii (b64_char v) = true.
Proof.
  intros Hv.
  assert (H : (match b64_value (b64_char v) with
               | Some w => w =? v
               | None => false
               end
               && negb (b64_char v =? 61)
               && negb (isAsciiWhitespace (b64_char v))
               && is_ascii (b64_char v)) = true).
  { revert v Hv. apply (forall_below _ 64). vm_compute. reflexivity. }
  repeat (apply andb_prop in H; destruct H as [H ?]).
  destruct (b64_value (b64_char v)); [|discriminate].
  apply Z.eqb_eq in H. subst. repeat split; auto; now apply negb_true_iff.
Qed.

(** The sextets of the input, without the padding. *)
Fixpoint sextets (bytes : list Z) : list Z :=
  match bytes with
  | [] => []
  | [a] => [a / 4; (a mod 4) * 16]
  | [a; b] => [a / 4; (a mod 4) * 16 + b / 16; (b mod 16) * 4]
  | a :: b :: c :: rest =>
      a / 4 :: (a mod 4) * 16 + b / 16 :: (b mod 16) * 4 + c / 64 :: c mod 64
      :: sextets rest
  end.

Definition padding (n : nat) : jsstring :=
  match (n mod 3)%nat with
  | 1%nat => [61; 61]
  | 2%nat => [61]
  | _ => []
  end.

Ltac bytes_split H :=
  cbn [forallb] in H;
  repeat (apply andb_prop in H; let H' := fresh "Hb" in destruct H as [H' H]);
  unfold is_byte in *.

Lemma sextets_range (bytes : list Z) :
  forallb is_byte bytes = true ->
  Forall (fun v => 0 <= v < 64) (sextets bytes).
Proof.
  induction bytes as [| a | a b | a b c rest IH] using list_ind3; intros H;
    cbn [sextets]; bytes_split H;
    repeat constructor; try (Z.div_mod_to_equations; lia).
  apply IH. exact H.
Qed.

Lemma strip_padding_char (v : Z) (s : jsstring) :
  0 <= v < 64 ->
  strip_padding (b64_char v :: s) = b64_char v :: strip_padding s.
Proof.
  intros Hv. cbn [strip_padding].
  destruct (b64_char_facts v Hv) as (_ & -> & _). reflexivity.
Qed.

Lemma b64_encode_sextets (bytes : list Z) :
  b64_encode bytes = map b64_char (sextets bytes) ++ padding (length bytes).
Proof.
  induction bytes as [| a | a b | a b c rest IH] using list_ind3;
    try reflexivity.
  cbn [b64_encode sextets map app]. rewrite IH. do 4 f_equal.
  unfold padding. cbn [length].
  replace (S (S (S (length rest))) mod 3)%nat with (length rest mod 3)%nat;
    [reflexivity|].
  change (S (S (S (length rest)))) with (3 + length rest)%nat.
  rewrite Nat.Div0.add_mod, Nat.Div0.mod_same, Nat.add_0_l.
  now rewrite Nat.Div0.mod_mod.
Qed.

Lemma strip_padding_encode (bytes : list Z) :
  forallb is_byte bytes = true ->
  strip_padding (b64_encode bytes) = map b64_char (sextets bytes).
Proof.
  induction bytes as [| a | a b | a b c rest IH] using list_ind3; intros H;
    [reflexivity | | | ]; pose proof (sextets_range _ H) as Hr;
    cbn [b64_encode sextets map] in *;
    repeat match goal with
           | Hf : Forall _ (_ :: _) |- _ =>
               let Hx := fresh "Hx" in
               inversion Hf as [|? ? Hx ?]; subst; clear Hf
           end;
    rewrite ?strip_padding_char by assumption.
  - reflexivity.
  - reflexivity.
  - rewrite IH; [reflexivity|]. bytes_split H. exact H.
Qed.

Lemma b64_values_sextets (vs : list Z) :
  Forall (fun v => 0 <= v < 64) vs -> b64_values (map b64_char vs) = Some vs.
Proof.
  induction 1 as [|v vs Hv _ IH]; [reflexivity|].
  cbn [map b64_values]. destruct (b64_char_facts v Hv) as (-> & _).
  now rewrite IH.
Qed.

Lemma b64_decode_sextets (bytes : list Z) :
  forallb is_byte bytes = true -> b64_decode (sextets bytes) = bytes.
Proof.
  induction bytes as [| a | a b | a b c rest IH] using list_ind3; intros H;
    cbn [sextets b64_decode]; bytes_split H.
  - reflexivity.
  - f_equal. Z.div_mod_to_equations; lia.
  - repeat f_equal; Z.div_mod_to_equations; lia.
  - rewrite (IH H). repeat f_equal; Z.div_mod_to_equations; lia.
Qed.

Lemma sextets_length (bytes : list Z) :
  exists k, length (sextets bytes) = (4 * k)%nat
            \/ length (sextets bytes) = (4 * k + 2)%nat
            \/ length (sextets bytes) = (4 * k + 3)%nat.
Proof.
  induction bytes as [| a | a b | a b c rest [k IH]] using list_ind3.
  - exists 0%nat. auto.
  - exists 0%nat. auto.
  - exists 0%nat. auto.
  - exists (S k). cbn [sextets length]. lia.
Qed.

Lemma b64_encode_length (bytes : list Z) :
  exists k, length (b64_encode bytes) = (4 * k)%nat
            /\ (length bytes <= 4 * k)%nat.
Proof.
  induction bytes as [| a | a b | a b c rest [k [IH Hl]]] using list_ind3.
  - exists 0%nat. auto.
  - exists 1%nat. cbn. lia.
  - exists 1%nat. cbn. lia.
  - exists (S k). cbn [b64_encode length]. lia.
Qed.

Lemma b64_encode_clean (bytes : list Z) :
  forallb is_byte bytes = true ->
  forallb is_ascii (b64_encode bytes) = true /\
  filter (fun c => negb (isAsciiWhitespace c)) (b64_encode bytes)
  = b64_encode bytes.
Proof.
  intros H. rewrite b64_encode_sextets.
  pose proof (sextets_range _ H) as Hr.
  rewrite forallb_app, filter_app.
  assert (Hp : forallb is_ascii (padding (length bytes)) = true /\
               filter (fun c => negb (isAsciiWhitespace c)) (padding (length bytes))
               = padding (length bytes)).
  { unfold padding. destruct (length bytes mod 3)%nat as [|[|[|n]]]; auto. }
  destruct Hp as [-> ->]. rewrite andb_true_r.
  induction Hr as [|v vs Hv _ [IH1 IH2]]; [auto|].
  cbn [map forallb filter app] in *.
  destruct (b64_char_facts v Hv) as (_ & _ & -> & ->).
  cbn [negb andb]. split; [exact IH1|]. cbn [app]. now f_equal.
Qed.

(** [atob] undoes [btoa] on a string of bytes; the base64 text is ASCII and
    no shorter than the bytes. *)
Lemma base64_roundtrip (bytes : list Z) :
  forallb is_byte bytes = true ->
  exists t, btoa bytes = Normal t /\ atob t = Normal bytes /\
            forallb is_ascii t = true /\ (length bytes <= length t)%nat.
Proof.
  intros H. exists (b64_encode bytes).
  destruct (b64_encode_clean bytes H) as [Hascii Hfilter].
  destruct (b64_encode_length bytes) as [k [Hlen Hle]].
  split; [|split; [|split]].
  - unfold btoa.
    assert (Hb : forallb (fun c => c <=? 255) bytes = true).
    { clear -H. induction bytes as [|b bytes IH]; [reflexivity|].
      cbn [forallb] in *. apply andb_prop in H. destruct H as [Hb H].
      rewrite (IH H). unfold is_byte in Hb. lia. }
    now rewrite Hb.
  - unfold atob. rewrite Hfilter, Hlen.
    replace (Z.of_nat (4 * k) mod 4 =? 0) with true
      by (symmetry; apply Z.eqb_eq; rewrite Nat2Z.inj_mul, Z.mul_comm;
          apply Z.mod_mul; lia).
    rewrite strip_padding_encode by exact H. rewrite length_map.
    destruct (sextets_length bytes) as [j Hj].
    replace (Z.of_nat (length (sextets bytes)) mod 4 =? 1) with false.
    + rewrite b64_values_sextets by (now apply sextets_range).
      now rewrite b64_decode_sextets.
    + symmetry. apply Z.eqb_neq.
      destruct Hj as [-> | [-> | ->]]; Z.div_mod_to_equations; lia.
  - exact Hascii.
  - lia.
Qed.

End Base64.

Section Utf8.

(** Well-formed UTF-16: code units in range, every surrogate paired. *)
Inductive wf16 : jsstring -> Prop :=
| wf16_nil : wf16 []
| wf16_unit (c : char16) (s : jsstring) :
    is_unit c = true -> isSurrogate c = false -> wf16 s -> wf16 (c :: s)
| wf16_pair (hi lo : char16) (s : jsstring) :
    isHigh hi = true -> isLow lo = true -> wf16 s -> wf16 (hi :: lo :: s).

Lemma wf16_app (s t : jsstring) : wf16 s -> wf16 t -> wf16 (s ++ t).
Proof.
  induction 1; intros Ht; cbn [app];
    [exact Ht | apply wf16_unit; auto | apply wf16_pair; auto].
Qed.

Lemma wf16_ascii (s : jsstring) : forallb is_ascii s = true -> wf16 s.
Proof.
  induction s as [|c s IH]; intros H; [constructor|].
  cbn [forallb] in H. apply andb_prop in H. destruct H as [Hc Hs].
  unfold is_ascii in Hc.
  apply wf16_unit; [unfold is_unit; lia | unfold isSurrogate; lia | auto].
Qed.

(** A Unicode scalar value. *)
Definition is_scalar (cp : Z) : bool :=
  (0 <=? cp) && (cp <? 1114112) && negb (isSurrogate cp).

Lemma utf8_decode_cons (st : utf8_state) (b : Z) (rest : list Z) :
  utf8_decode_from st (b :: rest)
  = if st.(u_needed) =? 0 then
      let '(out, st') := utf8_lead b in out ++ utf8_decode_from st' rest
    else if (st.(u_lower) <=? b) && (b <=? st.(u_upper)) then
      let cp := st.(u_cp) * 64 + (b - 128) in
      if st.(u_needed) =? 1 then cp :: utf8_decode_from utf8_init rest
      else utf8_decode_from {| u_cp := cp; u_needed := st.(u_needed) - 1;
                               u_lower := 128; u_upper := 191 |} rest
    else
      let '(out, st') := utf8_lead b in
      65533 :: out ++ utf8_decode_from st' rest.
Proof. reflexivity. Qed.

(** One decoder step on a known state, the tests on the byte count
    evaluated. *)
Ltac utf8_step :=
  rewrite utf8_decode_cons;
  cbn [utf8_init u_needed u_cp u_lower u_upper];
  change (3 - 1) with 2; change (2 - 1) with 1;
  change (0 =? 0) with true; change (1 =? 0) with false;
  change (2 =? 0) with false; change (3 =? 0) with false;
  change (1 =? 1) with true; change (2 =? 1) with false;
  change (3 =? 1) with false;
  cbv beta iota zeta.

Lemma utf8_scalar (cp : Z) (rest : list Z) :
  is_scalar cp = true ->
  utf8_decode_from utf8_init (utf8_bytes cp ++ rest)
  = cp :: utf8_decode_from utf8_init rest.
Proof.
  unfold is_scalar, isSurrogate, utf8_bytes. intros H.
  destruct (cp <? 128) eqn:H1; [|destruct (cp <? 2048) eqn:H2;
    [|destruct (cp <? 65536) eqn:H3]];
  cbn [app]; utf8_step; unfold utf8_lead.
  - replace (cp <=? 127) with true by lia. reflexivity.
  - replace (192 + cp / 64 <=? 127) with false by by_division.
    replace ((194 <=? 192 + cp / 64) && (192 + cp / 64 <=? 223)) with true
      by by_division.
    cbv beta iota. cbn [app]. utf8_step.
    replace ((128 <=? 128 + cp mod 64) && (128 + cp mod 64 <=? 191)) with true
      by by_division.
    f_equal. by_division.
  - replace (224 + cp / 4096 <=? 127) with false by by_division.
    replace ((194 <=? 224 + cp / 4096) && (224 + cp / 4096 <=? 223)) with false
      by by_division.
    replace ((224 <=? 224 + cp / 4096) && (224 + cp / 4096 <=? 239)) with true
      by by_division.
    cbv beta iota. cbn [app]. utf8_step.
    replace (((if 224 + cp / 4096 =? 224 then 160 else 128)
              <=? 128 + (cp / 64) mod 64)
             && (128 + (cp / 64) mod 64
                 <=? (if 224 + cp / 4096 =? 237 then 159 else 191))) with true
      by (destruct (224 + cp / 4096 =? 224) eqn:?;
          destruct (224 + cp / 4096 =? 237) eqn:?;
          cbv beta iota; by_division).
    cbv beta iota. utf8_step.
    replace ((128 <=? 128 + cp mod 64) && (128 + cp mod 64 <=? 191)) with true
      by by_division.
    f_equal. by_division.
  - replace (240 + cp / 262144 <=? 127) with false by by_division.
    replace ((194 <=? 240 + cp / 262144) && (240 + cp / 262144 <=? 223))
      with false by by_division.
    replace ((224 <=? 240 + cp / 262144) && (240 + cp / 262144 <=? 239))
      with false by by_division.
    replace ((240 <=? 240 + cp / 262144) && (240 + cp / 262144 <=? 244))
      with true by by_division.
    cbv beta iota. cbn [app]. utf8_step.
    replace (((if 240 + cp / 262144 =? 240 then 144 else 128)
              <=? 128 + (cp / 4096) mod 64)
             && (128 + (cp / 4096) mod 64
                 <=? (if 240 + cp / 262144 =? 244 then 143 else 191)))
      with true
      by (destruct (240 + cp / 262144 =? 240) eqn:?;
          destruct (240 + cp / 262144 =? 244) eqn:?;
          cbv beta iota; by_division).
    cbv beta iota. utf8_step.
    replace ((128 <=? 128 + (cp / 64) mod 64)
             && (128 + (cp / 64) mod 64 <=? 191)) with true by by_division.
    cbv beta iota. utf8_step.
    replace ((128 <=? 128 + cp mod 64) && (128 + cp mod 64 <=? 191)) with true
      by by_division.
    f_equal. by_division.
Qed.

Lemma utf8_bytes_facts (cp : Z) :
  is_scalar cp = true ->
  forallb is_byte (utf8_bytes cp) = true /\
  (1 <= length (utf8_bytes cp))%nat /\
  (65536 <= cp -> length (utf8_bytes cp) = 4%nat).
Proof.
  unfold is_scalar, isSurrogate, utf8_bytes. intros H.
  assert (Hb : forall b, 0 <= b < 256 -> is_byte b = true)
    by (intros b Hb; unfold is_byte; lia).
  destruct (cp <? 128) eqn:H1; [|destruct (cp <? 2048) eqn:H2;
    [|destruct (cp <? 65536) eqn:H3]];
    cbn [forallb length];
    rewrite ?Hb by by_division;
    (split; [reflexivity | split; [lia | intros; try reflexivity; lia]]).
Qed.

Lemma pair_code_facts (hi lo : char16) :
  isHigh hi = true -> isLow lo = true ->
  is_scalar (pair_code hi lo) = true /\ 65536 <= pair_code hi lo /\
  units_of (pair_code hi lo) = [hi; lo].
Proof.
  unfold is_scalar; unfold isHigh, isLow, isSurrogate, pair_code, units_of.
  intros Hh Hl. split; [lia | split; [lia|]].
  replace (65536 + (hi - 55296) * 1024 + (lo - 56320) <? 65536) with false
    by lia.
  f_equal; [|f_equal]; Z.div_mod_to_equations; lia.
Qed.

Lemma unit_scalar (c : char16) :
  is_unit c = true -> isSurrogate c = false ->
  is_scalar c = true /\ units_of c = [c] /\
  isHigh c = false /\ isLow c = false.
Proof.
  unfold is_scalar; unfold is_unit, isSurrogate, units_of, isHigh, isLow.
  intros H1 H2. replace (c <? 65536) with true by lia.
  repeat split; lia.
Qed.

(** Encoding a well-formed string and decoding the bytes, both without the
    byte-order-mark rule. *)
Lemma utf8_roundtrip_raw (s : jsstring) :
  wf16 s ->
  flat_map units_of
    (utf8_decode_from utf8_init (TextEncoder_encode s)) = s /\
  forallb is_byte (TextEncoder_encode s) = true /\
  (length s <= length (TextEncoder_encode s))%nat.
Proof.
  unfold TextEncoder_encode.
  induction 1 as [| c s Hc Hs _ (IH1 & IH2 & IH3)
                  | hi lo s Hh Hl _ (IH1 & IH2 & IH3)].
  - auto.
  - destruct (unit_scalar c Hc Hs) as (Hsc & Hu & Hhi & Hlo).
    cbn [code_points]. rewrite Hhi, Hlo. cbn [flat_map].
    rewrite (utf8_scalar c _ Hsc). cbn [flat_map]. rewrite Hu, IH1.
    destruct (utf8_bytes_facts c Hsc) as (Hb & Hlen & _).
    rewrite forallb_app, Hb, IH2, length_app. cbn [length app].
    repeat split; lia.
  - destruct (pair_code_facts hi lo Hh Hl) as (Hsc & Hbig & Hu).
    cbn [code_points]. rewrite Hh, Hl. cbn [flat_map].
    rewrite (utf8_scalar _ _ Hsc). cbn [flat_map]. rewrite Hu, IH1.
    destruct (utf8_bytes_facts _ Hsc) as (Hb & _ & Hlen).
    rewrite forallb_app, Hb, IH2, length_app, (Hlen Hbig). cbn [length app].
    repeat split; lia.
Qed.

Lemma utf8_decode_head (c : char16) (s : jsstring) :
  wf16 (c :: s) -> is_ascii c = true ->
  exists cps,
    utf8_decode_from utf8_init (TextEncoder_encode (c :: s)) = c :: cps.
Proof.
  intros _ Hc. unfold TextEncoder_encode. cbn [code_points].
  destruct (ascii_not_surrogate c Hc) as [-> ->]. cbn [flat_map].
  assert (Hsc : is_scalar c = true)
    by (unfold is_ascii, is_scalar, isSurrogate in *; lia).
  rewrite (utf8_scalar c _ Hsc). eauto.
Qed.

(** [TextDecoder] undoes [TextEncoder] on well-formed text that starts with
    an ASCII character (so not with a byte order mark). *)
Lemma utf8_roundtrip (c : char16) (s : jsstring) :
  wf16 (c :: s) -> is_ascii c = true ->
  TextDecoder_decode (TextEncoder_encode (c :: s)) = c :: s /\
  forallb is_byte (TextEncoder_encode (c :: s)) = true /\
  (length (c :: s) <= length (TextEncoder_encode (c :: s)))%nat.
Proof.
  intros Hwf Hc. destruct (utf8_roundtrip_raw _ Hwf) as (H1 & H2 & H3).
  split; [|split; assumption].
  unfold TextDecoder_decode.
  destruct (utf8_decode_head c s Hwf Hc) as [cps Hd].
  rewrite Hd in *.
  replace (c =? 65279) with false by (unfold is_ascii in Hc; lia).
  exact H1.
Qed.

End Utf8.

(* ================================================================== *)
(** ** JSON text read back: strings *)
(* ================================================================== *)

Section JsonStrings.
Import JSON.

Lemma list_ind_pairs {A} (P : list A -> Prop) :
  P [] -> (forall c, P [c]) ->
  (forall c d s, P s -> P (d :: s) -> P (c :: d :: s)) ->
  forall s, P s.
Proof.
  intros H0 H1 H2 s.
  assert (H : P s /\ forall c, P (c :: s)).
  { induction s as [|d s [IH1 IH2]]; auto. }
  apply H.
Qed.

Lemma hex_lower_value (v : Z) :
  0 <= v < 16 -> hex_value (hex_lower v) = Some v.
Proof.
  intros Hv.
  assert (H : (match hex_value (hex_lower v) with
               | Some w => w =? v
               | None => false
               end) = true).
  { revert v Hv. apply (forall_below _ 16). vm_compute. reflexivity. }
  destruct (hex_value (hex_lower v)); [|discriminate].
  apply Z.eqb_eq in H. now subst.
Qed.

(** What the parser does with the rest once it has read one character. *)
Definition after (c : char16) (r : option (jsstring * jsstring))
  : option (jsstring * jsstring) :=
  match r with
  | Some (str, rest) => Some (c :: str, rest)
  | None => None
  end.

Lemma parse_unicode_escape (c : char16) (t : jsstring) :
  is_unit c = true ->
  parse_string_body (unicode_escape c ++ t) = after c (parse_string_body t).
Proof.
  unfold is_unit. intros Hc. unfold unicode_escape.
  cbn [app parse_string_body]. change (92 =? 34) with false.
  change (92 =? 92) with true. change (117 =? 117) with true. cbv iota.
  unfold hex4. rewrite !hex_lower_value by by_division.
  replace (((c / 4096 * 16 + (c / 256) mod 16) * 16 + (c / 16) mod 16) * 16
           + c mod 16) with c by by_division.
  reflexivity.
Qed.

Lemma parse_short_escape (e u : char16) (t : jsstring) :
  (e =? 117) = false -> simple_escape e = Some u ->
  parse_string_body (92 :: e :: t) = after u (parse_string_body t).
Proof.
  intros He Hu. cbn [parse_string_body]. change (92 =? 34) with false.
  change (92 =? 92) with true. cbv iota. now rewrite He, Hu.
Qed.

Lemma parse_ordinary (c : char16) (t : jsstring) :
  (c =? 34) = false -> (c =? 92) = false -> (c <? 32) = false ->
  parse_string_body (c :: t) = after c (parse_string_body t).
Proof. intros H1 H2 H3. cbn [parse_string_body]. now rewrite H1, H2, H3. Qed.

Lemma surrogate_ordinary (c : char16) :
  isSurrogate c = true ->
  (c =? 34) = false /\ (c =? 92) = false /\ (c <? 32) = false.
Proof. unfold isSurrogate. lia. Qed.

Lemma high_low_surrogate (c : char16) :
  isHigh c = true \/ isLow c = true -> isSurrogate c = true.
Proof. unfold isHigh, isLow, isSurrogate. lia. Qed.

(** The first character of [quote_body]: how it is written, and that it is
    read back as itself. [k] is the number of code units it takes from the
    input (2 for a surrogate pair). *)
Lemma quote_body_head (c : char16) (s : jsstring) :
  is_unit c = true ->
  (exists w, quote_body (c :: s) = w ++ quote_body s /\
             forallb is_ascii w = true /\
             forall t, parse_string_body (w ++ t) = after c (parse_string_body t))
  \/ (isSurrogate c = false /\ (32 <=? c) = true /\
      quote_body (c :: s) = c :: quote_body s /\
      forall t, parse_string_body (c :: t) = after c (parse_string_body t))
  \/ (exists d s', s = d :: s' /\ isHigh c = true /\ isLow d = true /\
      quote_body (c :: s) = c :: d :: quote_body s' /\
      forall t, parse_string_body (c :: d :: t)
                = after c (after d (parse_string_body t))).
Proof.
  intros Hc. cbn [quote_body].
  destruct (c =? 8) eqn:E8.
  { left. exists [92; 98]. repeat split.
    intros t. apply Z.eqb_eq in E8. subst c.
    now apply parse_short_escape. }
  destruct (c =? 9) eqn:E9.
  { left. exists [92; 116]. repeat split.
    intros t. apply Z.eqb_eq in E9. subst c.
    now apply parse_short_escape. }
  destruct (c =? 10) eqn:E10.
  { left. exists [92; 110]. repeat split.
    intros t. apply Z.eqb_eq in E10. subst c.
    now apply parse_short_escape. }
  destruct (c =? 12) eqn:E12.
  { left. exists [92; 102]. repeat split.
    intros t. apply Z.eqb_eq in E12. subst c.
    now apply parse_short_escape. }
  destruct (c =? 13) eqn:E13.
  { left. exists [92; 114]. repeat split.
    intros t. apply Z.eqb_eq in E13. subst c.
    now apply parse_short_escape. }
  destruct (c =? 34) eqn:E34.
  { left. exists [92; 34]. repeat split.
    intros t. apply Z.eqb_eq in E34. subst c.
    now apply parse_short_escape. }
  destruct (c =? 92) eqn:E92.
  { left. exists [92; 92]. repeat split.
    intros t. apply Z.eqb_eq in E92. subst c.
    now apply parse_short_escape. }
  assert (Hesc : exists w, unicode_escape c = w /\ forallb is_ascii w = true /\
             forall t, parse_string_body (w ++ t) = after c (parse_string_body t)).
  { exists (unicode_escape c). split; [reflexivity|]. split.
    - unfold unicode_escape, hex_lower, is_ascii, is_unit in *. cbn [forallb].
      repeat match goal with
             | |- context [if ?b then _ else _] => destruct b
             end; by_division.
    - intros t. now apply parse_unicode_escape. }
  destruct Hesc as (w & Hw & Hascii & Hparse).
  destruct (c <? 32) eqn:E32.
  { left. exists w. rewrite Hw. auto. }
  destruct (isHigh c) eqn:Ehi.
  { destruct s as [|d s'].
    - left. exists w. rewrite Hw, app_nil_r. auto.
    - destruct (isLow d) eqn:Elo.
      + right. right. exists d, s'. repeat split; auto.
        intros t.
        destruct (surrogate_ordinary c (high_low_surrogate c (or_introl Ehi)))
          as (A1 & A2 & A3).
        destruct (surrogate_ordinary d (high_low_surrogate d (or_intror Elo)))
          as (B1 & B2 & B3).
        now rewrite (parse_ordinary c), (parse_ordinary d).
      + left. exists w. rewrite Hw. auto. }
  destruct (isLow c) eqn:Elo.
  { left. exists w. rewrite Hw. auto. }
  right. left. repeat split.
  - unfold isSurrogate, isHigh, isLow in *. lia.
  - lia.
  - intros t. now apply parse_ordinary.
Qed.

(** Reading a quoted string back: the string, and the input after the
    closing quote. *)
Lemma parse_quote_body (s : jsstring) :
  wf_string s = true ->
  forall rest, parse_string_body (quote_body s ++ 34 :: rest) = Some (s, rest).
Proof.
  unfold wf_string.
  induction s as [| c | c d s IH IHd] using list_ind_pairs; intros H rest.
  - reflexivity.
  - cbn [forallb] in H. apply andb_prop in H. destruct H as [Hc _].
    destruct (quote_body_head c [] Hc)
      as [(w & Hq & _ & Hp) | [(_ & _ & Hq & Hp) | (d & s' & Hs & _)]];
      [| |discriminate].
    + rewrite Hq, <- app_assoc, Hp. reflexivity.
    + rewrite Hq. cbn [app]. rewrite Hp. reflexivity.
  - pose proof H as H'. cbn [forallb] in H.
    apply andb_prop in H. destruct H as [Hc Hs].
    destruct (quote_body_head c (d :: s) Hc)
      as [(w & Hq & _ & Hp) | [(_ & _ & Hq & Hp) | (d' & s' & Hs' & _ & _ & Hq & Hp)]].
    + rewrite Hq, <- app_assoc, Hp, (IHd Hs). reflexivity.
    + rewrite Hq. cbn [app]. rewrite Hp, (IHd Hs). reflexivity.
    + injection Hs' as <- <-. rewrite Hq. cbn [app]. rewrite Hp.
      cbn [forallb] in Hs. apply andb_prop in Hs. destruct Hs as [_ Hs].
      rewrite (IH Hs). reflexivity.
Qed.

(** The quoted string is well-formed UTF-16, whatever the string. *)
Lemma quote_body_wf16 (s : jsstring) :
  wf_string s = true -> wf16 (quote_body s).
Proof.
  unfold wf_string.
  induction s as [| c | c d s IH IHd] using list_ind_pairs; intros H.
  - constructor.
  - cbn [forallb] in H. apply andb_prop in H. destruct H as [Hc _].
    destruct (quote_body_head c [] Hc)
      as [(w & Hq & Hw & _) | [(Hns & _ & Hq & _) | (d & s' & Hs & _)]];
      [| |discriminate].
    + rewrite Hq. apply wf16_app; [now apply wf16_ascii | constructor].
    + rewrite Hq. apply wf16_unit; auto. constructor.
  - cbn [forallb] in H. apply andb_prop in H. destruct H as [Hc Hs].
    destruct (quote_body_head c (d :: s) Hc)
      as [(w & Hq & Hw & _) | [(Hns & _ & Hq & _) | (d' & s' & Hs' & Hhi & Hlo & Hq & _)]].
    + rewrite Hq. apply wf16_app; [now apply wf16_ascii | now apply IHd].
    + rewrite Hq. apply wf16_unit; auto.
    + injection Hs' as <- <-. rewrite Hq. apply wf16_pair; auto.
      cbn [forallb] in Hs. apply andb_prop in Hs. destruct Hs as [_ Hs]. auto.
Qed.

Lemma quote_wf16 (s : jsstring) : wf_string s = true -> wf16 (quote s).
Proof.
  intros H. unfold quote. apply (wf16_app [34]).
  - now apply wf16_ascii.
  - apply wf16_app; [now apply quote_body_wf16 | now apply wf16_ascii].
Qed.

End JsonStrings.

(* ================================================================== *)
(** ** JSON text read back: numbers *)
(* ================================================================== *)

Section DecimalDigits.

(** Horner evaluation of a run of digits onto [acc]. *)
Definition horner (acc : Z) (ds : jsstring) : Z :=
  fold_left (fun a d => a * 10 + (d - 48)) ds acc.

Lemma take_digits_app (ds rest : jsstring) :
  forallb isDigit ds = true ->
  forall acc cnt,
  take_digits (ds ++ rest) acc cnt
  = take_digits rest (horner acc ds) (cnt + Z.of_nat (length ds)).
Proof.
  induction ds as [|d ds IH]; intros H acc cnt.
  - cbn. now rewrite Z.add_0_r.
  - cbn [forallb] in H. apply andb_prop in H. destruct H as [Hd Hds].
    cbn [app take_digits]. rewrite Hd, (IH Hds). cbn [horner fold_left length].
    f_equal. lia.
Qed.

Lemma take_digits_stop (c : char16) (rest : jsstring) (acc cnt : Z) :
  isDigit c = false -> take_digits (c :: rest) acc cnt = (acc, cnt, c :: rest).
Proof. intros H. cbn. now rewrite H. Qed.

Lemma horner_app (ds1 ds2 : jsstring) (acc : Z) :
  horner acc (ds1 ++ ds2) = horner (horner acc ds1) ds2.
Proof. apply fold_left_app. Qed.

Lemma pow10_succ (n : nat) : 10 ^ Z.of_nat (S n) = 10 * 10 ^ Z.of_nat n.
Proof. rewrite Nat2Z.inj_succ. apply Z.pow_succ_r. lia. Qed.

Lemma horner_zeros (j : nat) (acc : Z) :
  horner acc (repeat 48 j) = acc * 10 ^ Z.of_nat j.
Proof.
  revert acc. induction j as [|j IH]; intros acc.
  - cbn. lia.
  - cbn [repeat horner fold_left]. fold (horner (acc * 10 + (48 - 48)) (repeat 48 j)).
    rewrite IH, pow10_succ. lia.
Qed.

Lemma zeros_digits (j : nat) : forallb isDigit (repeat 48 j) = true.
Proof. induction j; [reflexivity | exact IHj]. Qed.

Lemma decimal_fuel_acc (f : nat) :
  forall z acc, decimal_fuel f z acc = decimal_fuel f z [] ++ acc.
Proof.
  induction f as [|f IH]; intros z acc; [reflexivity|].
  cbn [decimal_fuel]. destruct (z <? 10); [reflexivity|].
  rewrite IH, (IH _ [_]), <- app_assoc. reflexivity.
Qed.

(** The digits of [z]: all digits, at least one, worth [z], and without a
    leading zero when [z] is positive. *)
Definition digits_of (z : Z) (ds : jsstring) : Prop :=
  forallb isDigit ds = true /\
  (forall a, horner a ds = a * 10 ^ Z.of_nat (length ds) + z) /\
  (1 <= length ds)%nat /\
  (0 < z -> exists d t, ds = d :: t /\ 49 <= d <= 57).

Lemma decimal_fuel_digits (f : nat) :
  forall z, 0 <= z < 2 ^ Z.of_nat f -> (1 <= f)%nat ->
  digits_of z (decimal_fuel f z []).
Proof.
  induction f as [|f IH]; intros z Hz Hf; [lia|].
  cbn [decimal_fuel]. destruct (z <? 10) eqn:Hlt.
  - unfold digits_of, isDigit. cbn [forallb length horner fold_left].
    repeat split; try lia.
    intros Hpos. exists (48 + z), []. split; [reflexivity | lia].
  - rewrite decimal_fuel_acc.
    assert (Hq : 0 <= z / 10 < 2 ^ Z.of_nat f).
    { rewrite Nat2Z.inj_succ, Z.pow_succ_r in Hz by lia. by_division. }
    assert (Hf' : (1 <= f)%nat).
    { destruct f; [|lia]. cbn in Hq. by_division. }
    destruct (IH (z / 10) Hq Hf') as (D1 & D2 & D3 & D4).
    unfold digits_of. rewrite forallb_app, D1, length_app.
    cbn [forallb length]. repeat split.
    + unfold isDigit. by_division.
    + intros a. rewrite horner_app, D2. cbn [horner fold_left].
      replace (length (decimal_fuel f (z / 10) []) + 1)%nat
        with (S (length (decimal_fuel f (z / 10) []))) by lia.
      rewrite pow10_succ. by_division.
    + lia.
    + intros _. destruct D4 as (d & t & Hd & Hr); [by_division|].
      exists d, (t ++ [48 + z mod 10]). rewrite Hd. auto.
Qed.

Lemma decimal_digits (z : Z) : 0 <= z -> digits_of z (decimal z).
Proof.
  intros Hz. unfold decimal. apply decimal_fuel_digits; [|lia].
  rewrite Nat2Z.inj_succ, Z2Nat.id by apply Z.log2_nonneg.
  split; [exact Hz|].
  destruct (Z.eq_dec z 0) as [->|Hnz]; [reflexivity|].
  apply Z.log2_spec. lia.
Qed.

Lemma horner_decimal (z : Z) :
  0 <= z -> horner 0 (decimal z) = z.
Proof. intros Hz. destruct (decimal_digits z Hz) as (_ & H & _). now rewrite H. Qed.

End DecimalDigits.

Section NumberText.
Import JSON.

(** The characters that may follow a value inside an array or an object. *)
Definition is_delim (c : char16) : bool := (c =? 44) || (c =? 93) || (c =? 125).

(** The three stages of [parse_number] after the sign. *)
Definition int_part (s1 : jsstring) : option (Z * jsstring) :=
  match s1 with
  | d :: s2 =>
      if d =? 48 then Some (0, s2)
      else if isDigit d then
        let '(i, _, rest) := take_digits s1 0 0 in Some (i, rest)
      else None
  | [] => None
  end.

Definition frac_part (i : Z) (s3 : jsstring) : option (Z * Z * jsstring) :=
  match eat 46 s3 with
  | Some s4 =>
      let '(f, cf, s5) := take_digits s4 i 0 in
      if 0 <? cf then Some (f, cf, s5) else None
  | None => Some (i, 0, s3)
  end.

Definition parse_after_sign (neg : bool) (s1 : jsstring)
  : option (number * jsstring) :=
  match int_part s1 with
  | None => None
  | Some (i, s3) =>
      match frac_part i s3 with
      | None => None
      | Some (f, cf, s5) =>
          match take_exponent s5 with
          | Some (e, rest) => Some (round_decimal neg f (e - cf), rest)
          | None => None
          end
      end
  end.

Lemma parse_number_minus (u : jsstring) :
  parse_number (45 :: u) = parse_after_sign true u.
Proof. reflexivity. Qed.

Lemma parse_number_digit (d : char16) (u : jsstring) :
  isDigit d = true -> parse_number (d :: u) = parse_after_sign false (d :: u).
Proof.
  intros Hd. unfold parse_number, eat.
  replace (d =? 45) with false by (unfold isDigit in Hd; lia). reflexivity.
Qed.

Lemma parse_stages (neg : bool) (s1 s3 s5 rest : jsstring) (i f cf e F E : Z) :
  int_part s1 = Some (i, s3) -> frac_part i s3 = Some (f, cf, s5) ->
  take_exponent s5 = Some (e, rest) -> f = F -> e - cf = E ->
  parse_after_sign neg s1 = Some (round_decimal neg F E, rest).
Proof.
  intros H1 H2 H3 <- <-. unfold parse_after_sign. now rewrite H1, H2, H3.
Qed.

Lemma int_digits (d : char16) (t u : jsstring) (c : char16) :
  49 <= d <= 57 -> forallb isDigit (d :: t) = true -> isDigit c = false ->
  int_part ((d :: t) ++ c :: u) = Some (horner 0 (d :: t), c :: u).
Proof.
  intros Hd Hds Hc. unfold int_part. cbn [app].
  replace (d =? 48) with false by lia.
  replace (isDigit d) with true by (unfold isDigit; lia).
  change (d :: t ++ c :: u) with ((d :: t) ++ c :: u).
  rewrite take_digits_app by exact Hds. now rewrite take_digits_stop.
Qed.

Lemma frac_none (i : Z) (c : char16) (u : jsstring) :
  (c =? 46) = false -> frac_part i (c :: u) = Some (i, 0, c :: u).
Proof. intros H. unfold frac_part, eat. now rewrite H. Qed.

Lemma frac_digits (i : Z) (ds u : jsstring) (c : char16) :
  forallb isDigit ds = true -> (1 <= length ds)%nat -> isDigit c = false ->
  frac_part i (46 :: ds ++ c :: u)
  = Some (horner i ds, Z.of_nat (length ds), c :: u).
Proof.
  intros Hds Hlen Hc. unfold frac_part, eat. change (46 =? 46) with true.
  cbv iota. rewrite take_digits_app by exact Hds.
  rewrite take_digits_stop by exact Hc.
  replace (0 <? 0 + Z.of_nat (length ds)) with true by lia.
  reflexivity.
Qed.

Lemma exp_none (c : char16) (u : jsstring) :
  (c =? 101) = false -> (c =? 69) = false ->
  take_exponent (c :: u) = Some (0, c :: u).
Proof. intros H1 H2. unfold take_exponent. now rewrite H1, H2. Qed.

Lemma exp_signed (x : Z) (c : char16) (u : jsstring) :
  isDigit c = false ->
  take_exponent (101 :: (if 0 <=? x then 43 else 45) :: decimal (Z.abs x) ++ c :: u)
  = Some (x, c :: u).
Proof.
  intros Hc. unfold take_exponent. change (101 =? 101) with true.
  cbv iota beta. cbn [orb].
  destruct (decimal_digits (Z.abs x) (Z.abs_nonneg x)) as (D1 & D2 & D3 & _).
  destruct (0 <=? x) eqn:Hx; unfold eat.
  - change (43 =? 43) with true. cbv iota beta.
    rewrite take_digits_app by exact D1. rewrite take_digits_stop by exact Hc.
    replace (0 <? 0 + Z.of_nat (length (decimal (Z.abs x)))) with true by lia.
    rewrite D2. do 2 f_equal. lia.
  - change (45 =? 43) with false. change (45 =? 45) with true. cbv iota beta.
    rewrite take_digits_app by exact D1. rewrite take_digits_stop by exact Hc.
    replace (0 <? 0 + Z.of_nat (length (decimal (Z.abs x)))) with true by lia.
    rewrite D2. do 2 f_equal. lia.
Qed.

Lemma delim_facts (c : char16) :
  is_delim c = true ->
  isDigit c = false /\ (c =? 46) = false /\ (c =? 101) = false /\
  (c =? 69) = false /\ isJsonWs c = false.
Proof. unfold is_delim, isDigit, isJsonWs. lia. Qed.

Lemma round_decimal_scaled (neg : bool) (s j : Z) :
  0 < s -> 0 <= j ->
  round_decimal neg (s * 10 ^ j) 0 = round_decimal neg s j.
Proof.
  intros Hs Hj. unfold round_decimal.
  assert (Hp : 0 < s * 10 ^ j) by (apply Z.mul_pos_pos; [lia | apply Z.pow_pos_nonneg; lia]).
  destruct s as [|p|p]; try lia.
  destruct (Z.pos p * 10 ^ j) as [|q|q] eqn:Hq; try lia.
  replace (0 <=? j) with true by lia. change (0 <=? 0) with true. cbv iota.
  now rewrite Z.pow_0_r, Z.mul_1_r.
Qed.

(** Reading the digits laid out by Number::toString gives the decimal they
    stand for, rounded. *)
Lemma parse_layout (neg : bool) (s n : Z) (c : char16) (rest : jsstring) :
  0 < s -> is_delim c = true ->
  parse_after_sign neg (layout s n ++ c :: rest)
  = Some (round_decimal neg s (n - digits_count s), c :: rest).
Proof.
  intros Hs Hc.
  destruct (delim_facts c Hc) as (Cd & C46 & C101 & C69 & _).
  destruct (decimal_digits s (Z.lt_le_incl _ _ Hs)) as (D1 & D2 & D3 & D4).
  destruct (D4 Hs) as (d & t & Hds & Hd).
  assert (Hval : horner 0 (decimal s) = s) by (rewrite D2; lia).
  unfold layout, digits_count. cbv zeta.
  set (k := Z.of_nat (length (decimal s))) in *.
  destruct ((k <=? n) && (n <=? 21)) eqn:K1.
  { (* digits and zeros *)
    rewrite <- app_assoc.
    rewrite <- (round_decimal_scaled neg s (n - k)) by lia.
    assert (Hall : forallb isDigit (decimal s ++ zeros (n - k)) = true)
      by (rewrite forallb_app, D1; apply zeros_digits).
    assert (Hv : horner 0 (decimal s ++ zeros (n - k)) = s * 10 ^ (n - k)).
    { rewrite horner_app, Hval. unfold zeros. rewrite horner_zeros.
      rewrite Z2Nat.id by lia. reflexivity. }
    rewrite app_assoc. revert Hall Hv. rewrite Hds. cbn [app]. intros Hall Hv.
    eapply parse_stages.
    - apply (int_digits d (t ++ zeros (n - k))); assumption.
    - now apply frac_none.
    - now apply exp_none.
    - exact Hv.
    - reflexivity. }
  destruct ((0 <? n) && (n <=? 21)) eqn:K2.
  { (* digits, point, digits *)
    assert (Hn : (Z.to_nat n < length (decimal s))%nat) by lia.
    assert (Hfirst : exists t1, firstn (Z.to_nat n) (decimal s) = d :: t1).
    { rewrite Hds. destruct (Z.to_nat n) eqn:E; [lia|]. cbn. eauto. }
    destruct Hfirst as [t1 Ht1].
    assert (Hsplit : decimal s = firstn (Z.to_nat n) (decimal s)
                                 ++ skipn (Z.to_nat n) (decimal s))
      by (symmetry; apply firstn_skipn).
    assert (Hd1 : forallb isDigit (firstn (Z.to_nat n) (decimal s)) = true /\
                  forallb isDigit (skipn (Z.to_nat n) (decimal s)) = true).
    { rewrite Hsplit, forallb_app in D1. now apply andb_prop in D1. }
    destruct Hd1 as [Hd1 Hd2].
    assert (Hlen2 : Z.of_nat (length (skipn (Z.to_nat n) (decimal s))) = k - n)
      by (rewrite length_skipn; lia).
    assert (Hv : horner (horner 0 (firstn (Z.to_nat n) (decimal s)))
                        (skipn (Z.to_nat n) (decimal s)) = s)
      by (rewrite <- horner_app, <- Hsplit; exact Hval).
    rewrite <- app_assoc. cbn [app].
    revert Hd1 Hv. rewrite Ht1. intros Hd1 Hv.
    eapply parse_stages.
    - apply (int_digits d t1); [assumption | assumption | reflexivity].
    - apply frac_digits; [exact Hd2 | lia | assumption].
    - now apply exp_none.
    - exact Hv.
    - lia. }
  destruct ((-6 <? n) && (n <=? 0)) eqn:K3.
  { (* zero, point, zeros, digits *)
    cbn [app]. rewrite <- app_assoc.
    assert (Hall : forallb isDigit (zeros (- n) ++ decimal s) = true)
      by (rewrite forallb_app, D1, andb_true_r; apply zeros_digits).
    assert (Hlen : Z.of_nat (length (zeros (- n) ++ decimal s)) = k - n).
    { rewrite length_app. unfold zeros. rewrite repeat_length. lia. }
    assert (Hv : horner 0 (zeros (- n) ++ decimal s) = s).
    { rewrite horner_app. unfold zeros. rewrite horner_zeros.
      cbn [Z.mul]. exact Hval. }
    rewrite app_assoc.
    eapply parse_stages.
    - reflexivity.
    - apply frac_digits; [exact Hall | | assumption].
      rewrite length_app. lia.
    - now apply exp_none.
    - exact Hv.
    - lia. }
  (* exponent notation *)
  rewrite Hds. destruct t as [|d2 t2].
  - assert (Hk : k = 1) by (subst k; rewrite Hds; reflexivity).
    assert (Hv : horner 0 [d] = s) by (rewrite <- Hds; exact Hval).
    cbn [app].
    eapply parse_stages.
    + apply (int_digits d [] _ 101); [assumption | | reflexivity].
      rewrite <- Hds. exact D1.
    + now apply frac_none.
    + apply (exp_signed (n - 1)). assumption.
    + exact Hv.
    + lia.
  - assert (Hk : k = Z.of_nat (length (d :: d2 :: t2)))
      by (subst k; rewrite Hds; reflexivity).
    assert (Hv : horner (horner 0 [d]) (d2 :: t2) = s)
      by (rewrite <- Hval, Hds; reflexivity).
    assert (Hdd : forallb isDigit [d] = true /\
                  forallb isDigit (d2 :: t2) = true).
    { rewrite Hds in D1. cbn [forallb] in *.
      apply andb_prop in D1. destruct D1 as [-> ->]. auto. }
    destruct Hdd as [Hdd1 Hdd2].
    cbn [app]. rewrite <- app_assoc.
    eapply parse_stages.
    + apply (int_digits d [] _ 46); [assumption | assumption | reflexivity].
    + apply (frac_digits (horner 0 [d]) (d2 :: t2)
               ((if 0 <=? n - 1 then 43 else 45)
                :: decimal (Z.abs (n - 1)) ++ c :: rest) 101);
        [exact Hdd2 | cbn [length]; lia | reflexivity].
    + apply (exp_signed (n - 1)). assumption.
    + exact Hv.
    + rewrite Hk. cbn [length]. lia.
Qed.

End NumberText.

(* ================================================================== *)
(** ** Rounding a value that is already a binary64 number *)
(* ================================================================== *)

Section ExactRounding.

Lemma fexp_eq (z : Z) : fexp prec emax z = Z.max (z - 53) (-1074).
Proof. reflexivity. Qed.

(** The number of binary digits: [2^(d-1) <= p < 2^d]. *)
Lemma digits2_bounds (p : positive) :
  2 ^ (Zpos (digits2_pos p) - 1) <= Zpos p < 2 ^ Zpos (digits2_pos p).
Proof.
  induction p as [p IH | p IH |]; cbn [digits2_pos].
  - rewrite Pos2Z.inj_succ.
    replace (Z.succ (Zpos (digits2_pos p)) - 1)
      with (Z.succ (Zpos (digits2_pos p) - 1)) by lia.
    rewrite !Z.pow_succ_r by lia. lia.
  - rewrite Pos2Z.inj_succ.
    replace (Z.succ (Zpos (digits2_pos p)) - 1)
      with (Z.succ (Zpos (digits2_pos p) - 1)) by lia.
    rewrite !Z.pow_succ_r by lia. lia.
  - cbn. lia.
Qed.

Lemma digits2_shift (j : nat) (m : positive) :
  Zpos (digits2_pos (shift_nat j m)) = Zpos (digits2_pos m) + Z.of_nat j.
Proof.
  induction j as [|j IH]; [cbn; lia|].
  cbn [shift_nat nat_rect digits2_pos]. change (nat_rect _ m (fun _ => xO) j) with (shift_nat j m).
  rewrite Pos2Z.inj_succ, IH. lia.
Qed.

Lemma shift_nat_value (j : nat) (m : positive) :
  Zpos (shift_nat j m) = Zpos m * 2 ^ Z.of_nat j.
Proof.
  induction j as [|j IH]; [cbn; lia|].
  cbn [shift_nat nat_rect]. change (nat_rect _ m (fun _ => xO) j) with (shift_nat j m).
  rewrite Pos2Z.inj_xO, IH, Nat2Z.inj_succ, Z.pow_succ_r by lia. lia.
Qed.

Lemma iter_pos_nat {A} (f : A -> A) (p : positive) :
  forall x, iter_pos f p x = Nat.iter (Pos.to_nat p) f x.
Proof.
  induction p as [p IH | p IH |]; intros x; cbn [iter_pos].
  - rewrite !IH, Pos2Nat.inj_xI.
    replace (S (2 * Pos.to_nat p)) with (Pos.to_nat p + Pos.to_nat p + 1)%nat
      by lia.
    rewrite !Nat.iter_add. reflexivity.
  - rewrite !IH, Pos2Nat.inj_xO.
    replace (2 * Pos.to_nat p)%nat with (Pos.to_nat p + Pos.to_nat p)%nat by lia.
    rewrite Nat.iter_add. reflexivity.
  - reflexivity.
Qed.

Lemma shr_shifted (j : nat) (m : positive) :
  Nat.iter j shr_1 {| shr_m := Zpos (shift_nat j m); shr_r := false; shr_s := false |}
  = {| shr_m := Zpos m; shr_r := false; shr_s := false |}.
Proof.
  induction j as [|j IH]; [reflexivity|].
  rewrite Nat.iter_succ_r. cbn [shift_nat nat_rect shr_1 orb].
  exact IH.
Qed.

(** A mantissa carrying [j] spare zero bits rounds to itself. *)
Lemma round_exact (sx : bool) (m : positive) (e : Z) (j : nat) :
  bounded prec emax m e = true ->
  binary_round_aux prec emax sx (Zpos (shift_nat j m)) (e - Z.of_nat j) loc_Exact
  = S754_finite sx m e.
Proof.
  unfold bounded, canonical_mantissa. intros H.
  apply andb_prop in H. destruct H as [Hc He].
  apply Z.eqb_eq in Hc.
  assert (Hstep1 :
    shr_fexp prec emax (Zpos (shift_nat j m)) (e - Z.of_nat j) loc_Exact
    = ({| shr_m := Zpos m; shr_r := false; shr_s := false |}, e)).
  { unfold shr_fexp. cbn [Zdigits2 shr_record_of_loc].
    rewrite digits2_shift.
    replace (Zpos (digits2_pos m) + Z.of_nat j + (e - Z.of_nat j))
      with (Zpos (digits2_pos m) + e) by lia.
    rewrite Hc.
    replace (e - (e - Z.of_nat j)) with (Z.of_nat j) by lia.
    destruct j as [|j].
    - cbn [Z.of_nat shr shift_nat nat_rect]. f_equal. lia.
    - unfold shr.
      change (Z.of_nat (S j)) with (Zpos (Pos.of_succ_nat j)).
      cbv iota. rewrite iter_pos_nat, SuccNat2Pos.id_succ, shr_shifted.
      f_equal. lia. }
  assert (Hstep2 :
    shr_fexp prec emax (Zpos m) e loc_Exact
    = ({| shr_m := Zpos m; shr_r := false; shr_s := false |}, e)).
  { unfold shr_fexp. cbn [Zdigits2 shr_record_of_loc].
    rewrite Hc, Z.sub_diag. reflexivity. }
  unfold binary_round_aux. rewrite Hstep1.
  cbn [shr_m loc_of_shr_record round_nearest_even].
  rewrite Hstep2. cbn [shr_m]. now rewrite He.
Qed.

Lemma bounded_facts (m : positive) (e : Z) :
  bounded prec emax m e = true ->
  Z.max (Zpos (digits2_pos m) + e - 53) (-1074) = e /\ e <= 971.
Proof.
  unfold bounded, canonical_mantissa. intros H.
  apply andb_prop in H. destruct H as [Hc He].
  apply Z.eqb_eq in Hc. rewrite fexp_eq in Hc.
  split; [exact Hc|]. apply Z.leb_le in He. exact He.
Qed.

(** An integer that is a binary64 number rounds to it. *)
Lemma round_integer_exact (neg : bool) (m : positive) (e : Z) :
  bounded prec emax m e = true -> 0 <= e ->
  round_decimal neg (Zpos m * 2 ^ e) 0 = S754_finite neg m e.
Proof.
  intros Hb He. destruct (bounded_facts m e Hb) as [Hc _].
  rewrite <- (Z2Nat.id e) at 1 by exact He.
  rewrite <- shift_nat_value.
  unfold round_decimal. change (0 <=? 0) with true. cbv iota.
  rewrite Z.pow_0_r, Z.mul_1_r.
  assert (Hn : binary_normalize prec emax
                 (cond_Zopp neg (Zpos (shift_nat (Z.to_nat e) m))) 0 false
               = binary_round prec emax neg (shift_nat (Z.to_nat e) m) 0)
    by (destruct neg; reflexivity).
  rewrite Hn. unfold binary_round.
  rewrite digits2_shift, Z2Nat.id, Z.add_0_r, fexp_eq by exact He.
  rewrite Hc. unfold shl_align. rewrite Z.sub_0_r.
  destruct e as [|pe|pe]; try lia.
  - apply (round_exact neg m 0 0). exact Hb.
  - rewrite <- (round_exact neg m (Zpos pe) (Z.to_nat (Zpos pe)) Hb).
    f_equal. lia.
Qed.

Lemma pow2_lt_exponents (a b : Z) : 0 <= a -> 0 <= b -> 2 ^ a < 2 ^ b -> a < b.
Proof. intros Ha Hb H. apply (Z.pow_lt_mono_r_iff 2); lia. Qed.

(** The digit counts of [m * 5^k] and [10^k] differ by the digits of [m]
    less [k], or one less. *)
Lemma digits_of_quotient (m : positive) (k : Z) (M1 M2 : positive) :
  0 <= k -> Zpos M1 = Zpos m * 5 ^ k -> Zpos M2 = 10 ^ k ->
  Zpos (digits2_pos m) - k - 1
  <= Zpos (digits2_pos M1) - Zpos (digits2_pos M2)
  <= Zpos (digits2_pos m) - k.
Proof.
  intros Hk H1 H2.
  pose proof (digits2_bounds m) as Bm.
  pose proof (digits2_bounds M1) as B1.
  pose proof (digits2_bounds M2) as B2.
  set (dm := Zpos (digits2_pos m)) in *.
  set (d1 := Zpos (digits2_pos M1)) in *.
  set (d2 := Zpos (digits2_pos M2)) in *.
  assert (Hdm : 1 <= dm) by (subst dm; lia).
  assert (Hd1 : 1 <= d1) by (subst d1; lia).
  assert (Hd2 : 1 <= d2) by (subst d2; lia).
  assert (H10 : Zpos m * Zpos M2 = Zpos M1 * 2 ^ k).
  { rewrite H1, H2. replace 10 with (5 * 2) by reflexivity.
    rewrite Z.pow_mul_l. ring. }
  assert (P2k : 0 < 2 ^ k) by (apply Z.pow_pos_nonneg; lia).
  split.
  - (* 2^(dm-1) * 2^(d2-1) <= m * 10^k = M1 * 2^k < 2^d1 * 2^k *)
    assert (Hlo : 2 ^ (dm - 1 + (d2 - 1)) <= Zpos m * Zpos M2).
    { rewrite Z.pow_add_r by lia.
      apply Z.mul_le_mono_nonneg; try lia; apply Z.pow_nonneg; lia. }
    assert (Hhi : Zpos M1 * 2 ^ k < 2 ^ (d1 + k)).
    { rewrite Z.pow_add_r by lia. apply Z.mul_lt_mono_pos_r; lia. }
    assert (Hlt : dm - 1 + (d2 - 1) < d1 + k)
      by (apply pow2_lt_exponents; lia).
    lia.
  - assert (Hlo : 2 ^ (d1 - 1 + k) <= Zpos M1 * 2 ^ k).
    { rewrite Z.pow_add_r by lia. apply Z.mul_le_mono_pos_r; lia. }
    assert (Hhi : Zpos m * Zpos M2 < 2 ^ (dm + d2)).
    { rewrite Z.pow_add_r by lia.
      apply Z.mul_lt_mono_nonneg; lia. }
    assert (Hlt : d1 - 1 + k < dm + d2)
      by (apply pow2_lt_exponents; lia).
    lia.
Qed.

(** A quotient of integers that is a binary64 number divides to it. *)
Lemma divide_exact (neg : bool) (m : positive) (e : Z) (M1 M2 : positive) :
  bounded prec emax m e = true -> e < 0 ->
  Zpos M1 = Zpos m * 5 ^ (- e) -> Zpos M2 = 10 ^ (- e) ->
  SFdiv prec emax (S754_finite neg M1 0) (S754_finite false M2 0)
  = S754_finite neg m e.
Proof.
  intros Hb He H1 H2. destruct (bounded_facts m e Hb) as [Hc _].
  pose proof (digits_of_quotient m (- e) M1 M2 ltac:(lia) H1 H2) as HD.
  set (D := Zpos (digits2_pos M1) - Zpos (digits2_pos M2)) in *.
  set (e' := Z.max (D - 53) (-1074)).
  assert (He' : e - 1 <= e' <= e) by (subst e'; lia).
  assert (Hj : exists j : nat, e' = e - Z.of_nat j /\ (j <= 1)%nat).
  { exists (Z.to_nat (e - e')). split; lia. }
  destruct Hj as (j & Hje & Hj1).
  assert (Hq : Zpos M1 * 2 ^ (- e') = Zpos (shift_nat j m) * Zpos M2).
  { rewrite shift_nat_value, H1, H2.
    replace (- e') with (- e + Z.of_nat j) by lia.
    rewrite Z.pow_add_r by lia.
    replace 10 with (5 * 2) by reflexivity. rewrite Z.pow_mul_l. ring. }
  assert (Hcore :
    SFdiv_core_binary prec emax (Zpos M1) 0 (Zpos M2) 0
    = (Zpos (shift_nat j m), e', loc_Exact)).
  { unfold SFdiv_core_binary. cbn [Zdigits2].
    rewrite !Z.add_0_r, fexp_eq. fold D. fold e'.
    change (0 - 0) with 0. rewrite Z.min_l by lia.
    replace (0 - e') with (- e') by lia.
    assert (Hs : 0 < - e') by lia.
    destruct (- e') as [|ps|ps] eqn:Es; try lia.
    rewrite Z.shiftl_mul_pow2 by lia. rewrite Hq.
    pose proof (Z.div_mul (Zpos (shift_nat j m)) (Zpos M2) ltac:(lia)) as Hdiv.
    pose proof (Z.mod_mul (Zpos (shift_nat j m)) (Zpos M2) ltac:(lia)) as Hmod.
    unfold Z.div in Hdiv. unfold Z.modulo in Hmod.
    destruct (Z.div_eucl (Zpos (shift_nat j m) * Zpos M2) (Zpos M2))
      as [q r].
    subst q r.
    unfold new_location, new_location_even, new_location_odd.
    destruct (Z.even (Zpos M2)); reflexivity. }
  unfold SFdiv. rewrite Hcore. rewrite xorb_false_r, Hje.
  apply round_exact. exact Hb.
Qed.

(** The exact decimal expansion reads back as the number. *)
Lemma exact_digits_read_back (neg : bool) (m : positive) (e : Z) :
  bounded prec emax m e = true ->
  0 < fst (exact_digits m e) /\
  round_decimal neg (fst (exact_digits m e))
    (snd (exact_digits m e) - digits_count (fst (exact_digits m e)))
  = S754_finite neg m e.
Proof.
  intros Hb. unfold exact_digits. destruct (0 <=? e) eqn:He.
  - cbn [fst snd].
    assert (Hp : 0 < Zpos m * 2 ^ e)
      by (apply Z.mul_pos_pos; [lia | apply Z.pow_pos_nonneg; lia]).
    split; [exact Hp|].
    replace (0 + digits_count (Zpos m * 2 ^ e) - digits_count (Zpos m * 2 ^ e))
      with 0 by lia.
    apply round_integer_exact; [exact Hb | lia].
  - cbn [fst snd].
    assert (Hp : 0 < Zpos m * 5 ^ (- e))
      by (apply Z.mul_pos_pos; [lia | apply Z.pow_pos_nonneg; lia]).
    assert (Hp10 : 0 < 10 ^ (- e)) by (apply Z.pow_pos_nonneg; lia).
    split; [exact Hp|].
    replace (e + digits_count (Zpos m * 5 ^ (- e)) - digits_count (Zpos m * 5 ^ (- e)))
      with e by lia.
    unfold round_decimal.
    destruct (Zpos m * 5 ^ (- e)) as [|M1|M1] eqn:E1; try lia.
    rewrite He.
    apply divide_exact; [exact Hb | lia | | ].
    + rewrite <- E1. reflexivity.
    + rewrite Z2Pos.id by exact Hp10. reflexivity.
Qed.

End ExactRounding.

Section NumberRoundTrip.
Import JSON.

Lemma filter_head {A} (p : A -> bool) (l : list A) (x : A) (r : list A) :
  filter p l = x :: r -> p x = true.
Proof.
  intros H. assert (Hin : In x (filter p l)) by (rewrite H; now left).
  apply filter_In in Hin. apply Hin.
Qed.

Lemma shortest_from_reads (fuel : nat) (neg : bool) (m : positive) (e : Z)
  (num den n : Z) :
  forall k s n',
  shortest_from fuel neg m e num den n k = Some (s, n') ->
  0 < s /\ reads_back neg m e s n' = true.
Proof.
  induction fuel as [|f IH]; intros k s n' H; [discriminate|].
  cbn [shortest_from] in H.
  destruct (candidates neg m e num den n k) as [|sn l] eqn:Hc.
  - eapply IH. exact H.
  - injection H as ->. unfold candidates in Hc. apply filter_head in Hc.
    cbn [fst snd] in Hc.
    repeat (apply andb_prop in Hc; destruct Hc as [Hc ?]).
    split; [lia | assumption].
Qed.

Lemma reads_back_sound (neg : bool) (m : positive) (e s n : Z) :
  reads_back neg m e s n = true ->
  round_decimal neg s (n - digits_count s) = S754_finite neg m e.
Proof.
  unfold reads_back.
  destruct (round_decimal neg s (n - digits_count s)) as [| | |sg m1 e1];
    try discriminate.
  intros H. apply andb_prop in H. destruct H as [H He].
  apply andb_prop in H. destruct H as [Hs Hm].
  apply Bool.eqb_prop in Hs. apply Pos.eqb_eq in Hm. apply Z.eqb_eq in He.
  now subst.
Qed.

(** The digits Number::toString chooses read back as the number. *)
Lemma shortest_digits_read_back (neg : bool) (m : positive) (e : Z) :
  bounded prec emax m e = true ->
  0 < fst (shortest_digits neg m e) /\
  round_decimal neg (fst (shortest_digits neg m e))
    (snd (shortest_digits neg m e) - digits_count (fst (shortest_digits neg m e)))
  = S754_finite neg m e.
Proof.
  intros Hb. unfold shortest_digits. destruct (ratio_of m e) as [num den].
  destruct (shortest_from 17 neg m e num den (magnitude num den) 1)
    as [[s n]|] eqn:Hs.
  - apply shortest_from_reads in Hs. destruct Hs as [Hpos Hr].
    cbn [fst snd]. split; [exact Hpos | now apply reads_back_sound].
  - now apply exact_digits_read_back.
Qed.

Lemma parse_number_unsigned (u : jsstring) (r : number * jsstring) :
  parse_after_sign false u = Some r -> parse_number u = Some r.
Proof.
  destruct u as [|d t]; [discriminate|].
  intros H. unfold parse_number, eat. destruct (d =? 45) eqn:Hd; [|exact H].
  apply Z.eqb_eq in Hd. subst d. discriminate H.
Qed.

(** A finite number other than [-0], written by Number::toString and
    followed by a delimiter, is read back by the JSON number parser. *)
Lemma parse_number_toString (x : number) (c : char16) (rest : jsstring) :
  JSNumber.wf x = true -> isFinite x = true -> settled x = true ->
  is_delim c = true ->
  parse_number (JSNumber.toString x ++ c :: rest) = Some (x, c :: rest).
Proof.
  intros Hwf Hfin Hset Hc.
  destruct (delim_facts c Hc) as (Cd & C46 & C101 & C69 & _).
  destruct x as [[|]| | |neg m e]; try discriminate.
  - apply parse_number_unsigned. cbn [JSNumber.toString lit app].
    change (lit "0" ++ c :: rest) with (48 :: c :: rest).
    apply (parse_stages false (48 :: c :: rest) (c :: rest) (c :: rest)
             (c :: rest) 0 0 0 0 0 0); try reflexivity.
    + now apply frac_none.
    + now apply exp_none.
  - unfold JSNumber.wf in Hwf. cbn [valid_binary] in Hwf.
    destruct (shortest_digits_read_back neg m e Hwf) as [Hpos Hread].
    unfold JSNumber.toString.
    destruct (shortest_digits neg m e) as [s n]. cbn [fst snd] in *.
    rewrite <- Hread. destruct neg.
    + cbn [app]. rewrite parse_number_minus. now apply parse_layout.
    + cbn [app]. apply parse_number_unsigned. now apply parse_layout.
Qed.

Lemma layout_ascii (s n : Z) : 0 <= s -> forallb is_ascii (layout s n) = true.
Proof.
  intros Hs.
  assert (Hd : forall z, 0 <= z -> forallb is_ascii (decimal z) = true).
  { intros z Hz. destruct (decimal_digits z Hz) as (D1 & _).
    clear -D1. induction (decimal z) as [|d ds IH]; [reflexivity|].
    cbn [forallb] in *. apply andb_prop in D1. destruct D1 as [Hd Hds].
    rewrite (IH Hds). unfold isDigit, is_ascii in *. lia. }
  assert (Hz : forall j, forallb is_ascii (zeros j) = true).
  { intros j. unfold zeros. induction (Z.to_nat j); [reflexivity | exact IHn0]. }
  pose proof (Hd s Hs) as Hds.
  assert (Hf : forall j, forallb is_ascii (firstn j (decimal s)) = true /\
                         forallb is_ascii (skipn j (decimal s)) = true).
  { intros j. rewrite <- (firstn_skipn j (decimal s)), forallb_app in Hds.
    now apply andb_prop in Hds. }
  unfold layout. cbv zeta.
  repeat match goal with
         | |- context [if ?b then _ else _] => destruct b
         end;
    try (destruct (decimal s) as [|d [|d2 t]] eqn:E);
    cbn [forallb app]; rewrite ?forallb_app; cbn [forallb];
    rewrite ?Hz, ?Hds, ?(proj1 (Hf _)), ?(proj2 (Hf _)),
            ?(Hd _ (Z.abs_nonneg _));
    cbn [forallb] in *; try reflexivity;
    repeat (apply andb_prop in Hds; destruct Hds as [? Hds]);
    repeat (apply andb_true_intro; split); auto;
    unfold is_ascii in *; lia.
Qed.

Lemma toString_ascii (x : number) :
  JSNumber.wf x = true -> forallb is_ascii (JSNumber.toString x) = true.
Proof.
  intros Hwf. destruct x as [[|]|[|]| |neg m e]; try reflexivity.
  unfold JSNumber.wf in Hwf. cbn [valid_binary] in Hwf.
  destruct (shortest_digits_read_back neg m e Hwf) as [Hpos _].
  unfold JSNumber.toString. destruct (shortest_digits neg m e) as [s n].
  cbn [fst] in Hpos. rewrite forallb_app, layout_ascii by lia.
  destruct neg; reflexivity.
Qed.

End NumberRoundTrip.

(* ================================================================== *)
(** ** JSON text read back: arrays and objects *)
(* ================================================================== *)

Section JsonValues.
Import JSON.

(** [t] is the text of [v]: what [JSON.stringify] writes, well-formed
    UTF-16, not empty, and read back as [v] by any call with fuel [f] or
    more when a delimiter follows. *)
Definition parses (f : nat) (v : value) (t : jsstring) : Prop :=
  forall f' c rest, (f <= f')%nat -> is_delim c = true ->
  parse_value f' (t ++ c :: rest) = Some (v, c :: rest).

(** The first character opens a value. *)
Definition starts_value (t : jsstring) : bool :=
  match t with
  | c :: _ => negb (isJsonWs c) && negb (c =? 93) && negb (c =? 125)
  | [] => false
  end.

Definition text_of (f : nat) (v : value) (t : jsstring) : Prop :=
  stringify v = Some t /\ wf16 t /\ starts_value t = true /\ parses f v t.

Lemma skip_ws_head (c : char16) (s : jsstring) :
  isJsonWs c = false -> skip_ws (c :: s) = c :: s.
Proof. intros H. cbn. now rewrite H. Qed.

Lemma text_of_string (s : jsstring) :
  wf_string s = true -> text_of 1 (Str s) (quote s).
Proof.
  intros Hs. repeat split.
  - now apply quote_wf16.
  - intros f' c rest Hf _. destruct f' as [|f']; [lia|].
    unfold quote. cbn [app parse_value].
    rewrite skip_ws_head by reflexivity.
    change (34 =? 123) with false. change (34 =? 91) with false.
    change (34 =? 34) with true. cbv iota.
    rewrite <- app_assoc. cbn [app].
    now rewrite (parse_quote_body s Hs).
Qed.

Lemma parse_number_head (s : jsstring) (r : number * jsstring) :
  parse_number s = Some r ->
  exists c u, s = c :: u /\ (c = 45 \/ isDigit c = true).
Proof.
  destruct s as [|c u]; [discriminate|]. intros H. exists c, u.
  split; [reflexivity|]. unfold parse_number, eat in H.
  destruct (c =? 45) eqn:E; [left; lia|]. right.
  destruct (c =? 48) eqn:E0; [unfold isDigit; lia|].
  destruct (isDigit c); [reflexivity | discriminate].
Qed.

Lemma parse_value_number (f : nat) (s rest : jsstring) (x : number) :
  parse_number s = Some (x, rest) -> parse_value (S f) s = Some (Num x, rest).
Proof.
  intros H. destruct (parse_number_head s _ H) as (c & u & -> & Hc).
  cbn [parse_value].
  assert (Hws : isJsonWs c = false)
    by (unfold isJsonWs, isDigit in *; lia).
  rewrite (skip_ws_head c u Hws).
  replace (c =? 123) with false by (unfold isDigit in *; lia).
  replace (c =? 91) with false by (unfold isDigit in *; lia).
  replace (c =? 34) with false by (unfold isDigit in *; lia).
  replace (c =? 116) with false by (unfold isDigit in *; lia).
  replace (c =? 102) with false by (unfold isDigit in *; lia).
  replace (c =? 110) with false by (unfold isDigit in *; lia).
  now rewrite H.
Qed.

Lemma text_of_number (x : number) :
  JSNumber.wf x = true -> isFinite x = true -> settled x = true ->
  text_of 1 (Num x) (JSNumber.toString x).
Proof.
  intros Hwf Hfin Hset. repeat split.
  - cbn [stringify]. now rewrite Hfin.
  - apply wf16_ascii. now apply toString_ascii.
  - pose proof (parse_number_toString x 44 [] Hwf Hfin Hset eq_refl) as H.
    destruct (parse_number_head _ _ H) as (c & u & Hcu & Hc).
    destruct (JSNumber.toString x) as [|c0 t0]; cbn [app] in Hcu;
      injection Hcu as <- _; unfold starts_value, isJsonWs, isDigit in *; lia.
  - intros f' c rest Hf Hc. destruct f' as [|f']; [lia|].
    apply parse_value_number. now apply parse_number_toString.
Qed.

Lemma text_of_weaken (f g : nat) (v : value) (t : jsstring) :
  (f <= g)%nat -> text_of f v t -> text_of g v t.
Proof.
  intros Hfg (H1 & H2 & H3 & H4). repeat split; auto.
  intros f' c rest Hf Hc. apply H4; [lia | exact Hc].
Qed.

Lemma starts_value_app (t u : jsstring) :
  starts_value t = true ->
  exists c r, t ++ u = c :: r /\ isJsonWs c = false /\
              (c =? 93) = false /\ (c =? 125) = false.
Proof.
  destruct t as [|c t]; [discriminate|]. cbn [starts_value app]. intros H.
  apply andb_prop in H. destruct H as [H H3].
  apply andb_prop in H. destruct H as [H1 H2].
  exists c, (t ++ u). repeat split; now apply negb_true_iff.
Qed.

(** *** Arrays *)

Lemma commas_cons (t : jsstring) (u : jsstring) (ts : list jsstring) :
  commas (t :: u :: ts) = t ++ 44 :: commas (u :: ts).
Proof. reflexivity. Qed.

Lemma commas_starts (t : jsstring) (ts : list jsstring) (u : jsstring) :
  starts_value t = true ->
  exists c r, commas (t :: ts) ++ u = c :: r /\ isJsonWs c = false /\
              (c =? 93) = false /\ (c =? 125) = false.
Proof.
  intros H. destruct ts as [|t2 ts].
  - cbn [commas]. now apply starts_value_app.
  - rewrite commas_cons, <- app_assoc. now apply starts_value_app.
Qed.

Lemma parse_elements_texts (f : nat) (vs : list value) (ts : list jsstring) :
  Forall2 (text_of f) vs ts -> vs <> [] ->
  forall F acc rest, (length vs + f <= F)%nat ->
  parse_elements F (commas ts ++ 93 :: rest) acc
  = Some (Arr (acc ++ vs), rest).
Proof.
  induction 1 as [|v t vs ts Hv Hrest IH]; intros Hne F acc rest HF;
    [congruence|].
  destruct Hv as (_ & _ & _ & Hp).
  cbn [length] in HF. destruct F as [|F]; [lia|].
  cbn [parse_elements].
  destruct Hrest as [|v2 t2 vs ts Hv2 Hrest].
  - cbn [commas]. rewrite (Hp F 93 rest) by (try lia; reflexivity).
    rewrite skip_ws_head by reflexivity.
    change (93 =? 44) with false. change (93 =? 93) with true. reflexivity.
  - rewrite commas_cons, <- app_assoc. cbn [app].
    rewrite (Hp F 44) by (try lia; reflexivity).
    rewrite skip_ws_head by reflexivity. change (44 =? 44) with true.
    cbv iota. rewrite IH by (try discriminate; cbn [length] in *; lia).
    now rewrite <- app_assoc.
Qed.

Lemma stringify_elements (f : nat) (vs : list value) (ts : list jsstring) :
  Forall2 (text_of f) vs ts ->
  map (fun e => match stringify e with Some t => t | None => lit "null" end) vs
  = ts.
Proof.
  induction 1 as [|v t vs ts (Hv & _) _ IH]; [reflexivity|].
  cbn [map]. now rewrite Hv, IH.
Qed.

Lemma commas_wf16 (ts : list jsstring) : Forall wf16 ts -> wf16 (commas ts).
Proof.
  induction 1 as [|t ts Ht Hts IH]; [constructor|].
  destruct ts as [|u ts]; [exact Ht|].
  rewrite commas_cons. apply wf16_app; [exact Ht|].
  apply (wf16_app [44]); [now apply wf16_ascii | exact IH].
Qed.

Lemma texts_wf16 (f : nat) (vs : list value) (ts : list jsstring) :
  Forall2 (text_of f) vs ts -> Forall wf16 ts.
Proof. induction 1 as [|v t vs ts (_ & Hw & _) _ IH]; constructor; auto. Qed.

Lemma text_of_array (f : nat) (vs : list value) (ts : list jsstring) :
  Forall2 (text_of f) vs ts ->
  text_of (S (length vs + f)) (Arr vs) (91 :: commas ts ++ [93]).
Proof.
  intros H. repeat split.
  - cbn [stringify]. now rewrite (stringify_elements f vs ts H).
  - apply (wf16_app [91]); [now apply wf16_ascii|].
    apply wf16_app; [|now apply wf16_ascii].
    apply commas_wf16. eapply texts_wf16. exact H.
  - intros f' c rest Hf Hc. destruct f' as [|f']; [lia|].
    cbn [app parse_value]. rewrite skip_ws_head by reflexivity.
    change (91 =? 123) with false. change (91 =? 91) with true. cbv iota.
    rewrite <- app_assoc. cbn [app].
    destruct H as [|v t vs ts Hv Hrest].
    + reflexivity.
    + destruct (commas_starts t ts (93 :: c :: rest) (proj1 (proj2 (proj2 Hv))))
        as (c0 & r & Hcr & Hws & H93 & _).
      rewrite Hcr, (skip_ws_head c0 r Hws). unfold eat. rewrite H93.
      rewrite <- Hcr.
      apply (parse_elements_texts f (v :: vs) (t :: ts));
        [now constructor | discriminate | lia].
Qed.

(** *** Objects *)

Definition member_text (kv : jsstring * value) (t : jsstring) : jsstring :=
  quote (fst kv) ++ 58 :: t.

Fixpoint member_texts (props : list (jsstring * value)) (ts : list jsstring)
  : list jsstring :=
  match props, ts with
  | kv :: props', t :: ts' => member_text kv t :: member_texts props' ts'
  | _, _ => []
  end.

(** The properties in the order the parser sets them. *)
Definition set_all (acc props : list (jsstring * value))
  : list (jsstring * value) :=
  fold_left (fun a kv => set_prop a (fst kv) (snd kv)) props acc.

Definition member_of (f : nat) (kv : jsstring * value) (t : jsstring) : Prop :=
  wf_string (fst kv) = true /\ text_of f (snd kv) t.

Lemma parse_member (f F : nat) (kv : jsstring * value) (t : jsstring)
  (c : char16) (rest : jsstring) :
  member_of f kv t -> (f <= F)%nat -> is_delim c = true ->
  forall acc,
  parse_members (S F) (member_text kv t ++ c :: rest) acc
  = if c =? 44 then parse_members F rest (set_prop acc (fst kv) (snd kv))
    else if c =? 125 then Some (Obj (set_prop acc (fst kv) (snd kv)), rest)
    else None.
Proof.
  intros (Hk & _ & _ & _ & Hp) HF Hc acc.
  destruct (delim_facts c Hc) as (_ & _ & _ & _ & Hws).
  unfold member_text, quote. cbn [parse_members app].
  rewrite skip_ws_head by reflexivity. unfold eat at 1.
  change (34 =? 34) with true. cbv iota.
  rewrite <- !app_assoc. cbn [app].
  rewrite (parse_quote_body _ Hk).
  rewrite skip_ws_head by reflexivity. unfold eat.
  change (58 =? 58) with true. cbv iota.
  rewrite (Hp F c rest HF Hc). now rewrite (skip_ws_head c rest Hws).
Qed.

Lemma parse_members_texts (f : nat) (props : list (jsstring * value))
  (ts : list jsstring) :
  Forall2 (member_of f) props ts -> props <> [] ->
  forall F acc rest, (length props + f <= F)%nat ->
  parse_members F (commas (member_texts props ts) ++ 125 :: rest) acc
  = Some (Obj (set_all acc props), rest).
Proof.
  induction 1 as [|kv t props ts Hkv Hrest IH]; intros Hne F acc rest HF;
    [congruence|].
  cbn [length] in HF. destruct F as [|F]; [lia|].
  destruct Hrest as [|kv2 t2 props ts Hkv2 Hrest].
  - cbn [member_texts commas].
    rewrite (parse_member f F kv t 125 rest Hkv) by (try lia; reflexivity).
    reflexivity.
  - cbn [member_texts]. cbn [member_texts] in IH.
    rewrite commas_cons, <- app_assoc. cbn [app].
    rewrite (parse_member f F kv t 44 _ Hkv) by (try lia; reflexivity).
    change (44 =? 44) with true. cbv iota.
    rewrite IH by (try discriminate; cbn [length] in *; lia).
    reflexivity.
Qed.

Lemma stringify_members (f : nat) (props : list (jsstring * value))
  (ts : list jsstring) :
  Forall2 (member_of f) props ts ->
  flat_map (fun kv => match stringify (snd kv) with
                      | Some t => [quote (fst kv) ++ 58 :: t]
                      | None => []
                      end) props
  = member_texts props ts.
Proof.
  induction 1 as [|kv t props ts (_ & Hv & _) _ IH]; [reflexivity|].
  cbn [flat_map member_texts]. rewrite Hv, IH. reflexivity.
Qed.

Lemma member_texts_wf16 (f : nat) (props : list (jsstring * value))
  (ts : list jsstring) :
  Forall2 (member_of f) props ts -> Forall wf16 (member_texts props ts).
Proof.
  induction 1 as [|kv t props ts (Hk & _ & Hw & _) _ IH]; cbn [member_texts];
    constructor; auto.
  unfold member_text. apply wf16_app; [now apply quote_wf16|].
  apply (wf16_app [58]); [now apply wf16_ascii | exact Hw].
Qed.

(** An object with at least one property, every key set once, whatever
    follows it. *)
Lemma parse_object (f : nat) (props : list (jsstring * value))
  (ts : list jsstring) :
  Forall2 (member_of f) props ts -> props <> [] -> set_all [] props = props ->
  forall F rest, (S (length props + f) <= F)%nat ->
  parse_value F (123 :: commas (member_texts props ts) ++ 125 :: rest)
  = Some (Obj props, rest).
Proof.
  intros H Hne Hset F rest HF. destruct F as [|F]; [lia|].
  cbn [parse_value]. rewrite skip_ws_head by reflexivity.
  change (123 =? 123) with true. cbv iota.
  destruct H as [|kv t props ts Hkv Hrest]; [congruence|].
  assert (Hhead : exists u, commas (member_texts (kv :: props) (t :: ts))
                            ++ 125 :: rest = 34 :: u).
  { cbn [member_texts]. destruct (member_texts props ts) as [|m2 ms].
    - cbn [commas]. unfold member_text, quote. cbn [app]. eauto.
    - rewrite commas_cons. unfold member_text, quote. cbn [app]. eauto. }
  destruct Hhead as [u Hu]. rewrite Hu.
  rewrite skip_ws_head by reflexivity. unfold eat.
  change (34 =? 125) with false. cbv iota. rewrite <- Hu.
  rewrite (parse_members_texts f (kv :: props) (t :: ts));
    [now rewrite Hset | now constructor | discriminate | lia].
Qed.

Lemma text_of_object (f : nat) (props : list (jsstring * value))
  (ts : list jsstring) :
  Forall2 (member_of f) props ts -> props <> [] -> set_all [] props = props ->
  text_of (S (length props + f)) (Obj props)
          (123 :: commas (member_texts props ts) ++ [125]).
Proof.
  intros H Hne Hset. repeat split.
  - cbn [stringify]. now rewrite (stringify_members f props ts H).
  - apply (wf16_app [123]); [now apply wf16_ascii|].
    apply wf16_app; [|now apply wf16_ascii].
    apply commas_wf16. eapply member_texts_wf16. exact H.
  - intros f' c rest Hf Hc. cbn [app]. rewrite <- app_assoc. cbn [app].
    now apply (parse_object f).
Qed.

Lemma commas_length (ts : list jsstring) :
  Forall (fun t => starts_value t = true) ts ->
  (length ts <= length (commas ts))%nat.
Proof.
  induction 1 as [|t ts Ht _ IH]; [cbn; lia|].
  assert (1 <= length t)%nat by (destruct t; [discriminate | cbn; lia]).
  destruct ts as [|u ts]; [cbn [commas length]; lia|].
  rewrite commas_cons, length_app. cbn [length] in *. lia.
Qed.

End JsonValues.

(* ================================================================== *)
(** ** The share link, there and back *)
(* ================================================================== *)

Section LinkRoundTrip.
Import JSON.

Definition item_props (i : ReceiptItem) : list (jsstring * value) :=
  [ (lit "id", Str i.(id));
    (lit "quantity", Num i.(quantity));
    (lit "description", Str i.(description));
    (lit "price", Num i.(price)) ].

Definition item_text (i : ReceiptItem) : jsstring :=
  123 :: commas (member_texts (item_props i)
                   [ quote i.(id); JSNumber.toString i.(quantity);
                     quote i.(description); JSNumber.toString i.(price) ])
  ++ [125].

(** The numbers of an item the link can carry. *)
Definition item_ready (i : ReceiptItem) : Prop :=
  wf_item i = true /\
  isFinite i.(quantity) = true /\ settled i.(quantity) = true /\
  isFinite i.(price) = true /\ settled i.(price) = true.

Lemma item_text_of (i : ReceiptItem) :
  item_ready i -> text_of 6 (item_object i) (item_text i).
Proof.
  intros (Hwf & Fq & Sq & Fp & Sp). unfold wf_item in Hwf.
  repeat (apply andb_prop in Hwf; destruct Hwf as [Hwf ?]).
  apply (text_of_object 1 (item_props i)); [|discriminate | reflexivity].
  unfold item_props.
  repeat (apply Forall2_cons; [split; [reflexivity | cbn [snd]]|]);
    [| | | | apply Forall2_nil].
  - now apply text_of_string.
  - now apply text_of_number.
  - now apply text_of_string.
  - now apply text_of_number.
Qed.

Lemma items_text_of (its : list ReceiptItem) :
  Forall item_ready its ->
  Forall2 (text_of 6) (map item_object its) (map item_text its).
Proof.
  induction 1 as [|i its Hi _ IH]; cbn [map]; constructor; auto.
  now apply item_text_of.
Qed.

Definition receipt_props (r : ReceiptData) : list (jsstring * value) :=
  [ (lit "restaurantName", Str r.(restaurantName));
    (lit "date", Str r.(date));
    (lit "currency", Str r.(currency));
    (lit "subtotal", Num r.(subtotal));
    (lit "tax", Num r.(tax));
    (lit "tip", Num r.(tip));
    (lit "total", Num r.(total));
    (lit "items", Arr (map item_object r.(items))) ].

Definition items_text (r : ReceiptData) : jsstring :=
  91 :: commas (map item_text r.(items)) ++ [93].

Definition receipt_text (r : ReceiptData) : jsstring :=
  123 :: commas (member_texts (receipt_props r)
                   [ quote r.(restaurantName); quote r.(date);
                     quote r.(currency); JSNumber.toString r.(subtotal);
                     JSNumber.toString r.(tax); JSNumber.toString r.(tip);
                     JSNumber.toString r.(total); items_text r ])
  ++ [125].

Definition receipt_ready (r : ReceiptData) : Prop :=
  wf_string r.(restaurantName) = true /\ wf_string r.(date) = true /\
  wf_string r.(currency) = true /\
  (JSNumber.wf r.(subtotal) = true /\ isFinite r.(subtotal) = true
   /\ settled r.(subtotal) = true) /\
  (JSNumber.wf r.(tax) = true /\ isFinite r.(tax) = true
   /\ settled r.(tax) = true) /\
  (JSNumber.wf r.(tip) = true /\ isFinite r.(tip) = true
   /\ settled r.(tip) = true) /\
  (JSNumber.wf r.(total) = true /\ isFinite r.(total) = true
   /\ settled r.(total) = true) /\
  Forall item_ready r.(items).

Lemma minifiedReceipt_props (r : ReceiptData) :
  minifiedReceipt r = Obj (receipt_props r).
Proof. reflexivity. Qed.

Lemma receipt_members (r : ReceiptData) :
  receipt_ready r ->
  Forall2 (member_of (S (length r.(items) + 6))) (receipt_props r)
    [ quote r.(restaurantName); quote r.(date);
      quote r.(currency); JSNumber.toString r.(subtotal);
      JSNumber.toString r.(tax); JSNumber.toString r.(tip);
      JSNumber.toString r.(total); items_text r ].
Proof.
  intros (H1 & H2 & H3 & (A1 & A2 & A3) & (B1 & B2 & B3) & (C1 & C2 & C3)
          & (D1 & D2 & D3) & Hits).
  unfold receipt_props.
  repeat (apply Forall2_cons; [split; [reflexivity | cbn [snd]]|]);
    [| | | | | | | | apply Forall2_nil];
    try (apply (text_of_weaken 1);
         [lia | now apply text_of_string || now apply text_of_number]).
  unfold items_text. rewrite <- (length_map item_object).
  apply text_of_array. now apply items_text_of.
Qed.

Lemma items_text_length (r : ReceiptData) :
  receipt_ready r -> (length r.(items) + 2 <= length (items_text r))%nat.
Proof.
  intros Hr. unfold items_text. cbn [length]. rewrite length_app. cbn [length].
  assert (H : (length (map item_text r.(items))
               <= length (commas (map item_text r.(items))))%nat).
  { apply commas_length. apply Forall_forall. intros t Ht.
    apply in_map_iff in Ht. destruct Ht as (i & <- & _). reflexivity. }
  rewrite length_map in H. lia.
Qed.

Lemma commas_length_last (ts : list jsstring) (t : jsstring) :
  (length ts + length t <= length (commas (ts ++ [t])))%nat.
Proof.
  induction ts as [|u ts IH]; [cbn [app commas length]; lia|].
  assert (H : commas ((u :: ts) ++ [t]) = u ++ 44 :: commas (ts ++ [t]))
    by (destruct ts; reflexivity).
  rewrite H, length_app. cbn [length]. lia.
Qed.

Lemma member_text_length (kv : jsstring * value) (t : jsstring) :
  (length t + 3 <= length (member_text kv t))%nat.
Proof.
  unfold member_text, quote. rewrite length_app. cbn [length].
  rewrite length_app. cbn [length]. lia.
Qed.

Lemma receipt_text_length (r : ReceiptData) :
  receipt_ready r -> (length r.(items) + 14 <= length (receipt_text r))%nat.
Proof.
  intros Hr. pose proof (items_text_length r Hr) as Hi.
  unfold receipt_text, receipt_props. cbn [member_texts].
  match goal with
  | |- context [commas [?a; ?b; ?c; ?d; ?e; ?f; ?g; member_text ?kv ?t]] =>
      pose proof (commas_length_last [a; b; c; d; e; f; g] (member_text kv t))
        as Hc;
      pose proof (member_text_length kv t) as Hm;
      cbn [app] in Hc;
      generalize dependent (commas [a; b; c; d; e; f; g; member_text kv t]);
      generalize dependent (member_text kv t)
  end.
  intros m Hm T HT. cbn [length] in *. rewrite length_app. cbn [length]. lia.
Qed.

(** The JSON text of a receipt is well-formed UTF-16 and is parsed back to
    the object it was written from. *)
Lemma receipt_text_facts (r : ReceiptData) :
  receipt_ready r ->
  JSON_stringify (minifiedReceipt r) = receipt_text r /\
  wf16 (receipt_text r) /\
  JSON.parse (receipt_text r) = Normal (minifiedReceipt r).
Proof.
  intros Hr. pose proof (receipt_members r Hr) as Hm.
  destruct (text_of_object _ _ _ Hm ltac:(discriminate) eq_refl)
    as (Hs & Hw & _ & _).
  split; [|split].
  - unfold JSON_stringify. rewrite minifiedReceipt_props, Hs. reflexivity.
  - exact Hw.
  - unfold parse. pose proof (receipt_text_length r Hr) as Hlen.
    assert (Hp : parse_value (2 * length (receipt_text r) + 2) (receipt_text r)
                 = Some (Obj (receipt_props r), [])).
    { unfold receipt_text at 2.
      apply (parse_object _ _ _ Hm); [discriminate | reflexivity|].
      cbn [length receipt_props]. lia. }
    rewrite Hp. reflexivity.
Qed.

(** The text comes back from the token. *)
Lemma token_text (t : jsstring) (c : char16) :
  wf16 (c :: t) -> is_ascii c = true ->
  exists token,
    encodeURIComponent (safeBtoa (c :: t)) = Normal token /\
    link_text token = Normal (c :: t) /\
    (length (c :: t) <= length token)%nat.
Proof.
  intros Hwf Hc.
  destruct (utf8_roundtrip c t Hwf Hc) as (Hdec & Hbytes & Hlen1).
  destruct (base64_roundtrip _ Hbytes) as (b64 & Hbtoa & Hatob & Hascii & Hlen2).
  destruct (uri_roundtrip b64 Hascii) as (token & Henc & Hdecode & Hlen3).
  exists token. unfold safeBtoa, link_text, safeAtob.
  rewrite Hbtoa. cbn [try_catch]. rewrite Henc, Hdecode. cbn [bind].
  rewrite Hatob. cbn [bind try_catch]. rewrite Hdec.
  repeat split. lia.
Qed.

End LinkRoundTrip.

(* ================================================================== *)
(** ** Claims about the share link: the round trip *)
(* ================================================================== *)

Section LinkClaims.

Lemma item_ready_of (i : ReceiptItem) :
  wf_item i = true -> link_safe_item i = true ->
  nonneg i.(quantity) = true /\ nonneg i.(price) = true ->
  item_ready i.
Proof.
  intros Hwf Hl [Hq Hp]. unfold link_safe_item in Hl.
  repeat (apply andb_prop in Hl; destruct Hl as [Hl ?]).
  repeat split; auto using nonneg_settled.
Qed.

Lemma items_ready_of (its : list ReceiptItem) :
  forallb wf_item its = true -> forallb link_safe_item its = true ->
  Forall (fun i => nonneg i.(quantity) = true /\ nonneg i.(price) = true) its ->
  Forall item_ready its.
Proof.
  intros Hwf Hl Hn. induction Hn as [|i its Hi _ IH]; constructor;
    cbn [forallb] in Hwf, Hl;
    apply andb_prop in Hwf; apply andb_prop in Hl;
    destruct Hwf as [W1 W2]; destruct Hl as [L1 L2].
  - now apply item_ready_of.
  - now apply IH.
Qed.

Lemma receipt_ready_of (r : ReceiptData) :
  validated r -> wf_receipt r = true -> link_safe r = true ->
  receipt_ready r.
Proof.
  intros Hv Hwf Hl.
  destruct (validated_numbers r Hv) as (N1 & N2 & N3 & N4 & N5).
  unfold wf_receipt in Hwf. unfold link_safe in Hl.
  repeat (apply andb_prop in Hwf; destruct Hwf as [Hwf ?]).
  repeat (apply andb_prop in Hl; destruct Hl as [Hl ?]).
  unfold receipt_ready. repeat split; auto.
  now apply items_ready_of.
Qed.

(** What the recipient holds after opening the link made for [r]. *)
Lemma link_round_trip (r : ReceiptData) :
  validated r -> wf_receipt r = true -> link_safe r = true ->
  exists token,
    share_token r = Normal token /\
    decode token = link_loaded initial r.
Proof.
  intros Hv Hwf Hl. pose proof (receipt_ready_of r Hv Hwf Hl) as Hr.
  destruct (receipt_text_facts r Hr) as (Hs & Hw & Hp).
  pose proof (receipt_text_length r Hr) as Hlen.
  unfold share_token. rewrite Hs.
  remember (receipt_text r) as T eqn:HT.
  assert (Hhead : exists t, T = 123 :: t) by (rewrite HT; eexists; reflexivity).
  destruct Hhead as [t ->].
  destruct (token_text t 123 Hw eq_refl) as (token & Henc & Htext & Hlen').
  exists token. split; [exact Henc|].
  unfold decode.
  apply (valid_payload_is_loaded initial token) with
    (text := 123 :: t) (rawData := minifiedReceipt r).
  - apply Z.ltb_lt. lia.
  - exact Htext.
  - reflexivity.
  - exact Hp.
  - now apply revalidate.
Qed.

End LinkClaims.

(** A payload of edge values, the receipt the validator makes of it, and
    the receipt a recipient of its link holds. *)
Definition worn : value :=
  Obj [ (lit "restaurantName", Str (lit "Cafe"));
        (lit "currency", Str (lit " "));
        (lit "items",
         Arr [Obj [ (lit "id", Str (lit " "));
                    (lit "quantity", Num (of_Z (-3)));
                    (lit "description", Str (lit " "));
                    (lit "price", Num infinity) ];
              Obj [ (lit "id", Str (lit "b"));
                    (lit "quantity", Num infinity);
                    (lit "description", Str (lit "tea"));
                    (lit "price", Num (of_Z 2)) ]]) ].

Definition worn_receipt : ReceiptData :=
  {| restaurantName := lit "Cafe";
     date := [];
     currency := [];
     subtotal := zero;
     tax := zero;
     tip := zero;
     total := zero;
     items := [ {| id := []; quantity := zero;
                   description := []; price := infinity |};
                {| id := lit "b"; quantity := infinity;
                   description := lit "tea"; price := of_Z 2 |} ] |}.

Definition reopened_receipt : ReceiptData :=
  {| restaurantName := lit "Cafe";
     date := [];
     currency := lit "$";
     subtotal := zero;
     tax := zero;
     tip := zero;
     total := zero;
     items := [ {| id := lit "shared-0"; quantity := of_Z 1;
                   description := lit "Unknown Item"; price := zero |};
                {| id := lit "b"; quantity := of_Z 1;
                   description := lit "tea"; price := of_Z 2 |} ] |}.

(** C3, counterexample. The payload below is accepted by the validator
    (a recipient can receive it in a link: [1e999] is read as [Infinity]);
    the receipt it yields has an empty currency, a first item with an empty
    id and description, the quantity 0 and the price [Infinity], and a
    second item with the quantity [Infinity]. Sharing that receipt and
    opening the link loads a receipt with the currency [$], a first item
    with the id [shared-0], the description [Unknown Item], the quantity 1
    and the price 0, and a second item with the quantity 1. *)
Lemma share_link_changes_edge_values :
  validateReceiptIntegrity worn = Some worn_receipt /\
  JSON_stringify (minifiedReceipt worn_receipt)
  = lit "{" ++ [34] ++ lit "restaurantName" ++ [34] ++ lit ":" ++ [34]
    ++ lit "Cafe" ++ [34] ++ lit "," ++ [34] ++ lit "date" ++ [34]
    ++ lit ":" ++ [34; 34] ++ lit "," ++ [34] ++ lit "currency" ++ [34]
    ++ lit ":" ++ [34; 34] ++ lit "," ++ [34] ++ lit "subtotal" ++ [34]
    ++ lit ":0," ++ [34] ++ lit "tax" ++ [34] ++ lit ":0," ++ [34]
    ++ lit "tip" ++ [34] ++ lit ":0," ++ [34] ++ lit "total" ++ [34]
    ++ lit ":0," ++ [34] ++ lit "items" ++ [34] ++ lit ":[{" ++ [34]
    ++ lit "id" ++ [34] ++ lit ":" ++ [34; 34] ++ lit "," ++ [34]
    ++ lit "quantity" ++ [34] ++ lit ":0," ++ [34] ++ lit "description"
    ++ [34] ++ lit ":" ++ [34; 34] ++ lit "," ++ [34] ++ lit "price" ++ [34]
    ++ lit ":null},{" ++ [34] ++ lit "id" ++ [34] ++ lit ":" ++ [34]
    ++ lit "b" ++ [34] ++ lit "," ++ [34] ++ lit "quantity" ++ [34]
    ++ lit ":null," ++ [34] ++ lit "description" ++ [34] ++ lit ":" ++ [34]
    ++ lit "tea" ++ [34] ++ lit "," ++ [34] ++ lit "price" ++ [34]
    ++ lit ":2}]}" /\
  exists token,
    share_token worn_receipt = Normal token /\
    decode token = link_loaded initial reopened_receipt /\
    reopened_receipt <> worn_receipt /\
    (worn_receipt.(currency), reopened_receipt.(currency)) = ([], lit "$") /\
    (map id worn_receipt.(items), map id reopened_receipt.(items))
    = ([[]; lit "b"], [lit "shared-0"; lit "b"]) /\
    (map quantity worn_receipt.(items), map quantity reopened_receipt.(items))
    = ([zero; infinity], [of_Z 1; of_Z 1]) /\
    (map description worn_receipt.(items),
     map description reopened_receipt.(items))
    = ([[]; lit "tea"], [lit "Unknown Item"; lit "tea"]) /\
    (map price worn_receipt.(items), map price reopened_receipt.(items))
    = ([infinity; of_Z 2], [zero; of_Z 2]).
Proof.
  split; [vm_compute; reflexivity|]. split; [vm_compute; reflexivity|].
  eexists. split; [vm_compute; reflexivity|].
  split; [vm_compute; reflexivity|]. split; [discriminate|]. repeat split.
Qed.

(* ================================================================== *)
(** ** The selections (App.tsx, lines 161-179, 350-352) *)
(* ================================================================== *)

Section SelectionModel.
Import JSON.

(** [x - y] and [x === y] on numbers. *)
Definition sub : number -> number -> number := SFsub prec emax.
Definition strict_equal (x y : number) : bool := SFeqb x y.

(** An array index (ECMA-262 6.1.7): the canonical decimal string of an
    integer from 0 to 2^32 - 2. The own properties with such keys are
    enumerated first, in ascending order; the others follow in the order
    of their creation (OrdinaryOwnPropertyKeys). *)
Definition array_index (key : jsstring) : option Z :=
  match key with
  | [] => None
  | d :: rest =>
      if forallb isDigit key && (is_nil rest || negb (d =? 48)) then
        let n := fold_left (fun acc c => acc * 10 + (c - 48)) key 0 in
        if n <=? 4294967294 then Some n else None
      else None
  end.

(** [prev[itemId]]: [None] is [undefined]. *)
Fixpoint selection_of (o : Selections) (key : jsstring)
  : option UserSelection :=
  match o with
  | (k, s) :: rest => if list_eqb k key then Some s else selection_of rest key
  | [] => None
  end.

(** A key the object has keeps its place in the enumeration. *)
Fixpoint replace_selection (o : Selections) (key : jsstring)
  (s : UserSelection) : Selections :=
  match o with
  | (k, old) :: rest =>
      if list_eqb k key then (k, s) :: rest
      else (k, old) :: replace_selection rest key s
  | [] => []
  end.

(** A new array index goes after the smaller indices and before everything
    else. *)
Fixpoint place_index (o : Selections) (n : Z) (key : jsstring)
  (s : UserSelection) : Selections :=
  match o with
  | (k, old) :: rest =>
      match array_index k with
      | Some m =>
          if m <? n then (k, old) :: place_index rest n key s
          else (key, s) :: o
      | None => (key, s) :: o
      end
  | [] => [(key, s)]
  end.

(** [{ ...prev, [itemId]: s }]: a copy of [prev] with the property
    [itemId] defined on it. *)
Definition with_selection (prev : Selections) (key : jsstring)
  (s : UserSelection) : Selections :=
  match selection_of prev key with
  | Some _ => replace_selection prev key s
  | None =>
      match array_index key with
      | Some n => place_index prev n key s
      | None => prev ++ [(key, s)]
      end
  end.

(** [toggleItem], as the update it hands to [setUserSelections]:
    [!existing?.isSelected] and [existing?.splitCount || 1]. *)
Definition toggleItem (item_id : jsstring) (prev : Selections) : Selections :=
  let existing := selection_of prev item_id in
  with_selection prev item_id
    {| itemId := item_id;
       isSelected := match existing with
                     | Some e => negb e.(isSelected)
                     | None => true
                     end;
       splitCount := match existing with
                     | Some e => or_num e.(splitCount) (of_Z 1)
                     | None => of_Z 1
                     end |}.

(** The properties of [Object.prototype] with a string name (ECMA-262
    20.1.3 and B.2.2). The selections are an object literal, so
    [prev[itemId]] answers for these names too when [prev] has no property
    of its own under them: with a function, and with the prototype itself
    for [__proto__]. Each of these values is truthy and has no enumerable
    property of its own. *)
Definition prototype_names : list jsstring :=
  [ lit "constructor"; lit "hasOwnProperty"; lit "isPrototypeOf";
    lit "propertyIsEnumerable"; lit "toLocaleString"; lit "toString";
    lit "valueOf"; lit "__proto__"; lit "__defineGetter__";
    lit "__defineSetter__"; lit "__lookupGetter__"; lit "__lookupSetter__" ].

Definition inherited (key : jsstring) : bool :=
  existsb (list_eqb key) prototype_names.

(** What [updateSplit] hands back to [setUserSelections]: the selections
    with a selection stored under [itemId], or, when [existing] is an
    inherited value, [prev] with the object [{ splitCount }] under
    [itemId]: an entry with no [itemId] and no [isSelected], which is not
    a selection. *)
Inductive split_update :=
| Stored (next : Selections)
| CountOnly (splitCount : number).

(** [updateSplit], as the update it hands to [setUserSelections]:
    [{ ...(existing || { itemId, isSelected: true, splitCount: 1 }),
       splitCount: Math.max(1, count) }]. An inherited [existing] is truthy
    and spreads to nothing. *)
Definition updateSplit (item_id : jsstring) (count : number)
  (prev : Selections) : split_update :=
  match selection_of prev item_id with
  | Some e =>
      Stored (with_selection prev item_id
                {| itemId := e.(itemId);
                   isSelected := e.(isSelected);
                   splitCount := Math_max [of_Z 1; count] |})
  | None =>
      if inherited item_id then CountOnly (Math_max [of_Z 1; count])
      else
        Stored (with_selection prev item_id
                  {| itemId := item_id;
                     isSelected := true;
                     splitCount := Math_max [of_Z 1; count] |})
  end.

(** What a row of the item list shows (lines 350-352):
    [selection?.isSelected] and [selection?.splitCount || 1]. *)
Definition row_isSelected (sels : Selections) (item_id : jsstring) : bool :=
  match selection_of sels item_id with
  | Some s => s.(isSelected)
  | None => false
  end.

Definition row_splitCount (sels : Selections) (item_id : jsstring) : number :=
  match selection_of sels item_id with
  | Some s => or_num s.(splitCount) (of_Z 1)
  | None => of_Z 1
  end.

End SelectionModel.

(* ================================================================== *)
(** ** The analysis service (geminiService.ts), after the model answers *)
(* ================================================================== *)

Section AnalysisModel.
Import JSON.
Local Open Scope js_scope.

(** What [await ai.models.generateContent(...)] gives: a rejection, or a
    response whose [text] is a string or [undefined]. *)
Inductive reply :=
| Rejected
| Response (text : option jsstring).

(** What [await analyzeReceipt(...)] gives in turn: the data, or the
    [Error] its [catch] throws, by its message. *)
Inductive analysis :=
| Analysed (data : value)
| Failed (message : jsstring).

(** The string form of an integer Number below 10^21: its decimal
    digits, after a minus sign when it is negative. *)
Definition integer_text (z : Z) : jsstring :=
  if z <? 0 then 45 :: decimal (- z) else decimal z.

(** The properties an array or a string shows to a spread: one for each
    index, in order. *)
Fixpoint indexed (vs : list value) (i : nat) : list (jsstring * value) :=
  match vs with
  | [] => []
  | v :: rest => (decimal (Z.of_nat i), v) :: indexed rest (S i)
  end.

(** [{ ...v }]: the own enumerable properties of [v] (CopyDataProperties);
    [undefined], [null], a boolean and a number have none. *)
Definition spread (v : value) : list (jsstring * value) :=
  match v with
  | Obj props => props
  | Arr elems => indexed elems 0
  | Str s => indexed (map (fun c => Str [c]) s) 0
  | _ => []
  end.

(** [`item-${index}-${Date.now()}`], [now] being the clock reading. *)
Definition item_id (index : nat) (now : Z) : jsstring :=
  lit "item-" ++ decimal (Z.of_nat index) ++ 45 :: integer_text now.

(** [.map((item, index) => ({ ...item, id: ... }))]: [now index] is the
    clock reading taken in the callback for [index]. *)
Fixpoint with_ids (elems : list value) (index : nat) (now : nat -> Z)
  : list value :=
  match elems with
  | [] => []
  | item :: rest =>
      Obj (set_prop (spread item) (lit "id") (Str (item_id index (now index))))
      :: with_ids rest (S index) now
  end.

(** The statements of the [try] block from [JSON.parse] to the [return].
    Only an array has a [map] method among the values [JSON.parse]
    builds. *)
Definition analysis_body (text : option jsstring) (now : nat -> Z)
  : completion value :=
  let response_text :=
    match text with
    | Some t => if is_nil t then lit "{}" else t
    | None => lit "{}"
    end in
  parsedData <- JSON.parse response_text ;;
  parsedData_tip <- get parsedData (lit "tip") ;;
  parsedData_tax <- get parsedData (lit "tax") ;;
  parsedData_subtotal <- get parsedData (lit "subtotal") ;;
  parsedData_items <- get parsedData (lit "items") ;;
  items' <- match or parsedData_items (Arr []) with
            | Arr elems => Normal (with_ids elems 0 now)
            | _ => Throw TypeError
            end ;;
  Normal
    (Obj (set_prop
            (set_prop
               (set_prop
                  (set_prop (spread parsedData)
                     (lit "tip") (or parsedData_tip (Num zero)))
                  (lit "tax") (or parsedData_tax (Num zero)))
               (lit "subtotal") (or parsedData_subtotal (Num zero)))
            (lit "items") (Arr items'))).

Definition analysis_failed : jsstring :=
  lit "Failed to analyze receipt. Please ensure the photo is clear.".

(** [analyzeReceipt] from the model's reply on: whatever is thrown inside
    [try] becomes the one [Error] of the [catch]. *)
Definition analyzeReceipt (r : reply) (now : nat -> Z) : analysis :=
  match r with
  | Rejected => Failed analysis_failed
  | Response text =>
      match analysis_body text now with
      | Normal data => Analysed data
      | Throw _ => Failed analysis_failed
      end
  end.

End AnalysisModel.

(* ================================================================== *)
(** ** The application: state, handlers and the events that reach them
       (App.tsx, lines 90-97, 130-179, 236-241, 243-424) *)
(* ================================================================== *)

Section AppModel.

(** The state of [App]: the four variables of [AppModel], the two others
    ([loadingMessage], [targetLang]) and the number of analyses awaited. *)
Record App := {
  core : AppModel;
  loadingMessage : jsstring;
  targetLang : jsstring;
  awaited : nat
}.

Definition mounted : App :=
  {| core := initial; loadingMessage := lit "Analyzing...";
     targetLang := lit "en"; awaited := 0 |}.

Definition with_core (a : App) (c : AppModel) : App :=
  {| core := c; loadingMessage := a.(loadingMessage);
     targetLang := a.(targetLang); awaited := a.(awaited) |}.

Definition setAppState (s : AppState) (c : AppModel) : AppModel :=
  {| appState := s; receipt := c.(receipt);
     userSelections := c.(userSelections); error := c.(error) |}.

Definition setUserSelections (f : Selections -> Selections) (c : AppModel)
  : AppModel :=
  {| appState := c.(appState); receipt := c.(receipt);
     userSelections := f c.(userSelections); error := c.(error) |}.

(** [handleCapture] up to its [await] (lines 131-135). *)
Definition handleCapture_start (a : App) : App :=
  {| core := {| appState := PROCESSING; receipt := a.(core).(receipt);
                userSelections := a.(core).(userSelections);
                error := None |};
     loadingMessage := lit "Gemini AI is scanning your receipt securely...";
     targetLang := a.(targetLang);
     awaited := S a.(awaited) |}.

Definition malformed_analysis : jsstring :=
  lit "Received malformed data from AI analysis.".

(** [handleCapture] from its [await] on (lines 136-146), in the state the
    application is in by then. *)
Definition handleCapture_finish (a : App) (result : analysis) : App :=
  let thrown :=
    match result with
    | Analysed data =>
        match validateReceiptIntegrity data with
        | Some validated => inl validated
        | None => inr malformed_analysis
        end
    | Failed message => inr message
    end in
  {| core :=
       match thrown with
       | inl validated =>
           {| appState := CONFIRM_INFO; receipt := Some validated;
              userSelections := a.(core).(userSelections);
              error := a.(core).(error) |}
       | inr message =>
           {| appState := HOME; receipt := a.(core).(receipt);
              userSelections := a.(core).(userSelections);
              error := Some message |}
       end;
     loadingMessage := a.(loadingMessage);
     targetLang := a.(targetLang);
     awaited := pred a.(awaited) |}.

(** [handleStartOver] (lines 236-241). *)
Definition handleStartOver (c : AppModel) : AppModel :=
  {| appState := HOME; receipt := None; userSelections := [];
     error := c.(error) |}.

(** What can happen to the application: the listeners it registers and
    the controls [renderContent] puts on each screen. *)
Inductive event :=
| HashChange (location_hash : jsstring)
| SelectLanguage (code : jsstring)
| ScanNewReceipt
| CameraCancel
| CaptureImage
| AnalysisDone (result : analysis)
| ClaimMyItems
| StartOver
| ToggleItem (item_id : jsstring)
| SplitLess (item_id : jsstring)
| SplitMore (item_id : jsstring)
| ViewSummary
| BackToItems
| ShareLink.

Definition on_screen (s : AppState) (a : App) : bool :=
  match a.(core).(appState), s with
  | HOME, HOME | CAMERA, CAMERA | PROCESSING, PROCESSING
  | CONFIRM_INFO, CONFIRM_INFO | SELECT_ITEMS, SELECT_ITEMS
  | SUMMARY, SUMMARY => true
  | _, _ => false
  end.

Definition has_receipt (a : App) : bool :=
  match a.(core).(receipt) with Some _ => true | None => false end.

(** The item list has a row for this id. *)
Definition has_row (a : App) (item_id : jsstring) : bool :=
  match a.(core).(receipt) with
  | Some r => existsb (fun i => list_eqb i.(id) item_id) r.(items)
  | None => false
  end.

(** Whether the event can happen in this state: a control must be on the
    screen and not disabled; an analysis must be awaited to complete.
    The hash of the location can change at any time, and an image can
    arrive at any time (from the camera, or from a file once read). *)
Definition enabled (a : App) (e : event) : bool :=
  match e with
  | HashChange _ => true
  | CaptureImage => true
  | AnalysisDone _ => negb (Nat.eqb a.(awaited) 0)
  | SelectLanguage _ | ScanNewReceipt => on_screen HOME a
  | CameraCancel => on_screen CAMERA a
  | ClaimMyItems => on_screen CONFIRM_INFO a && has_receipt a
  | StartOver =>
      (on_screen CONFIRM_INFO a || on_screen SUMMARY a) && has_receipt a
  | ToggleItem item_id => on_screen SELECT_ITEMS a && has_row a item_id
  | SplitLess item_id | SplitMore item_id =>
      on_screen SELECT_ITEMS a && has_row a item_id
      && row_isSelected a.(core).(userSelections) item_id
  | ViewSummary =>
      on_screen SELECT_ITEMS a && has_receipt a
      && negb (strict_equal
                 (calculations a.(core).(receipt)
                    a.(core).(userSelections)).(Share.subtotal) zero)
  | BackToItems => on_screen SUMMARY a && has_receipt a
  | ShareLink =>
      (on_screen CONFIRM_INFO a || on_screen SUMMARY a) && has_receipt a
  end.

(** A click on one of the two split buttons of a row (lines 367, 369):
    [updateSplit(item.id, count)]. The buttons are rendered only in a row
    that is selected (line 365), whose selection is then the row's own, so
    [updateSplit] stores a selection there. *)
Definition split_button (a : App) (item_id : jsstring) (count : number)
  : App :=
  match updateSplit item_id count a.(core).(userSelections) with
  | Stored next => with_core a (setUserSelections (fun _ => next) a.(core))
  | CountOnly _ => a
  end.

(** What the handler of the event does to the state. *)
Definition handle (a : App) (e : event) : App :=
  match e with
  | HashChange location_hash =>
      with_core a (handleHashChange a.(core) location_hash)
  | SelectLanguage code =>
      {| core := a.(core); loadingMessage := a.(loadingMessage);
         targetLang := code; awaited := a.(awaited) |}
  | ScanNewReceipt => with_core a (setAppState CAMERA a.(core))
  | CameraCancel => with_core a (setAppState HOME a.(core))
  | CaptureImage => handleCapture_start a
  | AnalysisDone result => handleCapture_finish a result
  | ClaimMyItems => with_core a (setAppState SELECT_ITEMS a.(core))
  | StartOver => with_core a (handleStartOver a.(core))
  | ToggleItem item_id =>
      with_core a (setUserSelections (toggleItem item_id) a.(core))
  | SplitLess item_id =>
      split_button a item_id
        (sub (row_splitCount a.(core).(userSelections) item_id) (of_Z 1))
  | SplitMore item_id =>
      split_button a item_id
        (add (row_splitCount a.(core).(userSelections) item_id) (of_Z 1))
  | ViewSummary => with_core a (setAppState SUMMARY a.(core))
  | BackToItems => with_core a (setAppState SELECT_ITEMS a.(core))
  | ShareLink => a   (* [generateShareLink] sets no state *)
  end.

(** The states the application can be in: the one it is mounted in, and
    those the events lead to. *)
Inductive reachable : App -> Prop :=
| reachable_mounted : reachable mounted
| reachable_step (a : App) (e : event) :
    reachable a -> enabled a e = true -> reachable (handle a e).

(** Running a list of events from a state, each one only if it can
    happen there. *)
Fixpoint run (a : App) (es : list event) : option App :=
  match es with
  | [] => Some a
  | e :: rest => if enabled a e then run (handle a e) rest else None
  end.

End AppModel.

(* ================================================================== *)
(** ** Selections: reading back what was written *)
(* ================================================================== *)

Section SelectionFacts.

Lemma list_eqb_refl (s : jsstring) : list_eqb s s = true.
Proof.
  induction s as [|c s IH]; [reflexivity|].
  cbn [list_eqb]. now rewrite Z.eqb_refl, IH.
Qed.

Lemma list_eqb_eq (s t : jsstring) : list_eqb s t = true <-> s = t.
Proof.
  split; [|intros ->; apply list_eqb_refl].
  revert t. induction s as [|c s IH]; intros [|d t] H;
    try reflexivity; try discriminate H.
  cbn [list_eqb] in H. apply andb_prop in H. destruct H as [Hc Hs].
  apply Z.eqb_eq in Hc. subst d. f_equal. now apply IH.
Qed.

Lemma list_eqb_neq (s t : jsstring) : s <> t -> list_eqb s t = false.
Proof.
  intros H. destruct (list_eqb s t) eqn:E; [|reflexivity].
  apply list_eqb_eq in E. contradiction.
Qed.

Lemma list_eqb_sym (s t : jsstring) : list_eqb s t = list_eqb t s.
Proof.
  destruct (list_eqb t s) eqn:E.
  - apply list_eqb_eq in E. subst. apply list_eqb_refl.
  - apply list_eqb_neq. intros ->. now rewrite list_eqb_refl in E.
Qed.

Lemma selection_of_replace (o : Selections) (key : jsstring)
  (s : UserSelection) :
  selection_of o key <> None ->
  selection_of (replace_selection o key s) key = Some s /\
  forall k, k <> key ->
            selection_of (replace_selection o key s) k = selection_of o k.
Proof.
  induction o as [|[k0 old] o IH]; intros H; [now contradiction H|].
  cbn [selection_of replace_selection] in *.
  destruct (list_eqb k0 key) eqn:E.
  - apply list_eqb_eq in E. subst k0. cbn [selection_of].
    rewrite list_eqb_refl. split; [reflexivity|].
    intros k Hk. now rewrite (list_eqb_neq key k) by congruence.
  - destruct (IH H) as [IH1 IH2]. cbn [selection_of]. rewrite E.
    split; [exact IH1|]. intros k Hk.
    destruct (list_eqb k0 k); [reflexivity | now apply IH2].
Qed.

Lemma selection_of_place (o : Selections) (n : Z) (key : jsstring)
  (s : UserSelection) :
  selection_of o key = None ->
  selection_of (place_index o n key s) key = Some s /\
  forall k, k <> key ->
            selection_of (place_index o n key s) k = selection_of o k.
Proof.
  induction o as [|[k0 old] o IH]; intros H.
  - cbn [place_index selection_of]. rewrite list_eqb_refl.
    split; [reflexivity|]. intros k Hk.
    now rewrite (list_eqb_neq key k) by congruence.
  - cbn [selection_of] in H. destruct (list_eqb k0 key) eqn:E; [discriminate|].
    cbn [place_index].
    assert (Hnew : selection_of ((key, s) :: (k0, old) :: o) key = Some s /\
                   forall k, k <> key ->
                   selection_of ((key, s) :: (k0, old) :: o) k
                   = selection_of ((k0, old) :: o) k).
    { cbn [selection_of]. rewrite list_eqb_refl. split; [reflexivity|].
      intros k Hk. now rewrite (list_eqb_neq key k) by congruence. }
    destruct (array_index k0) as [m|]; [|exact Hnew].
    destruct (m <? n); [|exact Hnew].
    destruct (IH H) as [IH1 IH2]. cbn [selection_of]. rewrite E.
    split; [exact IH1|]. intros k Hk.
    destruct (list_eqb k0 k); [reflexivity | now apply IH2].
Qed.

Lemma selection_of_app (o : Selections) (key : jsstring) (s : UserSelection) :
  selection_of o key = None ->
  selection_of (o ++ [(key, s)]) key = Some s /\
  forall k, k <> key -> selection_of (o ++ [(key, s)]) k = selection_of o k.
Proof.
  induction o as [|[k0 old] o IH]; intros H.
  - cbn [app selection_of]. rewrite list_eqb_refl. split; [reflexivity|].
    intros k Hk. now rewrite (list_eqb_neq key k) by congruence.
  - cbn [selection_of] in H. destruct (list_eqb k0 key) eqn:E; [discriminate|].
    destruct (IH H) as [IH1 IH2]. cbn [app selection_of]. rewrite E.
    split; [exact IH1|]. intros k Hk.
    destruct (list_eqb k0 k); [reflexivity | now apply IH2].
Qed.

(** The property written is the property read; no other one changes. *)
Lemma selection_of_with (o : Selections) (key : jsstring) (s : UserSelection) :
  selection_of (with_selection o key s) key = Some s /\
  forall k, k <> key ->
            selection_of (with_selection o key s) k = selection_of o k.
Proof.
  unfold with_selection. destruct (selection_of o key) as [e|] eqn:E.
  - apply selection_of_replace. now rewrite E.
  - destruct (array_index key) as [n|].
    + now apply selection_of_place.
    + now apply selection_of_app.
Qed.

(** The keys after a write: those before, and the key written. *)
Lemma keys_replace (o : Selections) (key : jsstring) (s : UserSelection) :
  map fst (replace_selection o key s) = map fst o.
Proof.
  induction o as [|[k0 old] o IH]; [reflexivity|].
  cbn [replace_selection]. destruct (list_eqb k0 key); cbn [map fst];
    [reflexivity | now rewrite IH].
Qed.

Lemma selection_of_none (o : Selections) (key : jsstring) :
  selection_of o key = None <-> ~ In key (map fst o).
Proof.
  induction o as [|[k0 old] o IH]; cbn [selection_of map fst In].
  - tauto.
  - destruct (list_eqb k0 key) eqn:E.
    + apply list_eqb_eq in E. split; [discriminate | tauto].
    + assert (k0 <> key) by (intros ->; now rewrite list_eqb_refl in E).
      tauto.
Qed.

Lemma place_index_perm (o : Selections) (n : Z) (key : jsstring)
  (s : UserSelection) :
  exists before after,
    o = before ++ after /\ place_index o n key s = before ++ (key, s) :: after.
Proof.
  induction o as [|[k0 old] o (b & a & Ho & Hp)].
  - exists [], []. split; reflexivity.
  - cbn [place_index].
    assert (Hnew : exists before after,
               (k0, old) :: o = before ++ after /\
               (key, s) :: (k0, old) :: o = before ++ (key, s) :: after)
      by (exists [], ((k0, old) :: o); split; reflexivity).
    destruct (array_index k0) as [m|]; [|exact Hnew].
    destruct (m <? n); [|exact Hnew].
    exists ((k0, old) :: b), a. cbn [app]. rewrite Hp, <- Ho. split; reflexivity.
Qed.

(** A write of a new key puts one property somewhere in the enumeration
    and leaves the others in their order. *)
Lemma with_selection_new (o : Selections) (key : jsstring) (s : UserSelection) :
  selection_of o key = None ->
  exists before after,
    o = before ++ after /\ with_selection o key s = before ++ (key, s) :: after.
Proof.
  intros H. unfold with_selection. rewrite H.
  destruct (array_index key) as [n|].
  - apply place_index_perm.
  - exists o, []. now rewrite app_nil_r.
Qed.

(** A write over an existing key changes that property where it is. *)
Lemma with_selection_old (o : Selections) (key : jsstring) (s : UserSelection) :
  selection_of o key <> None ->
  exists before old after,
    o = before ++ (key, old) :: after /\ selection_of o key = Some old /\
    selection_of before key = None /\
    with_selection o key s = before ++ (key, s) :: after.
Proof.
  intros H. unfold with_selection.
  destruct (selection_of o key) as [e|] eqn:E; [clear H | now contradiction H].
  induction o as [|[k0 old] o IH]; [discriminate E|].
  cbn [selection_of replace_selection] in *.
  destruct (list_eqb k0 key) eqn:Ek.
  - apply list_eqb_eq in Ek. subst k0. injection E as ->.
    exists [], e, o. repeat split.
  - destruct (IH E) as (b & old' & a & Ho & Hs & Hb & Hr).
    exists ((k0, old) :: b), old', a. cbn [app selection_of].
    rewrite Ek, Hr, <- Ho. repeat split; assumption.
Qed.

End SelectionFacts.

(* ================================================================== *)
(** ** Numbers: what the split counter needs *)
(* ================================================================== *)

Section CounterArithmetic.

Lemma shr_1_nonneg (mrs : shr_record) :
  0 <= shr_m mrs -> 0 <= shr_m (shr_1 mrs).
Proof.
  destruct mrs as [m r s]. cbn [shr_m]. intros H.
  destruct m as [|p|p]; [| |lia]; [|destruct p]; cbn; lia.
Qed.

Lemma shr_nonneg (mrs : shr_record) (e n : Z) :
  0 <= shr_m mrs -> 0 <= shr_m (fst (shr mrs e n)).
Proof.
  intros H. unfold shr. destruct n as [|p|p]; cbn [fst]; try exact H.
  rewrite iter_pos_nat. induction (Pos.to_nat p) as [|k IH]; [exact H|].
  cbn [Nat.iter]. now apply shr_1_nonneg.
Qed.

Lemma shr_fexp_nonneg (m e : Z) (l : location) :
  0 <= m -> 0 <= shr_m (fst (shr_fexp prec emax m e l)).
Proof.
  intros H. unfold shr_fexp. apply shr_nonneg.
  destruct l as [|[| |]]; exact H.
Qed.

Lemma round_nearest_even_nonneg (m : Z) (l : location) :
  0 <= m -> 0 <= round_nearest_even m l.
Proof.
  intros H. destruct l as [|[| |]]; cbn [round_nearest_even]; try lia.
  destruct (Z.even m); lia.
Qed.

(** Rounding a non-negative mantissa gives a zero, a finite number or an
    infinity. *)
Lemma binary_round_aux_number (sx : bool) (mx ex : Z) (lx : location) :
  0 <= mx -> isNaN (binary_round_aux prec emax sx mx ex lx) = false.
Proof.
  intros H. unfold binary_round_aux.
  pose proof (shr_fexp_nonneg mx ex lx H) as H1.
  destruct (shr_fexp prec emax mx ex lx) as [mrs' e']. cbn [fst] in H1.
  pose proof (shr_fexp_nonneg _ e' loc_Exact
                (round_nearest_even_nonneg _ (loc_of_shr_record mrs') H1)) as H2.
  destruct (shr_fexp prec emax _ e' loc_Exact) as [mrs'' e'']. cbn [fst] in H2.
  destruct (shr_m mrs'') as [|p|p]; [reflexivity| |lia].
  destruct (e'' <=? emax - prec); reflexivity.
Qed.

Lemma binary_normalize_number (m e : Z) (szero : bool) :
  isNaN (binary_normalize prec emax m e szero) = false.
Proof.
  unfold binary_normalize, binary_round.
  destruct m as [|p|p]; [reflexivity | |];
    destruct (shl_align _ _ _) as [mz ez];
    apply binary_round_aux_number; lia.
Qed.

(** [x + y] and [x - y] are numbers when [x] is one and [y] is finite. *)
Lemma add_finite_number (x y : number) :
  isNaN x = false -> isFinite y = true -> isNaN (add x y) = false.
Proof.
  intros Hx Hy. unfold add.
  destruct x as [sx|sx| |sx mx ex]; try discriminate Hx;
    destruct y as [sy|sy| |sy my ey]; try discriminate Hy;
    cbn [SFadd]; try reflexivity.
  - destruct sx, sy; reflexivity.
  - apply binary_normalize_number.
Qed.

Lemma sub_finite_number (x y : number) :
  isNaN x = false -> isFinite y = true -> isNaN (sub x y) = false.
Proof.
  intros Hx Hy. unfold sub.
  destruct x as [sx|sx| |sx mx ex]; try discriminate Hx;
    destruct y as [sy|sy| |sy my ey]; try discriminate Hy;
    cbn [SFsub]; try reflexivity.
  - destruct sx, sy; reflexivity.
  - apply binary_normalize_number.
Qed.

Lemma lt_asym (x y : number) : lt x y = true -> lt y x = false.
Proof.
  unfold lt, SFltb.
  destruct x as [sx|sx| |sx mx ex]; destruct y as [sy|sy| |sy my ey];
    cbn [SFcompare]; try discriminate; try reflexivity;
    try (destruct sx; try discriminate; destruct sy; try discriminate;
         reflexivity).
  destruct sx, sy; try discriminate; try reflexivity;
    rewrite (Z.compare_antisym ex ey);
    destruct (ex ?= ey); cbn [CompOpp]; try discriminate; try reflexivity;
    rewrite !Pos.compare_cont_spec, (Pos.compare_antisym mx my);
    cbn [Pos.switch_Eq];
    destruct (mx ?= my)%positive; cbn [CompOpp]; try discriminate;
    reflexivity.
Qed.

(** [Math.max(1, count)]: NaN when [count] is NaN, otherwise the larger of
    the two, which is at least 1. *)
Lemma Math_max_one (count : number) :
  Math_max [of_Z 1; count]
  = if isNaN count then NaN
    else if gt count (of_Z 1) then count else of_Z 1.
Proof.
  unfold Math_max. cbn [existsb orb].
  change (isNaN (of_Z 1)) with false. cbn [orb].
  destruct (isNaN count) eqn:H; [reflexivity|]. cbn [fold_left].
  change (max_step (S754_infinity true) (of_Z 1)) with (of_Z 1).
  destruct count as [[|]|[|]| |[|] m e]; reflexivity.
Qed.

(** At least 1: a number, and not below 1. *)
Definition at_least_one (x : number) : bool :=
  negb (isNaN x) && negb (lt x (of_Z 1)).

Lemma Math_max_one_least (count : number) :
  isNaN count = false -> at_least_one (Math_max [of_Z 1; count]) = true.
Proof.
  intros H. rewrite Math_max_one, H. unfold at_least_one.
  destruct (gt count (of_Z 1)) eqn:G.
  - rewrite H. unfold gt in G. fold (lt (of_Z 1) count) in G.
    now rewrite (lt_asym _ _ G).
  - reflexivity.
Qed.

Lemma at_least_one_truthy (x : number) :
  at_least_one x = true -> or_num x (of_Z 1) = x /\ isNaN x = false.
Proof.
  unfold at_least_one, or_num.
  destruct x as [s|s| |s m e]; intros H.
  - destruct s; vm_compute in H; discriminate H.
  - split; reflexivity.
  - discriminate H.
  - split; reflexivity.
Qed.

End CounterArithmetic.

(* ================================================================== *)
(** ** The handlers, one by one *)
(* ================================================================== *)

Section HandlerFacts.

(** The three outcomes of [handleHashChange]: nothing, the invalid-link
    state, or a receipt the validator returned. *)
Lemma handleHashChange_outcomes (st : AppModel) (location_hash : jsstring) :
  handleHashChange st location_hash = st \/
  handleHashChange st location_hash = link_invalid st \/
  exists rawData validated,
    validateReceiptIntegrity rawData = Some validated /\
    handleHashChange st location_hash = link_loaded st validated.
Proof.
  unfold handleHashChange.
  destruct (negb (is_nil (skipn 1 location_hash))
            && (10 <? Z.of_nat (length (skipn 1 location_hash))));
    [|now left].
  destruct (decodeURIComponent (skipn 1 location_hash)) as [decoded|e];
    cbn [bind try_catch]; [|right; now left].
  destruct (negb (is_nil (safeAtob decoded))); [|now left].
  destruct (JSON.parse (safeAtob decoded)) as [rawData|e];
    cbn [bind try_catch]; [|right; now left].
  destruct (validateReceiptIntegrity rawData) as [validated|] eqn:E;
    cbn [try_catch].
  - right. right. exists rawData, validated. split; [exact E | reflexivity].
  - right. now left.
Qed.

End HandlerFacts.

(* ================================================================== *)
(** ** What holds in every state the application can reach *)
(* ================================================================== *)

Section SessionInvariant.

(** A selection as the handlers leave it: filed under its own item id,
    with a split count that is a number and at least 1. *)
Definition selection_ok (kv : jsstring * UserSelection) : Prop :=
  (snd kv).(itemId) = fst kv /\ at_least_one (snd kv).(splitCount) = true.

(** The screens that show a receipt. *)
Definition shows_receipt (s : AppState) : bool :=
  match s with
  | CONFIRM_INFO | SELECT_ITEMS | SUMMARY => true
  | _ => false
  end.

Definition core_ok (c : AppModel) : Prop :=
  (forall r, c.(receipt) = Some r -> validated r) /\
  Forall selection_ok c.(userSelections) /\
  NoDup (map fst c.(userSelections)) /\
  (shows_receipt c.(appState) = true -> c.(receipt) <> None) /\
  (c.(appState) = SUMMARY ->
   strict_equal (calculations c.(receipt) c.(userSelections)).(Share.subtotal)
                zero = false).

Lemma selection_of_in (o : Selections) (key : jsstring) (e : UserSelection) :
  selection_of o key = Some e -> In (key, e) o.
Proof.
  induction o as [|[k0 old] o IH]; [discriminate|].
  cbn [selection_of]. destruct (list_eqb k0 key) eqn:E.
  - apply list_eqb_eq in E. subst k0. intros [= ->]. now left.
  - intros H. right. now apply IH.
Qed.

Lemma selection_of_ok (o : Selections) (key : jsstring) (e : UserSelection) :
  Forall selection_ok o -> selection_of o key = Some e ->
  e.(itemId) = key /\ at_least_one e.(splitCount) = true.
Proof.
  intros Ho He. apply selection_of_in in He.
  rewrite Forall_forall in Ho. exact (Ho _ He).
Qed.

(** Writing a well-formed selection under its id keeps the map
    well-formed, each key once. *)
Lemma with_selection_ok (o : Selections) (key : jsstring) (s : UserSelection) :
  Forall selection_ok o -> NoDup (map fst o) -> selection_ok (key, s) ->
  Forall selection_ok (with_selection o key s) /\
  NoDup (map fst (with_selection o key s)).
Proof.
  intros Ho Hd Hs. destruct (selection_of o key) as [e|] eqn:E.
  - destruct (with_selection_old o key s) as (b & old & a & Ho' & _ & _ & ->);
      [now rewrite E|].
    subst o. split.
    + apply Forall_app in Ho. destruct Ho as [Hb Ha].
      apply Forall_app. split; [exact Hb|].
      constructor; [exact Hs | now inversion Ha].
    + rewrite map_app in *. exact Hd.
  - destruct (with_selection_new o key s E) as (b & a & Ho' & ->).
    subst o. split.
    + apply Forall_app in Ho. destruct Ho as [Hb Ha].
      apply Forall_app. split; [exact Hb | now constructor].
    + apply selection_of_none in E. rewrite map_app in *. cbn [map fst].
      apply (NoDup_Add (Add_app key _ _)). split; assumption.
Qed.

Lemma one_at_least_one : at_least_one (of_Z 1) = true.
Proof. vm_compute. reflexivity. Qed.

Lemma one_finite : isFinite (of_Z 1) = true.
Proof. vm_compute. reflexivity. Qed.

Lemma toggleItem_ok (key : jsstring) (o : Selections) :
  Forall selection_ok o -> NoDup (map fst o) ->
  Forall selection_ok (toggleItem key o) /\ NoDup (map fst (toggleItem key o)).
Proof.
  intros Ho Hd. unfold toggleItem. apply with_selection_ok; try assumption.
  split; [reflexivity|]. cbn [snd splitCount].
  destruct (selection_of o key) as [e|] eqn:E; [|apply one_at_least_one].
  destruct (selection_of_ok o key e Ho E) as [_ H].
  now rewrite (proj1 (at_least_one_truthy _ H)).
Qed.

Lemma row_splitCount_number (o : Selections) (key : jsstring) :
  Forall selection_ok o -> isNaN (row_splitCount o key) = false.
Proof.
  intros Ho. unfold row_splitCount.
  destruct (selection_of o key) as [e|] eqn:E; [|vm_compute; reflexivity].
  destruct (selection_of_ok o key e Ho E) as [_ H].
  destruct (at_least_one_truthy _ H) as [-> Hn]. exact Hn.
Qed.

(** Where [existing] is a selection, or nothing at all, [updateSplit]
    stores a selection. *)
Lemma updateSplit_stored (key : jsstring) (count : number) (o : Selections) :
  selection_of o key <> None \/ inherited key = false ->
  updateSplit key count o
  = Stored (with_selection o key
              {| itemId := match selection_of o key with
                           | Some e => e.(itemId)
                           | None => key
                           end;
                 isSelected := match selection_of o key with
                               | Some e => e.(isSelected)
                               | None => true
                               end;
                 splitCount := Math_max [of_Z 1; count] |}).
Proof.
  intros H. unfold updateSplit.
  destruct (selection_of o key) as [e|]; [reflexivity|].
  destruct H as [H | ->]; [now contradiction H | reflexivity].
Qed.

(** An inherited [existing] leaves the count alone. *)
Lemma updateSplit_inherited (key : jsstring) (count : number)
  (o : Selections) :
  selection_of o key = None -> inherited key = true ->
  updateSplit key count o = CountOnly (Math_max [of_Z 1; count]).
Proof. intros H1 H2. unfold updateSplit. now rewrite H1, H2. Qed.

Lemma updateSplit_cases (key : jsstring) (count : number) (o : Selections) :
  (selection_of o key <> None \/ inherited key = false)
  \/ (selection_of o key = None /\ inherited key = true).
Proof.
  destruct (selection_of o key); [left; left; discriminate|].
  destruct (inherited key); [right; now split | left; now right].
Qed.

Lemma updateSplit_ok (key : jsstring) (count : number) (o next : Selections) :
  Forall selection_ok o -> NoDup (map fst o) -> isNaN count = false ->
  updateSplit key count o = Stored next ->
  Forall selection_ok next /\ NoDup (map fst next).
Proof.
  intros Ho Hd Hc Hu.
  destruct (updateSplit_cases key count o) as [H | [H1 H2]].
  - rewrite (updateSplit_stored key count o H) in Hu.
    injection Hu as <-. apply with_selection_ok; try assumption.
    split; cbn [snd fst itemId splitCount].
    + destruct (selection_of o key) as [e|] eqn:E; [|reflexivity].
      exact (proj1 (selection_of_ok o key e Ho E)).
    + now apply Math_max_one_least.
  - rewrite (updateSplit_inherited key count o H1 H2) in Hu. discriminate.
Qed.

(** The split buttons keep the selections as they should be. *)
Lemma split_button_ok (a : App) (key : jsstring) (count : number) :
  isNaN count = false ->
  Forall selection_ok a.(core).(userSelections) ->
  NoDup (map fst a.(core).(userSelections)) ->
  Forall selection_ok (split_button a key count).(core).(userSelections) /\
  NoDup (map fst (split_button a key count).(core).(userSelections)) /\
  (split_button a key count).(core).(receipt) = a.(core).(receipt) /\
  (split_button a key count).(core).(appState) = a.(core).(appState).
Proof.
  intros Hc Ho Hd. unfold split_button.
  destruct (updateSplit key count (userSelections (core a))) as [next|n] eqn:E.
  - destruct (updateSplit_ok key count _ next Ho Hd Hc E) as [T1 T2].
    cbn [with_core core setUserSelections userSelections receipt appState].
    repeat split; assumption.
  - repeat split; assumption.
Qed.

(** On a row that shows them, the split buttons store a selection. *)
Lemma split_button_stores (a : App) (key : jsstring) (count : number) :
  row_isSelected a.(core).(userSelections) key = true ->
  exists next,
    updateSplit key count a.(core).(userSelections) = Stored next.
Proof.
  unfold row_isSelected. intros H. eexists. apply updateSplit_stored.
  left. destruct (selection_of _ key); [discriminate | discriminate H].
Qed.

Lemma initial_ok : core_ok initial.
Proof.
  unfold core_ok, initial. cbn [receipt userSelections appState map].
  repeat split; try discriminate; constructor.
Qed.

Lemma handleHashChange_ok (c : AppModel) (location_hash : jsstring) :
  core_ok c -> core_ok (handleHashChange c location_hash).
Proof.
  intros (H1 & H2 & H3 & H4 & H5).
  destruct (handleHashChange_outcomes c location_hash)
    as [-> | [-> | (raw & v & Hv & ->)]].
  - repeat split; assumption.
  - unfold core_ok, link_invalid. cbn [receipt userSelections appState].
    repeat split; try assumption; discriminate.
  - unfold core_ok, link_loaded. cbn [receipt userSelections appState].
    repeat split; try assumption; try discriminate.
    intros r [= <-]. now exists raw.
Qed.

Lemma handleCapture_finish_ok (a : App) (result : analysis) :
  core_ok a.(core) -> core_ok (handleCapture_finish a result).(core).
Proof.
  intros (H1 & H2 & H3 & H4 & H5). unfold handleCapture_finish. cbn [core].
  destruct result as [data|message].
  - destruct (validateReceiptIntegrity data) as [v|] eqn:E;
      unfold core_ok; cbn [receipt userSelections appState];
      repeat split; try assumption; try discriminate.
    intros r [= <-]. now exists data.
  - unfold core_ok; cbn [receipt userSelections appState];
      repeat split; try assumption; discriminate.
Qed.

(** Every handler keeps the state well-formed. *)
Lemma handle_ok (a : App) (e : event) :
  core_ok a.(core) -> enabled a e = true -> core_ok (handle a e).(core).
Proof.
  intros Hok He. pose proof Hok as (H1 & H2 & H3 & H4 & H5).
  destruct e as [h|code| | | |result| | |key|key|key| | |];
    cbn [handle with_core core].
  - now apply handleHashChange_ok.
  - exact Hok.
  - unfold core_ok, setAppState. cbn [receipt userSelections appState].
    repeat split; try assumption; discriminate.
  - unfold core_ok, setAppState. cbn [receipt userSelections appState].
    repeat split; try assumption; discriminate.
  - unfold core_ok, handleCapture_start. cbn [core receipt userSelections appState].
    repeat split; try assumption; discriminate.
  - now apply handleCapture_finish_ok.
  - cbn [enabled] in He. apply andb_prop in He. destruct He as [_ Hr].
    unfold has_receipt in Hr.
    unfold core_ok, setAppState. cbn [receipt userSelections appState].
    repeat split; try assumption; try discriminate.
    intros _ Hn. now rewrite Hn in Hr.
  - unfold core_ok, handleStartOver. cbn [receipt userSelections appState map].
    repeat split; try discriminate; constructor.
  - cbn [enabled] in He. apply andb_prop in He. destruct He as [Hs _].
    unfold on_screen in Hs.
    destruct (toggleItem_ok key _ H2 H3) as [T1 T2].
    unfold core_ok, setUserSelections. cbn [receipt userSelections appState].
    repeat split; try assumption.
    intros Hsum. rewrite Hsum in Hs. discriminate Hs.
  - cbn [enabled] in He.
    apply andb_prop in He. destruct He as [He _].
    apply andb_prop in He. destruct He as [Hs _].
    unfold on_screen in Hs.
    destruct (split_button_ok a key
                (sub (row_splitCount (userSelections (core a)) key) (of_Z 1)))
      as (T1 & T2 & T3 & T4); try assumption.
    { apply sub_finite_number; [now apply row_splitCount_number|].
      apply one_finite. }
    unfold core_ok. rewrite T3, T4. repeat split; try assumption.
    intros Hsum. rewrite Hsum in Hs. discriminate Hs.
  - cbn [enabled] in He.
    apply andb_prop in He. destruct He as [He _].
    apply andb_prop in He. destruct He as [Hs _].
    unfold on_screen in Hs.
    destruct (split_button_ok a key
                (add (row_splitCount (userSelections (core a)) key) (of_Z 1)))
      as (T1 & T2 & T3 & T4); try assumption.
    { apply add_finite_number; [now apply row_splitCount_number|].
      apply one_finite. }
    unfold core_ok. rewrite T3, T4. repeat split; try assumption.
    intros Hsum. rewrite Hsum in Hs. discriminate Hs.
  - cbn [enabled] in He.
    apply andb_prop in He. destruct He as [He Hz].
    apply andb_prop in He. destruct He as [_ Hr].
    unfold has_receipt in Hr. apply negb_true_iff in Hz.
    unfold core_ok, setAppState. cbn [receipt userSelections appState].
    repeat split; try assumption.
    + intros _ Hn. now rewrite Hn in Hr.
    + intros _. exact Hz.
  - cbn [enabled] in He. apply andb_prop in He. destruct He as [_ Hr].
    unfold has_receipt in Hr.
    unfold core_ok, setAppState. cbn [receipt userSelections appState].
    repeat split; try assumption; try discriminate.
    intros _ Hn. now rewrite Hn in Hr.
  - exact Hok.
Qed.

Lemma reachable_ok (a : App) : reachable a -> core_ok a.(core).
Proof.
  induction 1 as [|a e _ IH He]; [apply initial_ok | now apply handle_ok].
Qed.

End SessionInvariant.

(* ================================================================== *)
(** ** Scanned receipts: the ids the analysis service assigns *)
(* ================================================================== *)

Section CaptureFacts.
Import JSON.

Lemma lookup_set_prop (props : list (jsstring * value)) (key : jsstring)
  (v : value) :
  lookup key (set_prop props key v) = Some v /\
  forall k, k <> key -> lookup k (set_prop props key v) = lookup k props.
Proof.
  induction props as [|[k0 old] props [IH1 IH2]]; cbn [set_prop lookup].
  - rewrite list_eqb_refl. split; [reflexivity|]. intros k Hk.
    now rewrite (list_eqb_neq key k) by congruence.
  - destruct (list_eqb k0 key) eqn:E; cbn [lookup].
    + apply list_eqb_eq in E. subst k0. rewrite list_eqb_refl.
      split; [reflexivity|]. intros k Hk.
      now rewrite (list_eqb_neq key k) by congruence.
    + rewrite E. split; [exact IH1|]. intros k Hk.
      destruct (list_eqb k0 k); [reflexivity | now apply IH2].
Qed.

Lemma field_set_prop (props : list (jsstring * value)) (key : jsstring)
  (v : value) :
  field (Obj (set_prop props key v)) key = v.
Proof.
  unfold field, get. now rewrite (proj1 (lookup_set_prop props key v)).
Qed.

Lemma field_set_prop_other (props : list (jsstring * value))
  (key k : jsstring) (v : value) :
  list_eqb k key = false ->
  field (Obj (set_prop props key v)) k = field (Obj props) k.
Proof.
  intros H. unfold field, get.
  rewrite (proj2 (lookup_set_prop props key v)); [reflexivity|].
  intros ->. now rewrite list_eqb_refl in H.
Qed.

(** *** The id of a scanned item *)

Lemma decimal_fuel_length (f : nat) :
  forall z acc, (length (decimal_fuel f z acc) <= f + length acc)%nat.
Proof.
  induction f as [|f IH]; intros z acc; cbn [decimal_fuel]; [lia|].
  destruct (z <? 10); [cbn [length]; lia|].
  specialize (IH (z / 10) ((48 + z mod 10) :: acc)). cbn [length] in IH. lia.
Qed.

Lemma decimal_length (z : Z) :
  0 <= z < 2 ^ 64 -> (length (decimal z) <= 64)%nat.
Proof.
  intros Hz. unfold decimal.
  pose proof (decimal_fuel_length (S (Z.to_nat (Z.log2 z))) z []) as H.
  cbn [length] in H.
  assert (Z.log2 z < 64).
  { destruct (Z.eq_dec z 0) as [->|Hn]; [cbn; lia|].
    apply Z.log2_lt_pow2; lia. }
  pose proof (Z.log2_nonneg z). lia.
Qed.

(** The characters of an id: letters, digits and the minus sign. *)
Definition id_char (c : char16) : bool :=
  isDigit c || (c =? 45) || ((97 <=? c) && (c <=? 122)).

Lemma digit_id_char (ds : jsstring) :
  forallb isDigit ds = true -> forallb id_char ds = true.
Proof.
  induction ds as [|d ds IH]; [reflexivity|]. cbn [forallb]. intros H.
  apply andb_prop in H. destruct H as [Hd Hs].
  unfold id_char at 1. now rewrite Hd, IH.
Qed.

Lemma integer_text_chars (z : Z) :
  - 2 ^ 64 < z < 2 ^ 64 ->
  forallb id_char (integer_text z) = true /\
  (1 <= length (integer_text z) <= 65)%nat.
Proof.
  intros Hz. unfold integer_text. destruct (z <? 0) eqn:Hneg.
  - destruct (decimal_digits (- z)) as (Hd & _ & Hl & _); [lia|].
    pose proof (decimal_length (- z)). cbn [forallb length].
    rewrite (digit_id_char _ Hd). split; [reflexivity | lia].
  - destruct (decimal_digits z) as (Hd & _ & Hl & _); [lia|].
    pose proof (decimal_length z).
    rewrite (digit_id_char _ Hd). split; [reflexivity | lia].
Qed.

Lemma item_id_chars (index : nat) (now : Z) :
  Z.of_nat index < 2 ^ 64 -> - 2 ^ 64 < now < 2 ^ 64 ->
  forallb id_char (item_id index now) = true /\
  (7 <= length (item_id index now) <= 255)%nat.
Proof.
  intros Hi Hn. unfold item_id.
  destruct (integer_text_chars now Hn) as [Hc Hl].
  destruct (decimal_digits (Z.of_nat index)) as (Hd & _ & Hdl & _); [lia|].
  pose proof (decimal_length (Z.of_nat index)) as Hdl'.
  rewrite !forallb_app. cbn [forallb].
  rewrite (digit_id_char _ Hd), Hc.
  split; [reflexivity|].
  rewrite !length_app. cbn [length].
  change (length (lit "item-")) with 5%nat. lia.
Qed.

Lemma id_char_plain (c : char16) :
  id_char c = true -> c <> 60 /\ isWhiteSpace c = false.
Proof. unfold id_char, isDigit, isWhiteSpace. lia. Qed.

Lemma id_chars_no_lt (s : jsstring) :
  forallb id_char s = true -> ~ In 60 s.
Proof.
  rewrite forallb_forall. intros H Hin.
  now destruct (id_char_plain 60 (H _ Hin)).
Qed.

Lemma id_chars_ends (s : jsstring) :
  forallb id_char s = true ->
  startsWithWhiteSpace s = false /\ endsWithWhiteSpace s = false.
Proof.
  intros H. split.
  - destruct s as [|c s]; [reflexivity|]. cbn [forallb] in H.
    apply andb_prop in H. now apply id_char_plain.
  - unfold endsWithWhiteSpace.
    destruct (rev s) as [|c t] eqn:E; [reflexivity|].
    rewrite forallb_forall in H. apply id_char_plain, H.
    apply in_rev. rewrite E. now left.
Qed.

(** The sanitizer leaves the id of a scanned item as it is. *)
Lemma sanitizeString_item_id (index : nat) (now : Z) :
  Z.of_nat index < 2 ^ 64 -> - 2 ^ 64 < now < 2 ^ 64 ->
  sanitizeString (item_id index now) = item_id index now.
Proof.
  intros Hi Hn. destruct (item_id_chars index now Hi Hn) as [Hc Hl].
  apply sanitizeString_fixed. destruct (id_chars_ends _ Hc) as [Hs He].
  repeat split; try assumption; [now apply id_chars_no_lt | lia].
Qed.

Lemma digits_before_minus (ds1 ds2 r1 r2 : jsstring) :
  forallb isDigit ds1 = true -> forallb isDigit ds2 = true ->
  ds1 ++ 45 :: r1 = ds2 ++ 45 :: r2 -> ds1 = ds2.
Proof.
  revert ds2. induction ds1 as [|d ds1 IH]; intros [|e ds2] H1 H2 H;
    cbn [app forallb] in *.
  - reflexivity.
  - injection H as <- _. apply andb_prop in H2. destruct H2 as [H2 _].
    discriminate H2.
  - injection H as -> _. apply andb_prop in H1. destruct H1 as [H1 _].
    discriminate H1.
  - injection H as -> H. apply andb_prop in H1. apply andb_prop in H2.
    f_equal. apply (IH ds2); tauto.
Qed.

(** Two ids are equal only for the same index. *)
Lemma item_id_index (i j : nat) (t u : Z) :
  item_id i t = item_id j u -> i = j.
Proof.
  unfold item_id. intros H. apply app_inv_head in H.
  destruct (decimal_digits (Z.of_nat i)) as (Hi & _); [lia|].
  destruct (decimal_digits (Z.of_nat j)) as (Hj & _); [lia|].
  apply digits_before_minus in H; try assumption.
  apply (f_equal (horner 0)) in H. rewrite !horner_decimal in H by lia. lia.
Qed.

(** *** What [analyzeReceipt] hands over *)

Lemma with_ids_length (elems : list value) (now : nat -> Z) :
  forall index, length (with_ids elems index now) = length elems.
Proof.
  induction elems as [|e elems IH]; intros index; cbn [with_ids length];
    [reflexivity | now rewrite IH].
Qed.

(** An item out of [with_ids] is repaired to its new id and, for the
    rest, as the item it was made from. *)
Lemma with_ids_repairable (elems : list value) (now : nat -> Z) :
  forall index,
  map id (repaired_items (with_ids elems index now) index)
  = map (fun k => sanitizeString (item_id k (now k)))
        (seq index (length elems)).
Proof.
  induction elems as [|e elems IH]; intros index; [reflexivity|].
  cbn [with_ids repaired_items map length seq]. rewrite IH. f_equal.
  unfold repaired_item. cbn [id]. rewrite field_set_prop.
  unfold string_or, or. cbn [truthy].
  assert (Hne : is_nil (item_id index (now index)) = false) by reflexivity.
  now rewrite Hne.
Qed.

(** The data of a successful analysis: its [items] are an array out of
    [with_ids]. *)
Lemma analysis_items (r : reply) (now : nat -> Z) (data : value) :
  analyzeReceipt r now = Analysed data ->
  exists elems, field data (lit "items") = Arr (with_ids elems 0 now).
Proof.
  unfold analyzeReceipt. destruct r as [|text]; [discriminate|].
  destruct (analysis_body text now) as [d|e] eqn:E; [|discriminate].
  intros [= <-]. unfold analysis_body in E.
  destruct (JSON.parse _) as [parsed|]; [|discriminate E]. cbn [bind] in E.
  destruct (get parsed (lit "tip")) as [tip|]; [|discriminate E].
  destruct (get parsed (lit "tax")) as [tax|]; [|discriminate E].
  destruct (get parsed (lit "subtotal")) as [sub_|]; [|discriminate E].
  destruct (get parsed (lit "items")) as [its|]; [|discriminate E].
  cbn [bind] in E.
  destruct (or its (Arr [])) as [| | | | |elems|]; try discriminate E.
  cbn [bind] in E. injection E as <-. exists elems. apply field_set_prop.
Qed.

Lemma find_item_own (its : list ReceiptItem) (item : ReceiptItem) :
  NoDup (map id its) -> In item its ->
  find_item its item.(id) = Some item.
Proof.
  unfold find_item. induction its as [|i its IH]; intros Hd Hin; [easy|].
  cbn [map] in Hd. inversion Hd as [|? ? Hni Hd']; subst.
  cbn [find]. destruct Hin as [->|Hin].
  - now rewrite list_eqb_refl.
  - destruct (list_eqb (id i) (id item)) eqn:E; [|now apply IH].
    apply list_eqb_eq in E. exfalso. apply Hni. rewrite E.
    now apply in_map.
Qed.

Lemma item_ids_nodup (now : nat -> Z) (n : nat) :
  forall index, NoDup (map (fun k => item_id k (now k)) (seq index n)).
Proof.
  induction n as [|n IH]; intros index; cbn [seq map]; constructor.
  - intros Hin. apply in_map_iff in Hin. destruct Hin as (k & Hk & Hin).
    apply item_id_index in Hk. apply in_seq in Hin. lia.
  - apply IH.
Qed.


(** *** The outcomes of [handleCapture] *)


End CaptureFacts.

(* ================================================================== *)
(** ** The share link for every validated receipt *)
(* ================================================================== *)

Section LinkInGeneral.
Import JSON.

(** What the JSON text carries of a number: the number itself when it is
    finite, [null] otherwise. *)
Definition carried (x : number) : value := if isFinite x then Num x else Null.

Definition carried_text (x : number) : jsstring :=
  if isFinite x then JSNumber.toString x else lit "null".

Definition carried_item_props (i : ReceiptItem) : list (jsstring * value) :=
  [ (lit "id", Str i.(id));
    (lit "quantity", carried i.(quantity));
    (lit "description", Str i.(description));
    (lit "price", carried i.(price)) ].

Definition carried_item (i : ReceiptItem) : value := Obj (carried_item_props i).

Definition carried_props (r : ReceiptData) : list (jsstring * value) :=
  [ (lit "restaurantName", Str r.(restaurantName));
    (lit "date", Str r.(date));
    (lit "currency", Str r.(currency));
    (lit "subtotal", carried r.(subtotal));
    (lit "tax", carried r.(tax));
    (lit "tip", carried r.(tip));
    (lit "total", carried r.(total));
    (lit "items", Arr (map carried_item r.(items))) ].

(** The value [JSON.parse] builds from the text of the link. *)
Definition carried_receipt (r : ReceiptData) : value := Obj (carried_props r).

Lemma text_of_null : text_of 1 Null (lit "null").
Proof.
  repeat split.
  - apply wf16_ascii. reflexivity.
  - intros f' c rest Hf _. destruct f' as [|f']; [lia | reflexivity].
Qed.

Lemma text_of_carried (x : number) :
  JSNumber.wf x = true -> settled x = true ->
  text_of 1 (carried x) (carried_text x).
Proof.
  intros Hwf Hs. unfold carried, carried_text.
  destruct (isFinite x) eqn:F; [now apply text_of_number | apply text_of_null].
Qed.

Lemma stringify_carried (x : number) :
  stringify (carried x) = stringify (Num x).
Proof.
  unfold carried. destruct (isFinite x) eqn:F; cbn [stringify]; now rewrite ?F.
Qed.

Lemma stringify_carried_item (i : ReceiptItem) :
  stringify (carried_item i) = stringify (item_object i).
Proof.
  unfold carried_item, carried_item_props, item_object.
  cbn [stringify flat_map snd fst app]. now rewrite !stringify_carried.
Qed.

Lemma stringify_carried_receipt (r : ReceiptData) :
  stringify (carried_receipt r) = stringify (minifiedReceipt r).
Proof.
  rewrite minifiedReceipt_props. unfold carried_receipt, carried_props, receipt_props.
  cbn [stringify flat_map snd fst app]. rewrite !stringify_carried.
  cbn [stringify]. rewrite !map_map.
  rewrite (map_ext _ _ (fun i => f_equal
     (fun o => match o with Some t => t | None => lit "null" end)
     (stringify_carried_item i))).
  reflexivity.
Qed.

(** An item whose numbers the validator could have returned. *)
Definition item_carriable (i : ReceiptItem) : Prop :=
  wf_item i = true /\ settled i.(quantity) = true /\ settled i.(price) = true.

Definition carried_item_text (i : ReceiptItem) : jsstring :=
  123 :: commas (member_texts (carried_item_props i)
                   [ quote i.(id); carried_text i.(quantity);
                     quote i.(description); carried_text i.(price) ])
  ++ [125].

Lemma carried_item_text_of (i : ReceiptItem) :
  item_carriable i -> text_of 6 (carried_item i) (carried_item_text i).
Proof.
  intros (Hwf & Sq & Sp). unfold wf_item in Hwf.
  repeat (apply andb_prop in Hwf; destruct Hwf as [Hwf ?]).
  apply (text_of_object 1 (carried_item_props i)); [|discriminate | reflexivity].
  unfold carried_item_props.
  repeat (apply Forall2_cons; [split; [reflexivity | cbn [snd]]|]);
    [| | | | apply Forall2_nil].
  - now apply text_of_string.
  - now apply text_of_carried.
  - now apply text_of_string.
  - now apply text_of_carried.
Qed.

Lemma carried_items_text_of (its : list ReceiptItem) :
  Forall item_carriable its ->
  Forall2 (text_of 6) (map carried_item its) (map carried_item_text its).
Proof.
  induction 1 as [|i its Hi _ IH]; cbn [map]; constructor; auto.
  now apply carried_item_text_of.
Qed.

Definition carried_items_text (r : ReceiptData) : jsstring :=
  91 :: commas (map carried_item_text r.(items)) ++ [93].

Definition carried_receipt_text (r : ReceiptData) : jsstring :=
  123 :: commas (member_texts (carried_props r)
                   [ quote r.(restaurantName); quote r.(date);
                     quote r.(currency); carried_text r.(subtotal);
                     carried_text r.(tax); carried_text r.(tip);
                     carried_text r.(total); carried_items_text r ])
  ++ [125].

Definition receipt_carriable (r : ReceiptData) : Prop :=
  wf_string r.(restaurantName) = true /\ wf_string r.(date) = true /\
  wf_string r.(currency) = true /\
  (JSNumber.wf r.(subtotal) = true /\ settled r.(subtotal) = true) /\
  (JSNumber.wf r.(tax) = true /\ settled r.(tax) = true) /\
  (JSNumber.wf r.(tip) = true /\ settled r.(tip) = true) /\
  (JSNumber.wf r.(total) = true /\ settled r.(total) = true) /\
  Forall item_carriable r.(items).

Lemma carried_members (r : ReceiptData) :
  receipt_carriable r ->
  Forall2 (member_of (S (length r.(items) + 6))) (carried_props r)
    [ quote r.(restaurantName); quote r.(date);
      quote r.(currency); carried_text r.(subtotal);
      carried_text r.(tax); carried_text r.(tip);
      carried_text r.(total); carried_items_text r ].
Proof.
  intros (H1 & H2 & H3 & (A1 & A2) & (B1 & B2) & (C1 & C2) & (D1 & D2) & Hits).
  unfold carried_props.
  repeat (apply Forall2_cons; [split; [reflexivity | cbn [snd]]|]);
    [| | | | | | | | apply Forall2_nil];
    try (apply (text_of_weaken 1);
         [lia | now apply text_of_string || now apply text_of_carried]).
  unfold carried_items_text. rewrite <- (length_map carried_item).
  apply text_of_array. now apply carried_items_text_of.
Qed.

Lemma carried_text_length (r : ReceiptData) :
  (length r.(items) + 14 <= length (carried_receipt_text r))%nat.
Proof.
  assert (Hi : (length r.(items) + 2 <= length (carried_items_text r))%nat).
  { unfold carried_items_text. cbn [length]. rewrite length_app. cbn [length].
    assert (H : (length (map carried_item_text r.(items))
                 <= length (commas (map carried_item_text r.(items))))%nat).
    { apply commas_length. apply Forall_forall. intros t Ht.
      apply in_map_iff in Ht. destruct Ht as (i & <- & _). reflexivity. }
    rewrite length_map in H. lia. }
  unfold carried_receipt_text, carried_props. cbn [member_texts].
  match goal with
  | |- context [commas [?a; ?b; ?c; ?d; ?e; ?f; ?g; member_text ?kv ?t]] =>
      pose proof (commas_length_last [a; b; c; d; e; f; g] (member_text kv t))
        as Hc;
      pose proof (member_text_length kv t) as Hm;
      cbn [app] in Hc;
      generalize dependent (commas [a; b; c; d; e; f; g; member_text kv t]);
      generalize dependent (member_text kv t)
  end.
  intros m Hm T HT. cbn [length] in *. rewrite length_app. cbn [length]. lia.
Qed.

(** The text [generateShareLink] writes, and what [JSON.parse] reads in
    it: the receipt, with [null] where a number was not finite. *)
Lemma carried_text_facts (r : ReceiptData) :
  receipt_carriable r ->
  JSON_stringify (minifiedReceipt r) = carried_receipt_text r /\
  wf16 (carried_receipt_text r) /\
  JSON.parse (carried_receipt_text r) = Normal (carried_receipt r).
Proof.
  intros Hr. pose proof (carried_members r Hr) as Hm.
  destruct (text_of_object _ _ _ Hm ltac:(discriminate) eq_refl)
    as (Hs & Hw & _ & _).
  split; [|split].
  - unfold JSON_stringify. rewrite <- stringify_carried_receipt.
    unfold carried_receipt. rewrite Hs. reflexivity.
  - exact Hw.
  - unfold parse. pose proof (carried_text_length r) as Hlen.
    assert (Hp : parse_value (2 * length (carried_receipt_text r) + 2)
                   (carried_receipt_text r)
                 = Some (Obj (carried_props r), [])).
    { unfold carried_receipt_text at 2.
      apply (parse_object _ _ _ Hm); [discriminate | reflexivity|].
      cbn [length carried_props]. lia. }
    rewrite Hp. reflexivity.
Qed.

(** *** What the validator makes of it *)

(** The item a recipient holds for the item [i] at index [idx]. *)
Definition reopened_item (i : ReceiptItem) (idx : nat) : ReceiptItem :=
  {| id := sanitizeString (if is_nil i.(id) then shared_id idx else i.(id));
     quantity := if isFinite i.(quantity) && JSNumber.truthy i.(quantity)
                 then i.(quantity) else of_Z 1;
     description :=
       sanitizeString (if is_nil i.(description) then lit "Unknown Item"
                       else i.(description));
     price := if isFinite i.(price) then i.(price) else zero |}.

Fixpoint reopened_items (its : list ReceiptItem) (idx : nat)
  : list ReceiptItem :=
  match its with
  | [] => []
  | i :: rest => reopened_item i idx :: reopened_items rest (S idx)
  end.

(** The receipt a recipient holds for the receipt [r]: every string
    sanitized once more, an empty currency, id or description replaced by
    its default, a number that is not finite replaced by 0 and a quantity
    that is 0 or not finite by 1. *)
Definition reopened (r : ReceiptData) : ReceiptData :=
  {| restaurantName := sanitizeString r.(restaurantName);
     date := sanitizeString r.(date);
     currency := sanitizeString (if is_nil r.(currency) then lit "$"
                                 else r.(currency));
     subtotal := if isFinite r.(subtotal) then r.(subtotal) else zero;
     tax := if isFinite r.(tax) then r.(tax) else zero;
     tip := if isFinite r.(tip) then r.(tip) else zero;
     total := if isFinite r.(total) then r.(total) else zero;
     items := reopened_items r.(items) 0 |}.

Lemma string_or_default (s d : jsstring) :
  string_or (Str s) d = if is_nil s then d else s.
Proof. destruct s; reflexivity. Qed.

Lemma settled_carried (x : number) :
  settled x = true ->
  or_num (number_of (carried x)) zero = if isFinite x then x else zero.
Proof.
  intros H. unfold carried. destruct (isFinite x) eqn:F.
  - change (number_of (Num x)) with x. now apply settled_or_num.
  - reflexivity.
Qed.

Lemma quantity_carried (q : number) :
  nonneg q = true ->
  Math_max [zero; or_num (number_of (carried q)) (of_Z 1)]
  = if isFinite q && JSNumber.truthy q then q else of_Z 1.
Proof.
  intros H. unfold carried.
  destruct q as [[|]|[|]| |[|] m e]; try discriminate H;
    try (vm_compute; reflexivity).
Qed.

Lemma price_carried (p : number) :
  nonneg p = true ->
  Math_max [zero; or_num (number_of (carried p)) zero]
  = if isFinite p then p else zero.
Proof.
  intros H. unfold carried.
  destruct p as [[|]|[|]| |[|] m e]; try discriminate H;
    try (vm_compute; reflexivity).
Qed.

Lemma repaired_carried_item (i : ReceiptItem) (idx : nat) :
  nonneg i.(quantity) = true -> nonneg i.(price) = true ->
  repaired_item (carried_item i) idx = reopened_item i idx.
Proof.
  intros Hq Hp. destruct i as [i_id i_q i_d i_p].
  cbn [id quantity description price] in *.
  unfold repaired_item, reopened_item, carried_item, carried_item_props.
  cbn [id quantity description price].
  change (field (Obj _) (lit "id")) with (Str i_id).
  change (field (Obj _) (lit "quantity")) with (carried i_q).
  change (field (Obj _) (lit "description")) with (Str i_d).
  change (field (Obj _) (lit "price")) with (carried i_p).
  rewrite !string_or_default, quantity_carried, price_carried by assumption.
  reflexivity.
Qed.

Lemma repaired_carried_items (its : list ReceiptItem) :
  forall idx,
  Forall (fun i => nonneg i.(quantity) = true /\ nonneg i.(price) = true) its ->
  repaired_items (map carried_item its) idx = reopened_items its idx.
Proof.
  induction its as [|i its IH]; intros idx Hn; [reflexivity|].
  inversion Hn as [|? ? [Hq Hp] Hn']; subst.
  cbn [map repaired_items reopened_items].
  now rewrite repaired_carried_item, IH.
Qed.

Lemma carried_repairable (x : number) : coercible (carried x) = true.
Proof. unfold carried. now destruct (isFinite x). Qed.

Lemma carried_items_repairable (its : list ReceiptItem) :
  forallb repairable_item (map carried_item its) = true.
Proof.
  induction its as [|i its IH]; [reflexivity|].
  cbn [map forallb]. rewrite IH, andb_true_r.
  unfold repairable_item, carried_item, carried_item_props.
  change (field (Obj _) (lit "id")) with (Str i.(id)).
  change (field (Obj _) (lit "quantity")) with (carried i.(quantity)).
  change (field (Obj _) (lit "description")) with (Str i.(description)).
  change (field (Obj _) (lit "price")) with (carried i.(price)).
  now rewrite !carried_repairable.
Qed.

Lemma carried_receipt_acceptable (r : ReceiptData) :
  acceptable (carried_receipt r) = true.
Proof.
  unfold acceptable, top_level_ok, carried_receipt, carried_props.
  change (field (Obj _) (lit "restaurantName")) with (Str r.(restaurantName)).
  change (field (Obj _) (lit "date")) with (Str r.(date)).
  change (field (Obj _) (lit "currency")) with (Str r.(currency)).
  change (field (Obj _) (lit "subtotal")) with (carried r.(subtotal)).
  change (field (Obj _) (lit "tax")) with (carried r.(tax)).
  change (field (Obj _) (lit "tip")) with (carried r.(tip)).
  change (field (Obj _) (lit "total")) with (carried r.(total)).
  change (field (Obj _) (lit "items")) with (Arr (map carried_item r.(items))).
  cbn [elements]. rewrite !carried_repairable, carried_items_repairable.
  reflexivity.
Qed.

(** The validator on what the link carries of a validated receipt. *)
Lemma revalidate_carried (r : ReceiptData) :
  validated r ->
  validateReceiptIntegrity (carried_receipt r) = Some (reopened r).
Proof.
  intros Hv.
  destruct (validated_numbers r Hv) as (N1 & N2 & N3 & N4 & N5).
  rewrite validate_accepts by apply carried_receipt_acceptable.
  f_equal. unfold repaired, reopened, carried_receipt, carried_props.
  change (field (Obj _) (lit "restaurantName")) with (Str r.(restaurantName)).
  change (field (Obj _) (lit "date")) with (Str r.(date)).
  change (field (Obj _) (lit "currency")) with (Str r.(currency)).
  change (field (Obj _) (lit "subtotal")) with (carried r.(subtotal)).
  change (field (Obj _) (lit "tax")) with (carried r.(tax)).
  change (field (Obj _) (lit "tip")) with (carried r.(tip)).
  change (field (Obj _) (lit "total")) with (carried r.(total)).
  change (field (Obj _) (lit "items")) with (Arr (map carried_item r.(items))).
  cbn [elements].
  rewrite !string_or_empty_default, string_or_default.
  rewrite !settled_carried by assumption.
  now rewrite repaired_carried_items.
Qed.

Lemma receipt_carriable_of (r : ReceiptData) :
  validated r -> wf_receipt r = true -> receipt_carriable r.
Proof.
  intros Hv Hwf.
  destruct (validated_numbers r Hv) as (N1 & N2 & N3 & N4 & N5).
  unfold wf_receipt in Hwf.
  repeat (apply andb_prop in Hwf; destruct Hwf as [Hwf ?]).
  unfold receipt_carriable. repeat split; auto.
  match goal with H : forallb wf_item _ = true |- _ => rename H into Hits end.
  clear - N5 Hits. induction N5 as [|i its [Hq Hp] _ IH]; constructor;
    cbn [forallb] in Hits; apply andb_prop in Hits; destruct Hits as [W1 W2].
  - split; [exact W1 | split; now apply nonneg_settled].
  - now apply IH.
Qed.

(** The link made for a validated receipt always opens, on the receipt
    [reopened] describes. *)
Lemma link_opens (r : ReceiptData) (st : AppModel) :
  validated r -> wf_receipt r = true ->
  exists token,
    share_token r = Normal token /\
    (10 < length token)%nat /\
    handleHashChange st (35 :: token) = link_loaded st (reopened r).
Proof.
  intros Hv Hwf. pose proof (receipt_carriable_of r Hv Hwf) as Hr.
  destruct (carried_text_facts r Hr) as (Hs & Hw & Hp).
  pose proof (carried_text_length r) as Hlen.
  unfold share_token. rewrite Hs.
  remember (carried_receipt_text r) as T eqn:HT.
  assert (Hhead : exists t, T = 123 :: t) by (rewrite HT; eexists; reflexivity).
  destruct Hhead as [t ->].
  destruct (token_text t 123 Hw eq_refl) as (token & Henc & Htext & Hlen').
  exists token. split; [exact Henc|]. split; [lia|].
  apply (valid_payload_is_loaded st token) with
    (text := 123 :: t) (rawData := carried_receipt r).
  - apply Z.ltb_lt. lia.
  - exact Htext.
  - reflexivity.
  - exact Hp.
  - now apply revalidate_carried.
Qed.

End LinkInGeneral.

(* ================================================================== *)
(** ** Selections: toggling and splitting *)
(* ================================================================== *)

Section SelectionHandlers.

Lemma or_num_twice (x d : number) :
  JSNumber.truthy d = true -> or_num (or_num x d) d = or_num x d.
Proof. unfold or_num. intros Hd. destruct (JSNumber.truthy x) eqn:E; now rewrite ?E, ?Hd. Qed.


(** What the rows show after [updateSplit] has stored a selection. *)
Lemma updateSplit_rows (key : jsstring) (count : number) (o : Selections) :
  selection_of o key <> None \/ inherited key = false ->
  exists next,
    updateSplit key count o = Stored next /\
    selection_of next key
    = Some {| itemId := match selection_of o key with
                        | Some e => e.(itemId)
                        | None => key
                        end;
              isSelected := match selection_of o key with
                            | Some e => e.(isSelected)
                            | None => true
                            end;
              splitCount := Math_max [of_Z 1; count] |} /\
    forall k, k <> key -> selection_of next k = selection_of o k.
Proof.
  intros H. eexists. split; [now apply updateSplit_stored|].
  match goal with
  | |- context [with_selection o key ?s] =>
      destruct (selection_of_with o key s) as [H1 H2]
  end.
  split; [exact H1 | exact H2].
Qed.

Lemma first_key_unique (b b' a a' : Selections) (key : jsstring)
  (x y : UserSelection) :
  selection_of b key = None -> selection_of b' key = None ->
  b ++ (key, x) :: a = b' ++ (key, y) :: a' ->
  b = b' /\ x = y /\ a = a'.
Proof.
  revert b'. induction b as [|[k0 s0] b IH]; intros [|[k1 s1] b'] Hb Hb' H;
    cbn [app selection_of] in *.
  - injection H as -> ->. repeat split.
  - injection H as <- _ _. now rewrite list_eqb_refl in Hb'.
  - injection H as -> _ _. now rewrite list_eqb_refl in Hb.
  - injection H as -> -> H.
    destruct (list_eqb k1 key); [discriminate|].
    destruct (IH b' Hb Hb' H) as (-> & -> & ->). repeat split.
Qed.

Lemma selection_of_prefix (b a : Selections) (key : jsstring) :
  selection_of (b ++ a) key = None -> selection_of b key = None.
Proof.
  induction b as [|[k0 s0] b IH]; [reflexivity|]. cbn [app selection_of].
  destruct (list_eqb k0 key); [discriminate | exact IH].
Qed.

(** Toggling an item twice: a selection there was is back as it was; one
    there was not is there now, not selected. *)
Lemma toggleItem_twice (key : jsstring) (o : Selections) :
  Forall selection_ok o ->
  match selection_of o key with
  | Some _ => toggleItem key (toggleItem key o) = o
  | None =>
      exists before after,
        o = before ++ after /\
        toggleItem key (toggleItem key o)
        = before ++ (key, {| itemId := key; isSelected := false;
                             splitCount := of_Z 1 |}) :: after
  end.
Proof.
  intros Hok. destruct (selection_of o key) as [e|] eqn:E.
  - destruct (selection_of_ok o key e Hok E) as [Hid Hsc].
    destruct (at_least_one_truthy _ Hsc) as [Hor _].
    unfold toggleItem at 2. rewrite E.
    match goal with
    | |- context [with_selection o key ?s] =>
        set (s1 := s);
        destruct (with_selection_old o key s1) as (b & old & a & Ho & Hs & Hb & Hw);
        [now rewrite E|];
        pose proof (proj1 (selection_of_with o key s1)) as Hr
    end.
    rewrite E in Hs. injection Hs as <-.
    unfold toggleItem. rewrite Hr.
    match goal with
    | |- context [with_selection (with_selection o key s1) key ?s] =>
        set (s2 := s);
        destruct (with_selection_old (with_selection o key s1) key s2)
          as (b' & old' & a' & Ho' & _ & Hb' & Hw');
        [now rewrite Hr|]
    end.
    rewrite Hw'. rewrite Hw in Ho'.
    destruct (first_key_unique _ _ _ _ _ _ _ Hb Hb' Ho') as (<- & _ & <-).
    rewrite Ho. do 2 f_equal. f_equal.
    subst s2 s1. cbn [isSelected splitCount].
    rewrite negb_involutive, Hor, Hor. destruct e as [i sc sel].
    cbn [itemId isSelected splitCount] in *. now subst i.
  - unfold toggleItem at 2. rewrite E.
    match goal with
    | |- context [with_selection o key ?s] =>
        set (s1 := s);
        destruct (with_selection_new o key s1 E) as (b & a & Ho & Hw);
        pose proof (proj1 (selection_of_with o key s1)) as Hr
    end.
    unfold toggleItem. rewrite Hr.
    match goal with
    | |- context [with_selection (with_selection o key s1) key ?s] =>
        set (s2 := s);
        destruct (with_selection_old (with_selection o key s1) key s2)
          as (b' & old' & a' & Ho' & _ & Hb' & Hw');
        [now rewrite Hr|]
    end.
    rewrite Hw'. rewrite Hw in Ho'.
    assert (Hb : selection_of b key = None)
      by (apply (selection_of_prefix b a); now rewrite <- Ho).
    destruct (first_key_unique _ _ _ _ _ _ _ Hb Hb' Ho') as (<- & _ & <-).
    exists b, a. split; [exact Ho|]. reflexivity.
Qed.

Lemma selected_values_skip (b a : Selections) (key : jsstring)
  (s : UserSelection) :
  s.(isSelected) = false ->
  filter (fun x => x.(isSelected)) (Object_values (b ++ (key, s) :: a))
  = filter (fun x => x.(isSelected)) (Object_values (b ++ a)).
Proof.
  intros H. unfold Object_values. rewrite !map_app, !filter_app.
  cbn [map filter snd]. now rewrite H.
Qed.

Lemma calculations_selected (r : option ReceiptData) (o o' : Selections) :
  filter (fun x => x.(isSelected)) (Object_values o)
  = filter (fun x => x.(isSelected)) (Object_values o') ->
  calculations r o = calculations r o'.
Proof.
  intros H. destruct r as [r|]; [|reflexivity].
  unfold calculations. now rewrite H.
Qed.


End SelectionHandlers.

(* ================================================================== *)
(** ** The sanitizer: what the tag pattern removes, what stays fixed *)
(* ================================================================== *)

Section TagScanner.

(** The tag pattern as a scanner with two states: outside a tag, where a
    [<] opens one and every other character is kept; inside a tag, where
    a [>] closes it and every character is dropped. *)
Fixpoint strip_tags (inside : bool) (s : jsstring) : jsstring :=
  match s with
  | [] => []
  | c :: s' =>
      if inside then
        if c =? 62 then strip_tags false s' else strip_tags true s'
      else if c =? 60 then strip_tags true s'
      else c :: strip_tags false s'
  end.

(** What follows the first [>]; nothing when there is none. *)
Fixpoint after_tag (s : jsstring) : jsstring :=
  match s with
  | [] => []
  | c :: s' => if c =? 62 then s' else after_tag s'
  end.

Lemma after_tag_length (s : jsstring) : (length (after_tag s) <= length s)%nat.
Proof.
  induction s as [|c s IH]; [cbn; lia|]. cbn [after_tag length].
  destruct (c =? 62); lia.
Qed.

(** A match of the pattern runs from the [<] to the first [>] or to the
    end. *)
Lemma tag_re_match (s : jsstring) :
  match_here tag_re (60 :: s) = Some (after_tag s).
Proof.
  unfold tag_re. cbn [match_here accepts]. rewrite Z.eqb_refl.
  induction s as [|c s IH]; [reflexivity|].
  cbn [after_tag]. destruct (c =? 62) eqn:E; cbn [negb].
  - reflexivity.
  - now rewrite IH.
Qed.

Lemma replace_strip (s : jsstring) :
  replace_from tag_re [] (length s - length (after_tag s)) s = strip_tags true s
  /\ replace_from tag_re [] 0 s = strip_tags false s.
Proof.
  induction s as [|c s [IHa IHb]]; [split; reflexivity|]. split.
  - cbn [after_tag strip_tags]. destruct (c =? 62) eqn:E.
    + cbn [length]. replace (S (length s) - length s)%nat with 1%nat by lia.
      cbn [replace_from]. exact IHb.
    + pose proof (after_tag_length s). cbn [length].
      replace (S (length s) - length (after_tag s))%nat
        with (S (length s - length (after_tag s))) by lia.
      cbn [replace_from]. exact IHa.
  - cbn [replace_from strip_tags]. destruct (c =? 60) eqn:E.
    + apply Z.eqb_eq in E. subst c. rewrite tag_re_match.
      pose proof (after_tag_length s). cbn [length].
      replace (S (length s) - length (after_tag s))%nat
        with (S (length s - length (after_tag s))) by lia.
      cbn [app]. exact IHa.
    + apply Z.eqb_neq in E. rewrite (tag_re_fails_other c s E).
      now rewrite IHb.
Qed.

(** [str.replace(/<[^>]*>?/gm, '')] is the scanner started outside a
    tag. *)
Lemma replace_tag_scanner (s : jsstring) :
  replace tag_re [] s = strip_tags false s.
Proof. apply replace_strip. Qed.

(** After a [<] that no [>] follows, nothing is kept. *)
Lemma strip_tags_unclosed (t : jsstring) (s : jsstring) :
  ~ In 62 t ->
  forall inside, strip_tags inside (s ++ 60 :: t) = strip_tags inside s.
Proof.
  intros Ht.
  assert (Hin : strip_tags true t = []).
  { induction t as [|c t IH]; [reflexivity|]. cbn [strip_tags].
    destruct (c =? 62) eqn:E.
    - exfalso. apply Ht. left. lia.
    - apply IH. intros H. apply Ht. now right. }
  induction s as [|c s IH]; intros inside.
  - cbn [app strip_tags]. change (60 =? 62) with false.
    rewrite Z.eqb_refl. now destruct inside.
  - cbn [app strip_tags]. now rewrite !IH.
Qed.

Lemma trimStart_length (s : jsstring) : (length (trimStart s) <= length s)%nat.
Proof.
  induction s as [|c s IH]; [cbn; lia|]. cbn [trimStart].
  destruct (isWhiteSpace c); cbn [length]; lia.
Qed.

Lemma trim_length (s : jsstring) : (length (trim s) <= length s)%nat.
Proof.
  unfold trim, trimEnd. rewrite length_rev.
  pose proof (trimStart_length (rev (trimStart s))) as H.
  rewrite length_rev in H. pose proof (trimStart_length s). lia.
Qed.

Lemma firstn_same_length {A} (n : nat) (l l' : list A) :
  firstn n l = l' -> (length l <= length l')%nat -> l = l'.
Proof.
  intros H Hl. subst l'. rewrite length_firstn in Hl.
  rewrite firstn_all2; [reflexivity | lia].
Qed.



(** Sanitizing only removes: what is left is the input with code units
    taken out. *)
Inductive subsequence : jsstring -> jsstring -> Prop :=
| sub_nil : subsequence [] []
| sub_keep (c : char16) (s t : jsstring) :
    subsequence s t -> subsequence (c :: s) (c :: t)
| sub_drop (c : char16) (s t : jsstring) :
    subsequence s t -> subsequence s (c :: t).

Lemma subsequence_refl (s : jsstring) : subsequence s s.
Proof. induction s; constructor; assumption. Qed.

Lemma subsequence_trans (s t u : jsstring) :
  subsequence s t -> subsequence t u -> subsequence s u.
Proof.
  intros H1 H2. revert s H1.
  induction H2 as [|c t u _ IH|c t u _ IH]; intros s H1.
  - exact H1.
  - inversion H1; subst; constructor; auto.
  - constructor. auto.
Qed.

Lemma subsequence_nil (s : jsstring) : subsequence [] s.
Proof. induction s; constructor; assumption. Qed.

Lemma strip_tags_subsequence (s : jsstring) :
  forall inside, subsequence (strip_tags inside s) s.
Proof.
  induction s as [|c s IH]; intros inside; [constructor|].
  cbn [strip_tags]. destruct inside.
  - destruct (c =? 62); constructor; apply IH.
  - destruct (c =? 60); constructor; apply IH.
Qed.

Lemma trimStart_subsequence (s : jsstring) : subsequence (trimStart s) s.
Proof.
  induction s as [|c s IH]; [constructor|]. cbn [trimStart].
  destruct (isWhiteSpace c); [now constructor | apply subsequence_refl].
Qed.

Lemma subsequence_app (s s' t t' : jsstring) :
  subsequence s t -> subsequence s' t' -> subsequence (s ++ s') (t ++ t').
Proof.
  induction 1; intros H'; cbn [app]; [exact H' | |]; constructor; auto.
Qed.

Lemma subsequence_rev (s t : jsstring) :
  subsequence s t -> subsequence (rev s) (rev t).
Proof.
  induction 1 as [|c s t _ IH|c s t _ IH]; cbn [rev].
  - constructor.
  - apply subsequence_app; [exact IH | apply subsequence_refl].
  - rewrite <- (app_nil_r (rev s)).
    apply subsequence_app; [exact IH | apply subsequence_nil].
Qed.

Lemma firstn_subsequence (n : nat) (s : jsstring) : subsequence (firstn n s) s.
Proof.
  revert n. induction s as [|c s IH]; intros [|n]; cbn [firstn];
    try constructor; auto using subsequence_nil.
Qed.


End TagScanner.

(* ================================================================== *)
(** ** The transport helpers on every string *)
(* ================================================================== *)

Section TransportInGeneral.

(** The string with every lone surrogate replaced by U+FFFD, as code
    points ([String.prototype.toWellFormed]). *)
Definition scalar_values (s : jsstring) : list Z :=
  code_points (fun _ => 65533) s.

(** A leading byte order mark, dropped. *)
Definition drop_bom (cps : list Z) : list Z :=
  match cps with
  | c :: rest => if c =? 65279 then rest else cps
  | [] => []
  end.

Lemma scalar_values_scalar (s : jsstring) :
  wf_string s = true -> Forall (fun cp => is_scalar cp = true) (scalar_values s).
Proof.
  unfold scalar_values, wf_string.
  induction s as [|c|c d s IH1 IH2] using list_ind_pairs; intros H.
  - constructor.
  - cbn [forallb] in H. apply andb_prop in H. destruct H as [Hc _].
    cbn [code_points].
    destruct (isHigh c) eqn:Hh; [repeat constructor|].
    destruct (isLow c) eqn:Hl; [repeat constructor|].
    repeat constructor.
    unfold is_scalar, is_unit, isSurrogate, isHigh, isLow in *. lia.
  - cbn [forallb] in H. apply andb_prop in H. destruct H as [Hc H].
    pose proof (IH2 H) as I2. cbn [forallb] in H.
    apply andb_prop in H. destruct H as [Hd Hs].
    pose proof (IH1 Hs) as I1. clear IH1 IH2.
    cbn [code_points] in *. destruct (isHigh c) eqn:Hh.
    + destruct (isLow d) eqn:Hl.
      * constructor; [apply pair_code_facts; assumption | exact I1].
      * constructor; [reflexivity | exact I2].
    + destruct (isLow c) eqn:Hl; (constructor; [|exact I2]);
        [reflexivity|].
      unfold is_scalar, is_unit, isSurrogate, isHigh, isLow in *. lia.
Qed.

Lemma utf8_scalars (cps : list Z) :
  Forall (fun cp => is_scalar cp = true) cps ->
  utf8_decode_from utf8_init (flat_map utf8_bytes cps) = cps /\
  forallb is_byte (flat_map utf8_bytes cps) = true /\
  (length cps <= length (flat_map utf8_bytes cps))%nat.
Proof.
  induction 1 as [|cp cps Hcp _ (IH1 & IH2 & IH3)]; [repeat split; auto|].
  cbn [flat_map]. rewrite (utf8_scalar cp _ Hcp), IH1.
  destruct (utf8_bytes_facts cp Hcp) as (Hb & Hl & _).
  rewrite forallb_app, Hb, IH2, length_app. cbn [length].
  repeat split. lia.
Qed.

Lemma b64_encode_nil (bytes : list Z) :
  is_nil (b64_encode bytes) = is_nil bytes.
Proof. destruct bytes as [|a [|b [|c rest]]]; reflexivity. Qed.

Lemma scalar_values_nil (s : jsstring) :
  is_nil (scalar_values s) = is_nil s.
Proof.
  unfold scalar_values. destruct s as [|c s]; [reflexivity|].
  cbn [code_points]. destruct (isHigh c).
  - destruct s as [|d s]; [reflexivity|]. now destruct (isLow d).
  - now destruct (isLow c).
Qed.

(** [safeBtoa] never takes its [catch] branch, and [safeAtob] undoes it up
    to what UTF-8 cannot carry: lone surrogates come back as U+FFFD and a
    leading byte order mark is lost. *)
Lemma safeAtob_safeBtoa_any (s : jsstring) :
  wf_string s = true ->
  btoa (TextEncoder_encode s) = Normal (safeBtoa s) /\
  is_nil (safeBtoa s) = is_nil s /\
  forallb is_ascii (safeBtoa s) = true /\
  safeAtob (safeBtoa s) = flat_map units_of (drop_bom (scalar_values s)).
Proof.
  intros Hs. pose proof (scalar_values_scalar s Hs) as Hsc.
  destruct (utf8_scalars _ Hsc) as (Hdec & Hbytes & Hlen).
  change (flat_map utf8_bytes (scalar_values s))
    with (TextEncoder_encode s) in Hdec, Hbytes, Hlen.
  destruct (base64_roundtrip _ Hbytes) as (b64 & Hbtoa & Hatob & Hascii & _).
  unfold safeBtoa. rewrite Hbtoa. cbn [try_catch].
  split; [reflexivity|]. split; [|split; [exact Hascii|]].
  - unfold btoa in Hbtoa.
    destruct (forallb (fun c => c <=? 255) (TextEncoder_encode s));
      [|discriminate Hbtoa].
    injection Hbtoa as <-.
    rewrite b64_encode_nil, <- (scalar_values_nil s).
    change (TextEncoder_encode s) with (flat_map utf8_bytes (scalar_values s)).
    destruct (scalar_values s) as [|cp cps] eqn:E; [reflexivity|].
    inversion Hsc as [|? ? Hcp _]; subst.
    destruct (utf8_bytes_facts cp Hcp) as (_ & Hl & _).
    cbn [flat_map]. destruct (utf8_bytes cp); [cbn in Hl; lia | reflexivity].
  - unfold safeAtob. rewrite Hatob. cbn [bind try_catch].
    unfold TextDecoder_decode. rewrite Hdec. reflexivity.
Qed.

Lemma wf16_scalar_values (s : jsstring) :
  wf16 s -> flat_map units_of (scalar_values s) = s.
Proof.
  unfold scalar_values.
  induction 1 as [|c s Hc Hsur _ IH|hi lo s Hh Hl _ IH]; [reflexivity| |].
  - destruct (unit_scalar c Hc Hsur) as (_ & Hu & Hhi & Hlo).
    cbn [code_points]. rewrite Hhi, Hlo. cbn [flat_map]. now rewrite Hu, IH.
  - destruct (pair_code_facts hi lo Hh Hl) as (_ & _ & Hu).
    cbn [code_points]. rewrite Hh, Hl. cbn [flat_map]. now rewrite Hu, IH.
Qed.

Lemma wf16_units (s : jsstring) : wf16 s -> wf_string s = true.
Proof.
  unfold wf_string.
  induction 1 as [|c s Hc _ _ IH|hi lo s Hh Hl _ IH]; [reflexivity| |];
    cbn [forallb]; rewrite IH.
  - now rewrite Hc.
  - unfold is_unit, isHigh, isLow in *. lia.
Qed.


(** *** Fragments that are not tokens *)

(** What follows a [%] that is not an escape: anything but two
    hexadecimal digits. *)
Definition not_escape (b : jsstring) : bool :=
  match b with
  | h :: l :: _ =>
      match hex_value h, hex_value l with
      | Some _, Some _ => false
      | _, _ => true
      end
  | _ => true
  end.

Lemma percent_not_hex : hex_value 37 = None.
Proof. reflexivity. Qed.

Lemma uri_tokens_bad_escape (b : jsstring) :
  not_escape b = true ->
  forall n a, (length a <= n)%nat -> uri_tokens (a ++ 37 :: b) = Throw URIError.
Proof.
  intros Hb.
  assert (H0 : uri_tokens (37 :: b) = Throw URIError).
  { cbn [uri_tokens]. change (37 =? 37) with true. cbv iota.
    unfold not_escape in Hb. destruct b as [|h [|l b]]; try reflexivity.
    destruct (hex_value h); [|reflexivity].
    destruct (hex_value l); [discriminate Hb | reflexivity]. }
  induction n as [|n IH]; intros a Hlen.
  - destruct a; [exact H0 | cbn [length] in Hlen; lia].
  - destruct a as [|c a]; [exact H0|]. cbn [length] in Hlen.
    cbn [app uri_tokens]. destruct (c =? 37).
    + destruct a as [|h [|l a]]; cbn [app].
      * rewrite percent_not_hex. now destruct b.
      * rewrite percent_not_hex. now destruct (hex_value h).
      * destruct (hex_value h); [|reflexivity].
        destruct (hex_value l); [|reflexivity].
        rewrite IH by (cbn [length] in Hlen; lia). reflexivity.
    + rewrite IH by lia. reflexivity.
Qed.

(** A [%] that does not start an escape makes [decodeURIComponent]
    throw, wherever it stands. *)
Lemma decodeURIComponent_bad_escape (a b : jsstring) :
  not_escape b = true -> decodeURIComponent (a ++ 37 :: b) = Throw URIError.
Proof.
  intros Hb. unfold decodeURIComponent.
  now rewrite (uri_tokens_bad_escape b Hb (length a) a (Nat.le_refl _)).
Qed.

(** Without a [%] there is nothing to decode. *)
Lemma decodeURIComponent_plain (s : jsstring) :
  ~ In 37 s -> decodeURIComponent s = Normal s.
Proof.
  intros Hs. unfold decodeURIComponent.
  assert (Ht : uri_tokens s = Normal (map Plain s)).
  { induction s as [|c s IH]; [reflexivity|]. cbn [uri_tokens map].
    replace (c =? 37) with false
      by (symmetry; apply Z.eqb_neq; intros ->; apply Hs; now left).
    rewrite IH; [reflexivity|]. intros H. apply Hs. now right. }
  rewrite Ht. cbn [bind]. clear.
  induction s as [|c s IH]; [reflexivity|].
  cbn [map uri_decode_from]. change (u_needed utf8_init =? 0) with true.
  cbv iota. now rewrite IH.
Qed.

Lemma strip_padding_keeps (c : char16) (s : jsstring) :
  c <> 61 -> In c s -> In c (strip_padding s).
Proof.
  intros Hc. induction s as [|d s IH]; [easy|]. intros Hin.
  cbn [strip_padding].
  destruct ((d =? 61) && (is_nil s || list_eqb s [61])) eqn:E.
  - exfalso. apply andb_prop in E. destruct E as [Ed Es].
    apply Z.eqb_eq in Ed. subst d. destruct Hin as [<-|Hin]; [now apply Hc|].
    apply orb_prop in Es. destruct Es as [Es|Es].
    + destruct s; [easy | discriminate Es].
    + apply list_eqb_eq in Es. subst s. destruct Hin as [<-|[]]. now apply Hc.
  - destruct Hin as [->|Hin]; [now left | right; now apply IH].
Qed.

Lemma b64_values_bad (c : char16) (s : jsstring) :
  b64_value c = None -> In c s -> b64_values s = None.
Proof.
  intros Hc. induction s as [|d s IH]; [easy|]. intros [->|Hin].
  - cbn [b64_values]. now rewrite Hc.
  - cbn [b64_values]. rewrite (IH Hin). now destruct (b64_value d).
Qed.

(** One character outside the base64 alphabet, other than white space and
    [=], makes [atob] throw. *)
Lemma atob_bad_char (c : char16) (s : jsstring) :
  In c s -> b64_value c = None -> isAsciiWhitespace c = false -> c <> 61 ->
  atob s = Throw InvalidCharacterError.
Proof.
  intros Hin Hv Hw Hc. unfold atob.
  set (s1 := filter (fun c => negb (isAsciiWhitespace c)) s).
  assert (H1 : In c s1) by (apply filter_In; split; [exact Hin | now rewrite Hw]).
  set (s2 := if Z.of_nat (length s1) mod 4 =? 0 then strip_padding s1 else s1).
  assert (H2 : In c s2).
  { subst s2. destruct (_ =? 0); [now apply strip_padding_keeps | exact H1]. }
  cbv zeta. destruct (_ =? 1); [reflexivity|].
  now rewrite (b64_values_bad c s2 Hv H2).
Qed.

End TransportInGeneral.

(* ================================================================== *)
(** ** Shares: an item claimed whole *)
(* ================================================================== *)

Section WholeShares.

Lemma one_value : of_Z 1 = S754_finite false 4503599627370496 (-52).
Proof. vm_compute. reflexivity. Qed.

Lemma div_eucl_exact (q b : Z) : 0 < b -> Z.div_eucl (q * b) b = (q, 0).
Proof.
  intros Hb. rewrite (surjective_pairing (Z.div_eucl (q * b) b)).
  change (fst (Z.div_eucl (q * b) b)) with (q * b / b).
  change (snd (Z.div_eucl (q * b) b)) with ((q * b) mod b).
  rewrite Z.div_mul, Z.mod_mul by lia. reflexivity.
Qed.

(** Dividing by 1: the quotient the division core hands to the rounding
    is the mantissa itself, shifted by at most one bit, with nothing
    left over. *)
Lemma div_core_one (m : positive) (e : Z) :
  bounded prec emax m e = true ->
  exists j, SFdiv_core_binary prec emax (Zpos m) e 4503599627370496 (-52)
            = (Zpos (shift_nat j m), e - Z.of_nat j, loc_Exact).
Proof.
  intros Hb. destruct (bounded_facts m e Hb) as [He _].
  unfold SFdiv_core_binary. cbn [Zdigits2].
  rewrite fexp_eq.
  set (e' := Z.min (Z.max (Zpos (digits2_pos m) + e
                           - (Zpos (digits2_pos 4503599627370496) + -52) - 53)
                          (-1074)) (e - -52)).
  change (Zpos (digits2_pos 4503599627370496)) with 53 in e'.
  assert (Hcase : e' = e \/ e' = e - 1) by (subst e'; lia).
  destruct Hcase as [-> | ->].
  - exists 0%nat. replace (e - -52 - e) with 52 by lia.
    rewrite Z.shiftl_mul_pow2 by lia.
    change (2 ^ 52) with 4503599627370496.
    rewrite (div_eucl_exact (Zpos m) 4503599627370496) by lia.
    rewrite shift_nat_value.
    change (Z.of_nat 0) with 0. rewrite Z.sub_0_r.
    replace (Zpos m * 2 ^ 0) with (Zpos m) by lia. reflexivity.
  - exists 1%nat. replace (e - -52 - (e - 1)) with 53 by lia.
    rewrite Z.shiftl_mul_pow2 by lia.
    replace (Zpos m * 2 ^ 53) with (Zpos m * 2 * 4503599627370496) by lia.
    rewrite (div_eucl_exact (Zpos m * 2) 4503599627370496) by lia.
    rewrite shift_nat_value.
    change (Z.of_nat 1) with 1. replace (Zpos m * 2 ^ 1) with (Zpos m * 2) by lia.
    reflexivity.
Qed.

(** [x / 1] is [x]. *)
Lemma div_one (x : number) : JSNumber.wf x = true -> div x (of_Z 1) = x.
Proof.
  intros Hwf. rewrite one_value. unfold div.
  destruct x as [s|s| |s m e]; cbn [SFdiv]; rewrite ?xorb_false_r;
    try reflexivity.
  destruct (div_core_one m e Hwf) as [j ->].
  apply round_exact. exact Hwf.
Qed.

Lemma claimed_app (r : ReceiptData) (o : Selections) (key : jsstring)
  (s : UserSelection) :
  (calculations (Some r) (o ++ [(key, s)])).(Share.subtotal)
  = if s.(isSelected) then
      match find_item r.(items) s.(itemId) with
      | Some item => add (calculations (Some r) o).(Share.subtotal)
                         (div item.(price) s.(splitCount))
      | None => (calculations (Some r) o).(Share.subtotal)
      end
    else (calculations (Some r) o).(Share.subtotal).
Proof.
  cbn [calculations Share.subtotal]. unfold Object_values.
  rewrite map_app, filter_app, fold_left_app. cbn [map snd filter].
  destruct (isSelected s); reflexivity.
Qed.


End WholeShares.

(* ================================================================== *)
(** ** The summary screen (App.tsx, lines 395-400) *)
(* ================================================================== *)

Section SummaryLines.

(** The amounts listed on the summary, one line for each item of the
    receipt whose selection is ticked:
    [item.price / (userSelections[item.id]?.splitCount || 1)]. *)
Definition summary_lines (r : ReceiptData) (sels : Selections) : list number :=
  map (fun item => div item.(price) (row_splitCount sels item.(id)))
      (filter (fun i => row_isSelected sels i.(id)) r.(items)).

Definition line_of (sels : Selections) (item : ReceiptItem) : list number :=
  if row_isSelected sels item.(id)
  then [div item.(price) (row_splitCount sels item.(id))]
  else [].

Lemma summary_lines_flat (r : ReceiptData) (sels : Selections) :
  summary_lines r sels = flat_map (line_of sels) r.(items).
Proof.
  unfold summary_lines, line_of.
  induction r.(items) as [|i its IH]; [reflexivity|].
  cbn [filter flat_map]. destruct (row_isSelected sels (id i)); cbn [map app];
    now rewrite IH.
Qed.

Lemma flat_map_same {A B} (f g : A -> list B) (l : list A) :
  (forall a, In a l -> f a = g a) -> flat_map f l = flat_map g l.
Proof.
  induction l as [|a l IH]; intros H; [reflexivity|]. cbn [flat_map].
  rewrite (H a) by now left. rewrite IH; [reflexivity|].
  intros b Hb. apply H. now right.
Qed.

Lemma find_item_none (its : list ReceiptItem) (key : jsstring) :
  find_item its key = None -> forall i, In i its -> i.(id) <> key.
Proof.
  unfold find_item. intros H i Hin Hk.
  apply (find_none _ _ H) in Hin. cbn beta in Hin.
  rewrite Hk, list_eqb_refl in Hin. discriminate.
Qed.

Lemma find_item_some (its : list ReceiptItem) (key : jsstring)
  (item : ReceiptItem) :
  find_item its key = Some item -> In item its /\ item.(id) = key.
Proof.
  unfold find_item. intros H. apply find_some in H. destruct H as [Hin Hk].
  split; [exact Hin | now apply list_eqb_eq].
Qed.

(** One more selection, for an id no selection had: the lines of every
    other item stay, and the item of that id, if the receipt has one,
    gets its line. *)
Lemma lines_with_new (its : list ReceiptItem) (o : Selections)
  (key : jsstring) (s : UserSelection) :
  NoDup (map id its) -> selection_of o key = None ->
  Permutation
    ((if s.(isSelected) then
        match find_item its key with
        | Some item => [div item.(price) (or_num s.(splitCount) (of_Z 1))]
        | None => []
        end
      else []) ++ flat_map (line_of o) its)
    (flat_map (line_of ((key, s) :: o)) its).
Proof.
  intros Hd Hnone. induction its as [|i its IH]; cbn [flat_map].
  - cbn [find_item find]. destruct (isSelected s); constructor.
  - cbn [map] in Hd. inversion Hd as [|? ? Hni Hd']; subst.
    specialize (IH Hd'). unfold find_item in *. cbn [find].
    destruct (list_eqb (id i) key) eqn:E.
    + apply list_eqb_eq in E.
      assert (Hrest : flat_map (line_of ((key, s) :: o)) its
                      = flat_map (line_of o) its).
      { apply flat_map_same. intros a Ha. unfold line_of, row_isSelected,
          row_splitCount. cbn [selection_of].
        rewrite (list_eqb_neq key (id a)); [reflexivity|].
        intros Hk. apply Hni. rewrite E, Hk. now apply in_map. }
      rewrite Hrest.
      assert (Hi : line_of o i = []).
      { unfold line_of, row_isSelected. now rewrite E, Hnone. }
      assert (Hi' : line_of ((key, s) :: o) i
                    = if isSelected s
                      then [div (price i) (or_num (splitCount s) (of_Z 1))]
                      else []).
      { unfold line_of, row_isSelected, row_splitCount. cbn [selection_of].
        rewrite E, list_eqb_refl. reflexivity. }
      rewrite Hi, Hi'. cbn [app]. destruct (isSelected s); apply Permutation_refl.
    + assert (Hi : line_of ((key, s) :: o) i = line_of o i).
      { unfold line_of, row_isSelected, row_splitCount. cbn [selection_of].
        rewrite list_eqb_sym, E. reflexivity. }
      rewrite Hi.
      eapply Permutation_trans; [|apply Permutation_app_head, IH].
      rewrite !app_assoc. apply Permutation_app_tail, Permutation_app_comm.
Qed.


End SummaryLines.
(* ================================================================== *)
(** ** The receipts a link carries unchanged *)
(* ================================================================== *)

Section LinkExact.

(** A string the sanitizer leaves alone does not end in white space. *)
Lemma fixed_plain (s : jsstring) : sanitizeString s = s -> plain s = true.
Proof.
  intros H. unfold plain.
  assert (Hlt : ~ In 60 s) by (rewrite <- H; apply sanitizeString_no_lt).
  rewrite sanitizeString_eq, (replace_tag_id s Hlt) in H.
  apply firstn_same_length in H; [|apply trim_length].
  rewrite <- H. now rewrite trim_ends.
Qed.

Lemma trimStart_last (v : jsstring) (c : char16) :
  isWhiteSpace c = false -> trimStart (v ++ [c]) <> [].
Proof.
  intros Hc. induction v as [|d v IH]; cbn [app trimStart].
  - rewrite Hc. discriminate.
  - destruct (isWhiteSpace d); [exact IH | discriminate].
Qed.

(** A string that starts with a character the sanitizer keeps is not
    sanitized to the empty string. *)
Lemma sanitizeString_head (c : char16) (s : jsstring) :
  isWhiteSpace c = false -> c <> 60 -> sanitizeString (c :: s) <> [].
Proof.
  intros Hw Hc. rewrite sanitizeString_eq, replace_tag_scanner.
  cbn [strip_tags]. apply Z.eqb_neq in Hc. rewrite Hc.
  unfold trim. cbn [trimStart]. rewrite Hw. unfold trimEnd. cbn [rev].
  pose proof (trimStart_last (rev (strip_tags false s)) c Hw) as Hn.
  destruct (trimStart (rev (strip_tags false s) ++ [c])) as [|z l];
    [contradiction|].
  cbn [rev]. destruct (rev l); discriminate.
Qed.

Lemma default_fixed (s d : jsstring) :
  sanitizeString d <> [] ->
  sanitizeString (if is_nil s then d else s) = s ->
  plain s = true /\ is_nil s = false.
Proof.
  destruct s as [|c s]; cbn [is_nil]; intros Hd H; [contradiction|].
  split; [now apply fixed_plain | reflexivity].
Qed.

Lemma number_fixed (x : number) :
  (if isFinite x then x else zero) = x -> isFinite x = true.
Proof.
  destruct (isFinite x) eqn:F; [reflexivity|]. intros H.
  rewrite <- H in F. vm_compute in F. discriminate.
Qed.

Lemma quantity_fixed (q : number) :
  (if isFinite q && JSNumber.truthy q then q else of_Z 1) = q ->
  isFinite q = true /\ JSNumber.truthy q = true.
Proof.
  destruct (isFinite q && JSNumber.truthy q) eqn:F.
  - intros _. now apply andb_prop in F.
  - intros H. rewrite <- H in F. vm_compute in F. discriminate.
Qed.

Lemma shared_id_kept (idx : nat) : sanitizeString (shared_id idx) <> [].
Proof. apply sanitizeString_head; [reflexivity | discriminate]. Qed.

Lemma reopened_item_same (i : ReceiptItem) (idx : nat) :
  reopened_item i idx = i -> link_safe_item i = true.
Proof.
  destruct i as [i_id i_q i_d i_p]. unfold reopened_item, link_safe_item.
  cbn [id quantity description price]. intros H.
  injection H as Hid Hq Hd Hp.
  destruct (default_fixed _ _ (shared_id_kept idx) Hid) as [-> ->].
  destruct (default_fixed i_d (lit "Unknown Item")) as [-> ->];
    [vm_compute; discriminate | exact Hd |].
  destruct (quantity_fixed _ Hq) as [-> ->].
  now rewrite (number_fixed _ Hp).
Qed.

Lemma reopened_items_same (its : list ReceiptItem) :
  forall idx, reopened_items its idx = its ->
              forallb link_safe_item its = true.
Proof.
  induction its as [|i its IH]; intros idx H; [reflexivity|].
  cbn [reopened_items] in H. injection H as Hi Hr.
  cbn [forallb]. now rewrite (reopened_item_same i idx Hi), (IH (S idx) Hr).
Qed.

(** Only a link-safe receipt is reopened as it was. *)
Lemma reopened_same (r : ReceiptData) : reopened r = r -> link_safe r = true.
Proof.
  destruct r as [name dt its sub tx tp tot cur]. unfold reopened, link_safe.
  cbn [restaurantName date currency subtotal tax tip total items].
  intros H. injection H as Hn Hd Hi Hs Hx Hp Ht Hc.
  rewrite (fixed_plain _ Hn), (fixed_plain _ Hd).
  destruct (default_fixed cur (lit "$")) as [-> ->];
    [vm_compute; discriminate | exact Hc |].
  rewrite (number_fixed _ Hs), (number_fixed _ Hx), (number_fixed _ Hp),
    (number_fixed _ Ht).
  now rewrite (reopened_items_same its 0 Hi).
Qed.

Lemma output_plain_fixed (s : jsstring) :
  sanitizer_output s -> plain s = true -> sanitizeString s = s.
Proof.
  intros [raw ->] H. apply sanitizeString_stable.
  unfold plain in H. now apply negb_true_iff in H.
Qed.

Lemma reopened_item_safe (i : ReceiptItem) (idx : nat) :
  sanitizer_output i.(id) -> sanitizer_output i.(description) ->
  link_safe_item i = true -> reopened_item i idx = i.
Proof.
  destruct i as [i_id i_q i_d i_p]. unfold reopened_item, link_safe_item.
  cbn [id quantity description price]. intros Oi Od H.
  repeat (apply andb_prop in H; destruct H as [H ?]).
  repeat match goal with
         | E : negb _ = true |- _ => apply negb_true_iff in E; rewrite E
         | E : isFinite _ = true |- _ => rewrite E; clear E
         | E : JSNumber.truthy _ = true |- _ => rewrite E; clear E
         end.
  cbn [andb]. now rewrite !output_plain_fixed.
Qed.

Lemma reopened_items_safe (its : list ReceiptItem) :
  forall idx,
  Forall (fun i => sanitizer_output i.(id) /\ sanitizer_output i.(description))
         its ->
  forallb link_safe_item its = true -> reopened_items its idx = its.
Proof.
  induction its as [|i its IH]; intros idx Ho H; [reflexivity|].
  inversion Ho as [|? ? [Oi Od] Ho']; subst.
  cbn [forallb] in H. apply andb_prop in H. destruct H as [Hi Hr].
  cbn [reopened_items]. now rewrite reopened_item_safe, IH.
Qed.

(** A validated, link-safe receipt is reopened as it was. *)
Lemma reopened_safe (r : ReceiptData) :
  validated r -> link_safe r = true -> reopened r = r.
Proof.
  intros Hv H. destruct (validated_strings r Hv) as (On & Od & Oc & Oi).
  destruct r as [name dt its sub tx tp tot cur]. unfold reopened, link_safe in *.
  cbn [restaurantName date currency subtotal tax tip total items] in *.
  repeat (apply andb_prop in H; destruct H as [H ?]).
  repeat match goal with
         | E : negb _ = true |- _ => apply negb_true_iff in E; rewrite E
         | E : isFinite _ = true |- _ => rewrite E; clear E
         end.
  rewrite !output_plain_fixed by assumption.
  now rewrite reopened_items_safe.
Qed.

End LinkExact.
(* ================================================================== *)
(** ** The image data sent for analysis *)
(* ================================================================== *)

Section ImageData.

(** [String.prototype.split] with a separator of one code unit and no
    limit: the pieces between the separators, in order; always at least
    one piece. *)
Fixpoint String_split (sep : char16) (s : jsstring) : list jsstring :=
  match s with
  | [] => [[]]
  | c :: s' =>
      if c =? sep then [] :: String_split sep s'
      else match String_split sep s' with
           | piece :: pieces => (c :: piece) :: pieces
           | [] => [[c]]
           end
  end.

(** [base64Image.split(',')[1]] (geminiService.ts, line 92): the second
    piece, [undefined] when there is none. *)
Definition image_data (base64Image : jsstring) : option jsstring :=
  nth_error (String_split 44 base64Image) 1.

(** The text up to the first comma. *)
Fixpoint before_comma (s : jsstring) : jsstring :=
  match s with
  | [] => []
  | c :: s' => if c =? 44 then [] else c :: before_comma s'
  end.

Lemma split_nonempty (sep : char16) (s : jsstring) :
  String_split sep s <> [].
Proof.
  induction s as [|c s IH]; cbn [String_split]; [discriminate|].
  destruct (c =? sep); [discriminate|].
  destruct (String_split sep s); discriminate.
Qed.

Lemma split_first (s : jsstring) :
  exists pieces, String_split 44 s = before_comma s :: pieces.
Proof.
  induction s as [|c s [pieces IH]]; cbn [String_split before_comma].
  - now exists [].
  - destruct (c =? 44); [eexists; reflexivity|].
    rewrite IH. now exists pieces.
Qed.

Lemma split_no_comma (s : jsstring) : ~ In 44 s -> String_split 44 s = [s].
Proof.
  induction s as [|c s IH]; intros H; [reflexivity|]. cbn [String_split].
  destruct (Z.eqb_spec c 44) as [->|Hc]; [exfalso; apply H; now left|].
  rewrite IH; [reflexivity|]. intros Hin. apply H. now right.
Qed.

Lemma split_at_comma (p rest : jsstring) :
  ~ In 44 p -> String_split 44 (p ++ 44 :: rest) = p :: String_split 44 rest.
Proof.
  induction p as [|c p IH]; intros H; [reflexivity|].
  cbn [app String_split].
  destruct (Z.eqb_spec c 44) as [->|Hc]; [exfalso; apply H; now left|].
  rewrite IH; [reflexivity|]. intros Hin. apply H. now right.
Qed.

End ImageData.
(* ================================================================== *)
(** ** The share link, for every validated receipt *)
(* ================================================================== *)

(** C3 (as amended). For every validated receipt the engine can hold
    (strings of UTF-16 code units, binary64 numbers), [generateShareLink]
    produces a link, and opening that link in a fresh page succeeds and
    loads the receipt [reopened] describes: the items in the same order,
    every string sanitized once more, an empty currency, id or description
    replaced by its default, a subtotal, tax, tip, total or price that is
    not finite replaced by 0, and a quantity that is 0 or not finite
    replaced by 1. The receipt loaded is exactly the one shared if and only
    if its numbers are all finite, its quantities are not zero, its strings
    do not end in white space and its currency, item ids and item
    descriptions are not empty. *)
Theorem share_link_round_trip (r : ReceiptData) (base : jsstring) :
  validated r -> wf_receipt r = true ->
  exists token,
    generateShareLink (Some r) base = Some (base ++ 35 :: token) /\
    decode token = link_loaded initial (reopened r) /\
    ((decode token).(receipt) = Some r <-> link_safe r = true).
Proof.
  intros Hv Hwf.
  destruct (link_opens r initial Hv Hwf) as (token & Ht & _ & Hd).
  exists token. unfold generateShareLink. rewrite Ht.
  split; [reflexivity|]. split; [exact Hd|]. split.
  - intros H. apply reopened_same. unfold decode in H. rewrite Hd in H.
    cbn [link_loaded receipt] in H. congruence.
  - intros Hl. destruct (link_round_trip r Hv Hwf Hl) as (token' & Ht' & Hd').
    rewrite Ht in Ht'. injection Ht' as <-. now rewrite Hd'.
Qed.

Lemma share_link_round_trip_witness :
  exists token,
    generateShareLink (Some (repaired example_payload))
      (lit "https://split.example/")
    = Some (lit "https://split.example/" ++ 35 :: token) /\
    decode token = link_loaded initial (reopened (repaired example_payload)) /\
    ((decode token).(receipt) = Some (repaired example_payload)
     <-> link_safe (repaired example_payload) = true).
Proof.
  apply (share_link_round_trip (repaired example_payload)
           (lit "https://split.example/")).
  - exists example_payload. reflexivity.
  - reflexivity.
Defined.

(* ================================================================== *)
(** ** Further properties: the sanitizer and the validator *)
(* ================================================================== *)

Lemma in_by_existsb (c : Z) (l : list Z) :
  existsb (Z.eqb c) l = true -> In c l.
Proof.
  intros H. apply existsb_exists in H. destruct H as (x & Hx & E).
  apply Z.eqb_eq in E. now subst x.
Qed.

Lemma not_in_by_forallb (c : Z) (l : list Z) :
  forallb (fun x => negb (x =? c)) l = true -> ~ In c l.
Proof.
  intros H Hin. rewrite forallb_forall in H. specialize (H c Hin).
  now rewrite Z.eqb_refl in H.
Qed.

Fixpoint distinct (l : list jsstring) : bool :=
  match l with
  | [] => true
  | x :: rest => negb (existsb (list_eqb x) rest) && distinct rest
  end.

Lemma distinct_NoDup (l : list jsstring) : distinct l = true -> NoDup l.
Proof.
  induction l as [|x l IH]; [constructor|]. cbn [distinct]. intros H.
  apply andb_prop in H. destruct H as [Hx Hl]. constructor; [|now apply IH].
  intros Hin. apply negb_true_iff in Hx.
  assert (existsb (list_eqb x) l = true)
    by (apply existsb_exists; exists x; split; [exact Hin | apply list_eqb_refl]).
  congruence.
Qed.

(** The validator is total and decided by the shape of its input: it
    returns the repaired receipt on an acceptable input and [null] on every
    other one; no exception leaves it. *)
Theorem validator_decided_by_shape (data : value) :
  validateReceiptIntegrity data
  = if acceptable data then Some (repaired data) else None.
Proof. apply validate_char. Qed.

(** Every string of a validated receipt (name, date, currency, item ids
    and descriptions) has at most 255 code units and does not start with
    white space. *)
Theorem validated_strings_bounded (data : value) (r : ReceiptData) :
  validateReceiptIntegrity data = Some r ->
  Forall (fun s => (length s <= 255)%nat /\ startsWithWhiteSpace s = false)
         (r.(restaurantName) :: r.(date) :: r.(currency)
          :: flat_map (fun i => [i.(id); i.(description)]) r.(items)).
Proof.
  intros H.
  destruct (validated_strings r (ex_intro _ data H))
    as ([s1 ->] & [s2 ->] & [s3 ->] & Hitems).
  repeat (constructor;
          [split; [apply sanitizeString_length | apply sanitizeString_starts]|]).
  induction Hitems as [|i its ([a Ha] & [b Hb]) _ IH]; cbn [flat_map app].
  - constructor.
  - rewrite Ha, Hb.
    repeat (constructor;
            [split; [apply sanitizeString_length | apply sanitizeString_starts]|]).
    exact IH.
Qed.

Lemma validated_strings_bounded_witness :
  Forall (fun s => (length s <= 255)%nat /\ startsWithWhiteSpace s = false)
         ((repaired garbled).(restaurantName) :: (repaired garbled).(date)
          :: (repaired garbled).(currency)
          :: flat_map (fun i => [i.(id); i.(description)])
                      (repaired garbled).(items)).
Proof.
  apply (validated_strings_bounded garbled (repaired garbled)).
  vm_compute. reflexivity.
Defined.

(** Idempotence of the sanitizer fails exactly when its result ends in
    white space. *)
Theorem sanitizeString_idempotent_exactly_when (s : jsstring) :
  sanitizeString (sanitizeString s) = sanitizeString s
  <-> endsWithWhiteSpace (sanitizeString s) = false.
Proof. apply sanitizeString_idempotent_iff. Qed.

(** The sanitizer leaves a string as it is exactly when the string has no
    [<], no white space at either end and at most 255 code units. *)
Theorem sanitizeString_fixed_points (s : jsstring) :
  sanitizeString s = s
  <-> (~ In 60 s /\ startsWithWhiteSpace s = false
       /\ endsWithWhiteSpace s = false /\ (length s <= 255)%nat).
Proof.
  split; [|apply sanitizeString_fixed].
  intros H.
  assert (Hlt : ~ In 60 s) by (rewrite <- H; apply sanitizeString_no_lt).
  assert (Hlen : (length s <= 255)%nat)
    by (rewrite <- H; apply sanitizeString_length).
  assert (Hst : startsWithWhiteSpace s = false)
    by (rewrite <- H; apply sanitizeString_starts).
  repeat split; try assumption.
  rewrite sanitizeString_eq, (replace_tag_id s Hlt) in H.
  apply firstn_same_length in H; [|apply trim_length].
  rewrite <- H. apply trim_ends.
Qed.

(** The replacement [str.replace(/<[^>]*>?/gm, '')] is a scan with two
    states: it drops every [<] with all that follows up to and including
    the next [>], or up to the end when there is none, and keeps the
    rest. *)
Theorem tag_pattern_is_a_scanner (s : jsstring) :
  replace tag_re [] s = strip_tags false s.
Proof. apply replace_tag_scanner. Qed.

(** A [<] that no [>] follows takes everything after it: the sanitized
    string is that of the text before the [<]. *)
Theorem sanitizeString_drops_unclosed_tag (s t : jsstring) :
  ~ In 62 t -> sanitizeString (s ++ 60 :: t) = sanitizeString s.
Proof.
  intros Ht. rewrite !sanitizeString_eq, !replace_tag_scanner.
  now rewrite strip_tags_unclosed.
Qed.

Lemma sanitizeString_drops_unclosed_tag_witness :
  sanitizeString (lit "Kids 2 " ++ 60 :: lit " 12 years") = lit "Kids 2".
Proof.
  rewrite (sanitizeString_drops_unclosed_tag (lit "Kids 2 ") (lit " 12 years")).
  - reflexivity.
  - apply not_in_by_forallb. reflexivity.
Defined.

(** The sanitizer only removes: its result is the input with code units
    taken out, none added, none reordered. *)
Theorem sanitizeString_only_removes (s : jsstring) :
  subsequence (sanitizeString s) s.
Proof.
  rewrite sanitizeString_eq, replace_tag_scanner.
  eapply subsequence_trans; [apply firstn_subsequence|].
  eapply subsequence_trans; [|apply (strip_tags_subsequence s false)].
  unfold trim, trimEnd.
  eapply subsequence_trans; [|apply trimStart_subsequence].
  rewrite <- (rev_involutive (trimStart (strip_tags false s))) at 2.
  apply subsequence_rev, trimStart_subsequence.
Qed.

(* ================================================================== *)
(** ** Further properties: the transport helpers and the link *)
(* ================================================================== *)

(** On well-formed text [safeAtob] undoes [safeBtoa], except that a
    byte order mark at the start is lost. *)
Theorem safeAtob_undoes_safeBtoa (s : jsstring) :
  wf16 s ->
  safeAtob (safeBtoa s)
  = match s with
    | c :: t => if c =? 65279 then t else s
    | [] => []
    end.
Proof.
  intros Hwf.
  destruct (safeAtob_safeBtoa_any s (wf16_units s Hwf)) as (_ & _ & _ & ->).
  pose proof (wf16_scalar_values s Hwf) as Hall.
  inversion Hwf as [|c t Hc Hsur Ht|hi lo t Hh Hl Ht]; subst; [reflexivity| |].
  - destruct (unit_scalar c Hc Hsur) as (_ & Hu & Hhi & Hlo).
    unfold scalar_values in *. cbn [code_points] in *. rewrite Hhi, Hlo in *.
    cbn [drop_bom]. destruct (c =? 65279) eqn:E; [|exact Hall].
    cbn [flat_map] in Hall. rewrite Hu in Hall. now injection Hall.
  - destruct (pair_code_facts hi lo Hh Hl) as (_ & Hbig & _).
    unfold scalar_values in *. cbn [code_points] in *. rewrite Hh, Hl in *.
    cbn [drop_bom].
    replace (pair_code hi lo =? 65279) with false by lia.
    replace (hi =? 65279) with false by (unfold isHigh in Hh; lia).
    exact Hall.
Qed.

Lemma safeAtob_undoes_safeBtoa_witness :
  safeAtob (safeBtoa (65279 :: lit "{}")) = lit "{}".
Proof.
  rewrite (safeAtob_undoes_safeBtoa (65279 :: lit "{}")).
  - reflexivity.
  - apply wf16_unit; [reflexivity | reflexivity |].
    apply wf16_ascii. reflexivity.
Defined.

(** [safeBtoa] never reaches its [catch]: [btoa] accepts the bytes of
    every string, and the result is empty only for the empty string.
    [safeAtob] then gives the string back with each lone surrogate
    replaced by U+FFFD and a leading byte order mark dropped. *)
Theorem safeBtoa_never_fails (s : jsstring) :
  wf_string s = true ->
  btoa (TextEncoder_encode s) = Normal (safeBtoa s) /\
  is_nil (safeBtoa s) = is_nil s /\
  safeAtob (safeBtoa s) = flat_map units_of (drop_bom (scalar_values s)).
Proof.
  intros H. destruct (safeAtob_safeBtoa_any s H) as (H1 & H2 & _ & H4).
  repeat split; assumption.
Qed.

Lemma safeBtoa_never_fails_witness :
  btoa (TextEncoder_encode [97; 55357; 98]) = Normal (safeBtoa [97; 55357; 98]) /\
  is_nil (safeBtoa [97; 55357; 98]) = false /\
  safeAtob (safeBtoa [97; 55357; 98]) = [97; 65533; 98].
Proof.
  apply (safeBtoa_never_fails [97; 55357; 98]). reflexivity.
Defined.

(** A fragment of at most ten characters is not taken for a share link:
    the state is left as it is. *)
Theorem short_fragment_is_ignored (st : AppModel) (hash : jsstring) :
  (length hash <= 10)%nat ->
  handleHashChange st (35 :: hash) = st.
Proof.
  intros H. unfold handleHashChange. cbn [skipn].
  replace (10 <? Z.of_nat (length hash)) with false by lia.
  now rewrite andb_false_r.
Qed.

Lemma short_fragment_is_ignored_witness :
  handleHashChange splitting (lit "#section-2") = splitting.
Proof.
  apply (short_fragment_is_ignored splitting (lit "section-2")).
  vm_compute. lia.
Defined.

(** A long fragment with a [%] that two hexadecimal digits do not follow
    is reported as an invalid link, wherever the [%] stands. *)
Theorem malformed_percent_link_is_reported (st : AppModel) (a b : jsstring) :
  (10 < length (a ++ 37%Z :: b))%nat -> not_escape b = true ->
  handleHashChange st (35 :: a ++ 37 :: b) = link_invalid st.
Proof.
  intros Hlen Hb.
  apply (malformed_percent_encoding_is_invalid st (a ++ 37 :: b)) with URIError.
  - apply Z.ltb_lt. lia.
  - now apply decodeURIComponent_bad_escape.
Qed.

Lemma malformed_percent_link_is_reported_witness :
  handleHashChange splitting (lit "#eyJpdGVtcyI6W119%3") = link_invalid splitting.
Proof.
  apply (malformed_percent_link_is_reported splitting
           (lit "eyJpdGVtcyI6W119") (lit "3")).
  - vm_compute. lia.
  - reflexivity.
Defined.

(** A long fragment without [%] that holds a character outside the
    base64 alphabet (other than white space and [=]) is dropped without a
    word: the state stays as it was and no error is set. *)
Theorem non_base64_link_is_dropped (st : AppModel) (hash : jsstring)
  (c : char16) :
  (10 < length hash)%nat -> ~ In 37 hash -> In c hash ->
  b64_value c = None -> isAsciiWhitespace c = false -> c <> 61 ->
  handleHashChange st (35 :: hash) = st.
Proof.
  intros Hlen Hp Hin Hv Hw Hc.
  apply (malformed_base64_is_ignored st hash) with hash InvalidCharacterError.
  - apply Z.ltb_lt. lia.
  - now apply decodeURIComponent_plain.
  - now apply (atob_bad_char c).
Qed.

Lemma non_base64_link_is_dropped_witness :
  handleHashChange splitting (lit "#eyJpdGVtcyI6W119-_") = splitting.
Proof.
  apply (non_base64_link_is_dropped splitting (lit "eyJpdGVtcyI6W119-_") 45).
  - vm_compute. lia.
  - apply not_in_by_forallb. reflexivity.
  - apply in_by_existsb. reflexivity.
  - reflexivity.
  - reflexivity.
  - discriminate.
Defined.

(** A long fragment that decodes to text [JSON.parse] refuses is reported
    as an invalid link. *)
Theorem malformed_json_is_reported (st : AppModel) (hash text : jsstring)
  (e : exn) :
  (10 <? Z.of_nat (length hash)) = true ->
  link_text hash = Normal text -> is_nil text = false ->
  JSON.parse text = Throw e ->
  handleHashChange st (35 :: hash) = link_invalid st.
Proof. intros long. now apply malformed_json_is_invalid. Qed.

Lemma malformed_json_is_reported_witness :
  handleHashChange splitting (lit "#bm90IGpzb24gYXQgYWxs")
  = link_invalid splitting.
Proof.
  apply (malformed_json_is_reported splitting (lit "bm90IGpzb24gYXQgYWxs")
           (lit "not json at all") SyntaxError); reflexivity.
Defined.

(** A long fragment whose JSON the validator rejects is reported as an
    invalid link, and nothing of the payload is kept. *)
Theorem rejected_payload_is_reported (st : AppModel) (hash text : jsstring)
  (rawData : value) :
  (10 <? Z.of_nat (length hash)) = true ->
  link_text hash = Normal text -> is_nil text = false ->
  JSON.parse text = Normal rawData ->
  validateReceiptIntegrity rawData = None ->
  handleHashChange st (35 :: hash) = link_invalid st /\
  (handleHashChange st (35 :: hash)).(receipt) = st.(receipt).
Proof.
  intros long H1 H2 H3 H4.
  rewrite (rejected_payload_is_invalid st hash long text rawData H1 H2 H3 H4).
  split; reflexivity.
Qed.

Lemma rejected_payload_is_reported_witness :
  handleHashChange splitting (lit "#eyJpdGVtcyI6W119") = link_invalid splitting /\
  (handleHashChange splitting (lit "#eyJpdGVtcyI6W119")).(receipt)
  = splitting.(receipt).
Proof.
  apply (rejected_payload_is_reported splitting (lit "eyJpdGVtcyI6W119")
           (lit "{" ++ [34] ++ lit "items" ++ [34] ++ lit ":[]}")
           (Obj [(lit "items", Arr [])])); reflexivity.
Defined.

(** Whatever the fragment, [handleHashChange] ends in one of three ways:
    the state untouched, the invalid-link state, or the confirmation screen
    with a receipt the validator returned. It never touches the
    selections. *)
Theorem handleHashChange_three_outcomes (st : AppModel)
  (location_hash : jsstring) :
  (handleHashChange st location_hash = st \/
   handleHashChange st location_hash = link_invalid st \/
   exists rawData validated,
     validateReceiptIntegrity rawData = Some validated /\
     handleHashChange st location_hash = link_loaded st validated) /\
  (handleHashChange st location_hash).(userSelections) = st.(userSelections).
Proof.
  pose proof (handleHashChange_outcomes st location_hash) as H.
  split; [exact H|].
  destruct H as [-> | [-> | (raw & v & _ & ->)]]; reflexivity.
Qed.

(** Validation is stable on what the link carries: the validator gives a
    link-safe validated receipt back unchanged from its minimal
    projection. *)
Theorem validator_keeps_link_safe_receipt (r : ReceiptData) :
  validated r -> link_safe r = true ->
  validateReceiptIntegrity (minifiedReceipt r) = Some r.
Proof. apply revalidate. Qed.

Lemma validator_keeps_link_safe_receipt_witness :
  validateReceiptIntegrity (minifiedReceipt (repaired example_payload))
  = Some (repaired example_payload).
Proof.
  apply (validator_keeps_link_safe_receipt (repaired example_payload)).
  - exists example_payload. reflexivity.
  - reflexivity.
Defined.

(** The link made for a validated receipt always opens: its token is
    longer than ten characters, and the page that opens it loads the
    receipt [reopened] describes (strings sanitized once more; an empty
    currency, id or description replaced by its default; a number that is
    not finite replaced by 0 and a quantity that is 0 or not finite by
    1). *)
Theorem share_link_always_opens (r : ReceiptData) (base : jsstring) :
  validated r -> wf_receipt r = true ->
  exists token,
    generateShareLink (Some r) base = Some (base ++ 35 :: token) /\
    (10 < length token)%nat /\
    decode token = link_loaded initial (reopened r).
Proof.
  intros Hv Hwf. destruct (link_opens r initial Hv Hwf) as (token & Ht & Hl & Hd).
  exists token. unfold generateShareLink. rewrite Ht. repeat split; assumption.
Qed.

Lemma share_link_always_opens_witness :
  exists token,
    generateShareLink (Some worn_receipt) (lit "https://split.example/")
    = Some (lit "https://split.example/" ++ 35 :: token) /\
    (10 < length token)%nat /\
    decode token = link_loaded initial (reopened worn_receipt).
Proof.
  apply (share_link_always_opens worn_receipt (lit "https://split.example/")).
  - exists worn. vm_compute. reflexivity.
  - reflexivity.
Defined.

(** Opened in any state of the page, the link made for a validated receipt
    loads that very receipt exactly when the receipt is link-safe: finite
    numbers, no zero quantity, no string ending in white space, and a
    currency, ids and descriptions that are not empty. *)
Theorem share_link_exact_iff (r : ReceiptData) (st : AppModel)
        (base : jsstring) :
  validated r -> wf_receipt r = true ->
  exists token,
    generateShareLink (Some r) base = Some (base ++ 35 :: token) /\
    (handleHashChange st (35 :: token) = link_loaded st r
     <-> link_safe r = true).
Proof.
  intros Hv Hwf. destruct (link_opens r st Hv Hwf) as (token & Ht & _ & Hd).
  exists token. unfold generateShareLink. rewrite Ht. split; [reflexivity|].
  rewrite Hd. split.
  - intros H. apply reopened_same. unfold link_loaded in H. congruence.
  - intros H. now rewrite reopened_safe.
Qed.

Lemma share_link_exact_iff_witness :
  exists token,
    generateShareLink (Some worn_receipt) (lit "https://split.example/")
    = Some (lit "https://split.example/" ++ 35 :: token) /\
    (handleHashChange initial (35 :: token) = link_loaded initial worn_receipt
     <-> link_safe worn_receipt = true).
Proof.
  apply (share_link_exact_iff worn_receipt initial
           (lit "https://split.example/")).
  - exists worn. vm_compute. reflexivity.
  - reflexivity.
Defined.

(* ================================================================== *)
(** ** Further properties: selections and shares *)
(* ================================================================== *)

(** With no selection ticked, the claimed subtotal is 0. *)
Theorem nothing_selected_claims_nothing (r : ReceiptData) (sels : Selections) :
  forallb (fun s => negb s.(isSelected)) (Object_values sels) = true ->
  (calculations (Some r) sels).(Share.subtotal) = zero.
Proof. apply calculations_nothing_selected. Qed.

Lemma nothing_selected_claims_nothing_witness :
  (calculations (Some (repaired example_payload))
     [ (lit "b", {| itemId := lit "b"; splitCount := of_Z 1;
                    isSelected := false |}) ]).(Share.subtotal) = zero.
Proof.
  apply (nothing_selected_claims_nothing (repaired example_payload)).
  reflexivity.
Defined.

(** [toggleItem] changes one row: the row toggled shows the other state
    and the same split count, and the selection of every other id is what
    it was. *)
Theorem toggleItem_changes_one_row (key : jsstring) (o : Selections) :
  row_isSelected (toggleItem key o) key = negb (row_isSelected o key) /\
  row_splitCount (toggleItem key o) key = row_splitCount o key /\
  forall k, k <> key ->
            selection_of (toggleItem key o) k = selection_of o k.
Proof.
  unfold toggleItem.
  match goal with
  | |- context [with_selection o key ?s] =>
      destruct (selection_of_with o key s) as [H1 H2]
  end.
  unfold row_isSelected, row_splitCount. rewrite H1.
  cbn [isSelected splitCount]. split; [|split; [|exact H2]].
  - now destruct (selection_of o key).
  - destruct (selection_of o key) as [e|].
    + apply or_num_twice. reflexivity.
    + reflexivity.
Qed.

(** [updateSplit] computes [Math.max(1, count)], which is at least 1
    unless [count] is NaN. Where the id has a selection of its own it keeps
    that selection's state and files the count in it; where it has none it
    creates a ticked selection with the count; in both cases the selection
    of every other id stays as it was. The exception is an id with no
    selection of its own that names a property of [Object.prototype]
    ([constructor], [toString], [__proto__], ...): the inherited value
    stands in for the selection and the entry stored is the count alone. *)
Theorem updateSplit_sets_count (item_key : jsstring) (count : number)
  (sels : Selections) :
  match selection_of sels item_key, inherited item_key with
  | None, true =>
      updateSplit item_key count sels
      = CountOnly (Math_max [of_Z 1; count])
  | existing, _ =>
      exists next,
        updateSplit item_key count sels = Stored next /\
        selection_of next item_key
        = Some {| itemId := match existing with
                            | Some e => e.(itemId)
                            | None => item_key
                            end;
                  isSelected := match existing with
                                | Some e => e.(isSelected)
                                | None => true
                                end;
                  splitCount := Math_max [of_Z 1; count] |} /\
        forall k, k <> item_key -> selection_of next k = selection_of sels k
  end /\
  Math_max [of_Z 1; count]
  = (if isNaN count then NaN
     else if gt count (of_Z 1) then count else of_Z 1) /\
  (isNaN count = false ->
   lt (Math_max [of_Z 1; count]) (of_Z 1) = false).
Proof.
  split; [|split; [apply Math_max_one|]].
  - pose proof (updateSplit_rows item_key count sels) as Hs.
    pose proof (updateSplit_inherited item_key count sels) as Hi.
    destruct (selection_of sels item_key) as [e|].
    + destruct (inherited item_key); apply Hs; left; discriminate.
    + destruct (inherited item_key); [now apply Hi | apply Hs; now right].
  - intros Hn. pose proof (Math_max_one_least count Hn) as H.
    unfold at_least_one in H. apply andb_prop in H.
    now apply negb_true_iff, H.
Qed.

Lemma updateSplit_sets_count_witness :
  updateSplit (lit "constructor") (of_Z 3) [] = CountOnly (of_Z 3) /\
  updateSplit (lit "a") (of_Z 3) example_selections
  = Stored [ (lit "a", {| itemId := lit "a"; splitCount := of_Z 3;
                          isSelected := true |});
             (lit "b", {| itemId := lit "b"; splitCount := of_Z 1;
                          isSelected := false |}) ].
Proof.
  split.
  - exact (proj1 (updateSplit_sets_count (lit "constructor") (of_Z 3) [])).
  - reflexivity.
Defined.

(** Toggling an item twice changes nothing of what is computed, for
    selections as the handlers leave them. *)
Theorem toggleItem_twice_keeps_share (r : option ReceiptData) (key : jsstring)
  (o : Selections) :
  Forall selection_ok o ->
  calculations r (toggleItem key (toggleItem key o)) = calculations r o.
Proof.
  intros Hok. pose proof (toggleItem_twice key o Hok) as H.
  destruct (selection_of o key) as [e|].
  - now rewrite H.
  - destruct H as (b & a & -> & ->). apply calculations_selected.
    now apply selected_values_skip.
Qed.

Lemma toggleItem_twice_keeps_share_witness :
  calculations (Some (repaired example_payload))
    (toggleItem (lit "b") (toggleItem (lit "b") example_selections))
  = calculations (Some (repaired example_payload)) example_selections.
Proof.
  apply (toggleItem_twice_keeps_share (Some (repaired example_payload))
           (lit "b") example_selections).
  repeat constructor.
Defined.

(** Ticking, for the first time, an item whose id is not an array index
    adds its whole price to the claimed subtotal: the split count starts
    at 1 and [price / 1] is the price. *)
Theorem toggleItem_first_adds_price (r : ReceiptData) (o : Selections) (item : ReceiptItem) :
  selection_of o item.(id) = None -> array_index item.(id) = None ->
  find_item r.(items) item.(id) = Some item ->
  JSNumber.wf item.(price) = true ->
  (calculations (Some r) (toggleItem item.(id) o)).(Share.subtotal)
  = add (calculations (Some r) o).(Share.subtotal) item.(price).
Proof.
  intros Hnone Hidx Hfind Hwf.
  unfold toggleItem, with_selection. rewrite Hnone, Hidx.
  rewrite claimed_app. cbn [isSelected itemId splitCount].
  now rewrite Hfind, div_one.
Qed.

Lemma toggleItem_first_adds_price_witness :
  (calculations (Some (repaired example_payload))
     (toggleItem (lit "a") [])).(Share.subtotal)
  = add (calculations (Some (repaired example_payload)) []).(Share.subtotal)
        (of_Z 20).
Proof.
  apply (toggleItem_first_adds_price (repaired example_payload) []
           {| id := lit "a"; quantity := of_Z 1;
              description := lit "Unknown Item"; price := of_Z 20 |});
    vm_compute; reflexivity.
Defined.

(** With item ids all different and selections as the handlers leave
    them, the lines of the summary screen are the terms of the claimed
    subtotal, each once, in the order of the receipt. *)
Theorem summary_lists_claimed_terms (r : ReceiptData) (sels : Selections) :
  NoDup (map id r.(items)) -> Forall selection_ok sels ->
  NoDup (map fst sels) ->
  Permutation (claimed_terms r sels) (summary_lines r sels).
Proof.
  intros Hd Hok Hkeys. rewrite summary_lines_flat. unfold claimed_terms.
  induction sels as [|[k s] o IH].
  - cbn [Object_values map flat_map]. clear.
    induction r.(items) as [|i its IH]; [constructor | exact IH].
  - inversion Hok as [|? ? [Hid Hsc] Hok']; subst.
    cbn [map fst] in Hkeys. inversion Hkeys as [|? ? Hnk Hkeys']; subst.
    cbn [fst snd] in *. specialize (IH Hok' Hkeys').
    unfold Object_values in *. cbn [map snd flat_map].
    destruct (at_least_one_truthy _ Hsc) as [Hor _].
    eapply Permutation_trans;
      [|apply (lines_with_new r.(items) o k s Hd);
        now apply selection_of_none].
    rewrite Hid, Hor. now apply Permutation_app_head.
Qed.

Lemma summary_lists_claimed_terms_witness :
  Permutation (claimed_terms (repaired example_payload) example_selections)
              (summary_lines (repaired example_payload) example_selections).
Proof.
  apply (summary_lists_claimed_terms (repaired example_payload)
           example_selections).
  - apply distinct_NoDup. vm_compute. reflexivity.
  - repeat constructor.
  - apply distinct_NoDup. reflexivity.
Defined.

(* ================================================================== *)
(** ** Further properties: scanning a receipt *)
(* ================================================================== *)

(** The items of a scanned receipt, once validated, carry the ids
    [item-<index>-<time>] the service gave them, all different: every
    row is found under its own id. The array is shorter than 2^32 and the
    clock within the range of time values. *)
Theorem scanned_items_have_distinct_ids (r : reply) (now : nat -> Z) (data : value)
  (validated : ReceiptData) :
  analyzeReceipt r now = Analysed data ->
  validateReceiptIntegrity data = Some validated ->
  Z.of_nat (length validated.(items)) <= 2 ^ 32 ->
  (forall k, Z.abs (now k) <= 8640000000000000) ->
  map id validated.(items)
  = map (fun k => item_id k (now k)) (seq 0 (length validated.(items))) /\
  NoDup (map id validated.(items)) /\
  forall item, In item validated.(items) ->
               find_item validated.(items) item.(id) = Some item.
Proof.
  intros Ha Hv Hlen Hnow.
  destruct (analysis_items r now data Ha) as [elems He].
  apply validate_some in Hv. destruct Hv as [_ ->].
  cbn [items repaired] in *. rewrite He in *. cbn [elements] in *.
  assert (Hl : length (repaired_items (with_ids elems 0 now) 0) = length elems).
  { rewrite <- (length_map id), with_ids_repairable, length_map, length_seq.
    reflexivity. }
  rewrite Hl in *.
  assert (Hids : map id (repaired_items (with_ids elems 0 now) 0)
                 = map (fun k => item_id k (now k)) (seq 0 (length elems))).
  { rewrite with_ids_repairable. apply map_ext_in. intros k Hk.
    apply in_seq in Hk. apply sanitizeString_item_id.
    - assert (2 ^ 32 < 2 ^ 64) by (vm_compute; reflexivity). lia.
    - specialize (Hnow k).
      assert (8640000000000000 < 2 ^ 64) by (vm_compute; reflexivity). lia. }
  assert (Hd : NoDup (map id (repaired_items (with_ids elems 0 now) 0)))
    by (rewrite Hids; apply item_ids_nodup).
  split; [exact Hids|]. split; [exact Hd|].
  intros item Hin. now apply find_item_own.
Qed.

(** What the model answers for a receipt of two lines, both with the id
    it invented; the clock. *)
Definition scan_reply : reply :=
  Response (Some (JSON_stringify
    (Obj [ (lit "restaurantName", Str (lit "Cafe"));
           (lit "items",
            Arr [ Obj [ (lit "id", Str (lit "x"));
                        (lit "quantity", Num (of_Z 1));
                        (lit "description", Str (lit "Soup"));
                        (lit "price", Num (of_Z 4)) ];
                  Obj [ (lit "id", Str (lit "x"));
                        (lit "quantity", Num (of_Z 2));
                        (lit "description", Str (lit "Tea"));
                        (lit "price", Num (of_Z 6)) ] ]);
           (lit "total", Num (of_Z 10)) ]))).

Definition scan_clock (k : nat) : Z := 1700000000000.

Definition scan_data : value :=
  match analyzeReceipt scan_reply scan_clock with
  | Analysed data => data
  | Failed _ => Null
  end.

Lemma scanned_items_have_distinct_ids_witness :
  map id (repaired scan_data).(items)
  = [lit "item-0-1700000000000"; lit "item-1-1700000000000"] /\
  NoDup (map id (repaired scan_data).(items)) /\
  forall item, In item (repaired scan_data).(items) ->
               find_item (repaired scan_data).(items) item.(id) = Some item.
Proof.
  apply (scanned_items_have_distinct_ids scan_reply scan_clock scan_data
           (repaired scan_data)).
  - vm_compute. reflexivity.
  - vm_compute. reflexivity.
  - vm_compute. discriminate.
  - intros k. vm_compute. discriminate.
Defined.

(** Where [handleCapture] ends when nothing else happens meanwhile,
    whatever the service answered: on the confirmation screen with a
    receipt the validator returned and no error, or on the home screen with
    one of two fixed messages and the receipt it had. It never touches the
    selections, and nothing is awaited any more than before. *)
Theorem handleCapture_ends_well (a : App) (r : reply) (now : nat -> Z) :
  let a' := handleCapture_finish (handleCapture_start a) (analyzeReceipt r now) in
  a'.(awaited) = a.(awaited) /\
  a'.(core).(userSelections) = a.(core).(userSelections) /\
  ((exists data validated,
      analyzeReceipt r now = Analysed data /\
      validateReceiptIntegrity data = Some validated /\
      a'.(core).(appState) = CONFIRM_INFO /\
      a'.(core).(receipt) = Some validated /\
      a'.(core).(error) = None)
   \/ (a'.(core).(appState) = HOME /\
       a'.(core).(receipt) = a.(core).(receipt) /\
       (a'.(core).(error) = Some analysis_failed
        \/ a'.(core).(error) = Some malformed_analysis))).
Proof.
  cbn zeta. unfold handleCapture_finish, handleCapture_start.
  cbn [core awaited userSelections receipt error appState pred].
  split; [reflexivity|]. split.
  - destruct (analyzeReceipt r now) as [data|m];
      [destruct (validateReceiptIntegrity data)|]; reflexivity.
  - destruct (analyzeReceipt r now) as [data|m] eqn:E.
    + destruct (validateReceiptIntegrity data) as [v|] eqn:Ev.
      * left. exists data, v. cbn [core appState receipt error].
        repeat split. exact Ev.
      * right. cbn [core appState receipt error]. repeat split. now right.
    + right. cbn [core appState receipt error]. repeat split. left.
      unfold analyzeReceipt in E. destruct r as [|text].
      * now injection E as <-.
      * destruct (analysis_body text now); [discriminate E|].
        now injection E as <-.
Qed.

(* ================================================================== *)
(** ** Further properties: every state the application can reach *)
(* ================================================================== *)

Lemma run_reachable (es : list event) :
  forall a a', reachable a -> run a es = Some a' -> reachable a'.
Proof.
  induction es as [|e es IH]; intros a a' Ha H; cbn [run] in H.
  - now injection H as <-.
  - destruct (enabled a e) eqn:E; [|discriminate H].
    apply (IH (handle a e)); [now apply reachable_step | exact H].
Qed.

(** A visit: a link is opened, its first item claimed and split in two,
    the summary viewed. *)
Definition example_visit : list event :=
  [ HashChange
      (lit "#eyJyZXN0YXVyYW50TmFtZSI6IkNhZmUiLCJkYXRlIjoiIiwiY3VycmVuY3kiOiIkIiwic3VidG90YWwiOjMwLCJ0YXgiOjMsInRpcCI6NiwidG90YWwiOjM5LCJpdGVtcyI6W3siaWQiOiJhIiwicXVhbnRpdHkiOjEsImRlc2NyaXB0aW9uIjoiVW5rbm93biBJdGVtIiwicHJpY2UiOjIwfSx7ImlkIjoiYiIsInF1YW50aXR5IjoxLCJkZXNjcmlwdGlvbiI6IlVua25vd24gSXRlbSIsInByaWNlIjoxMH1dfQ%3D%3D");
    ClaimMyItems;
    ToggleItem (lit "a");
    SplitMore (lit "a");
    ViewSummary ].

Definition example_session : App :=
  match run mounted example_visit with
  | Some a => a
  | None => mounted
  end.

Lemma example_session_reachable : reachable example_session.
Proof.
  apply (run_reachable example_visit mounted); [constructor|].
  vm_compute. reflexivity.
Defined.

(** In every state the application can reach, the receipt it holds, if
    any, is one the validator returned, and the three screens that show a
    receipt have one: their blank branch is never rendered. *)
Theorem reachable_receipt_is_validated (a : App) :
  reachable a ->
  (forall r, a.(core).(receipt) = Some r -> validated r) /\
  (shows_receipt a.(core).(appState) = true -> a.(core).(receipt) <> None).
Proof.
  intros H. destruct (reachable_ok a H) as (H1 & _ & _ & H4 & _).
  split; assumption.
Qed.

Lemma reachable_receipt_is_validated_witness :
  (forall r, example_session.(core).(receipt) = Some r -> validated r) /\
  (shows_receipt example_session.(core).(appState) = true ->
   example_session.(core).(receipt) <> None).
Proof.
  apply (reachable_receipt_is_validated example_session).
  exact example_session_reachable.
Defined.

(** In every state the application can reach, each selection is filed
    once, under its own item id, and its split count is a number not below
    1: no share is computed by dividing by zero or by NaN. *)
Theorem reachable_selections_well_formed (a : App) :
  reachable a ->
  NoDup (map fst a.(core).(userSelections)) /\
  Forall (fun kv => (snd kv).(itemId) = fst kv /\
                    isNaN (snd kv).(splitCount) = false /\
                    lt (snd kv).(splitCount) (of_Z 1) = false)
         a.(core).(userSelections).
Proof.
  intros H. destruct (reachable_ok a H) as (_ & H2 & H3 & _).
  split; [exact H3|]. eapply Forall_impl; [|exact H2].
  intros kv [Hid Hsc]. unfold at_least_one in Hsc.
  apply andb_prop in Hsc. destruct Hsc as [Hn Hl].
  repeat split; [exact Hid | |]; now apply negb_true_iff.
Qed.

Lemma reachable_selections_well_formed_witness :
  NoDup (map fst example_session.(core).(userSelections)) /\
  Forall (fun kv => (snd kv).(itemId) = fst kv /\
                    isNaN (snd kv).(splitCount) = false /\
                    lt (snd kv).(splitCount) (of_Z 1) = false)
         example_session.(core).(userSelections).
Proof.
  apply (reachable_selections_well_formed example_session).
  exact example_session_reachable.
Defined.

(** The summary screen is never shown for a claimed subtotal equal to
    0. *)
Theorem summary_never_shows_zero (a : App) :
  reachable a -> a.(core).(appState) = SUMMARY ->
  strict_equal
    (calculations a.(core).(receipt) a.(core).(userSelections)).(Share.subtotal)
    zero = false.
Proof.
  intros H. destruct (reachable_ok a H) as (_ & _ & _ & _ & H5). exact H5.
Qed.

Lemma summary_never_shows_zero_witness :
  example_session.(core).(appState) = SUMMARY /\
  (calculations example_session.(core).(receipt)
     example_session.(core).(userSelections)).(Share.subtotal) = of_Z 10 /\
  strict_equal
    (calculations example_session.(core).(receipt)
       example_session.(core).(userSelections)).(Share.subtotal)
    zero = false.
Proof.
  split; [vm_compute; reflexivity|]. split; [vm_compute; reflexivity|].
  apply (summary_never_shows_zero example_session).
  - exact example_session_reachable.
  - vm_compute. reflexivity.
Defined.

(* ================================================================== *)
(** ** Further properties: the image sent for analysis *)
(* ================================================================== *)

(** The image data sent for analysis is what stands between the first
    comma of the string and the next one: for a data URL, its base64
    payload.  A string with no comma sends no data ([undefined]). *)
Theorem image_data_after_first_comma (p rest : jsstring) :
  ~ In 44 p ->
  image_data p = None /\
  image_data (p ++ 44 :: rest) = Some (before_comma rest).
Proof.
  intros H. unfold image_data. split.
  - now rewrite split_no_comma.
  - rewrite split_at_comma by exact H.
    destruct (split_first rest) as [pieces ->]. reflexivity.
Qed.

Lemma image_data_after_first_comma_witness :
  image_data (lit "data:image/jpeg;base64") = None /\
  image_data (lit "data:image/jpeg;base64" ++ 44 :: lit "/9j/4AAQ")
  = Some (lit "/9j/4AAQ").
Proof.
  apply (image_data_after_first_comma (lit "data:image/jpeg;base64")
           (lit "/9j/4AAQ")).
  apply not_in_by_forallb. reflexivity.
Defined.
